(** * Batch embedding pipeline of messenger-rag: chunk loading, partition
      plan and the batch processor with per-item fallback.

    The three scripts under [embeddings_runpod/] are embedded as three
    modules, one per file:
    - [EmbedChunks]     for [embed_chunks.py],
    - [EmbedChunksV2]   for [embed_chunks_v2.py],
    - [EmbedViaHttp]    for [embed_via_http.py].

    Python dictionaries are finite maps from strings to JSON values,
    exceptions are an explicit error result, the embedding endpoint is an
    oracle indexed by the number of calls issued so far, and the output
    directory is the ordered list of the files written.

    The development has two layers.  The three modules above describe
    the scripts on a store each of whose lines either is not JSON or holds
    a JSON object, and on a disk where writing a file does not fail.
    There every chunk is a dictionary of its own, built by [json.loads]
    from one line, and [process_chunks] updates it once, right before
    appending it to the file batch; the update in place is therefore
    rendered by the updated value.  The endpoint either raises or returns
    a list.

    The modules [EmbedChunksFull], [EmbedChunksV2Full] and
    [EmbedViaHttpFull] lift the two assumptions.  Their loaders take lines
    of any kind: not JSON, a JSON object, or another JSON value, on which
    [chunk.get] raises an attribute error.  The processor of
    [EmbedChunksFull] runs on a disk given as an oracle that tells, for
    each call of [save_batch] in turn, whether the write succeeds; a
    failed write inside a [try] is caught like a failed call, with the
    file batch left as it was, and since the batch then holds the very
    dictionaries the fallback loop updates again, the chunks are kept in
    a store and the batch holds their positions.  On lines that are
    objects or not JSON the loaders of the two layers agree, and on a
    disk whose writes all succeed so do the processors
    ([full_load_chunks_agrees], [full_v2_load_agrees],
    [full_http_load_agrees], [disk_run_agrees]).

    Whole runs are also described chunk by chunk: [fates] gives, from the
    answers of the endpoint alone, what becomes of the chunk at each
    position, and every run that ends is shown to send the requests, to
    write the chunks and to print the skip lines that this description
    gives ([pod_run_fates], [http_run_fates]).

    Each [main] is embedded by the way it ends, its arguments being the
    parsed command line; the lines it prints itself are left out, and so
    is the [--test] mode of [embed_via_http.py].  File names are the
    strings the f-strings of [save_batch] build. *)

From Stdlib Require Import ZArith QArith Lia.
From Stdlib Require Import Ascii DecimalString DecimalNat DecimalPos DecimalZ.
From stdpp Require Import base option list strings gmap.

Set Warnings "-register-all".
Local Open Scope nat_scope.

(** ** JSON values and chunks *)

(** What [json.loads] and [response.json()] produce.  Numbers are the
    rational their literal denotes; the pipeline performs no arithmetic on
    them. *)
Inductive json : Type :=
| JNull
| JBool (b : bool)
| JNum (q : Q)
| JStr (s : string)
| JArr (items : list json)
| JObj (fields : list (string * json)).

(** Python truth value of a JSON value, as used by [not chunk.get(...)]. *)
Definition truthy (v : json) : bool :=
  match v with
  | JNull => false
  | JBool b => b
  | JNum q => negb (Qnum q =? 0)%Z
  | JStr s => negb (String.eqb s "")
  | JArr items => negb (Nat.eqb (length items) 0)
  | JObj fields => negb (Nat.eqb (length fields) 0)
  end.

(** A chunk is the [dict] obtained from one line of the record store. *)
Abbreviation chunk := (gmap string json).

(** [chunk.get('is_indexable', True)] followed by the truth test. *)
Definition is_indexable (c : chunk) : bool :=
  truthy (default (JBool true) (c !! "is_indexable")).

(** [chunk["embedding"] = emb] *)
Definition set_embedding (c : chunk) (emb : json) : chunk :=
  <["embedding" := emb]> c.

(** ** Exceptions *)

Inductive exn : Type :=
| JSONDecodeError
| KeyError (key : string)
| AttributeError
| OSError.

Inductive result (A : Type) : Type :=
| Return (a : A)
| Raise (e : exn).
Arguments Return {A} a.
Arguments Raise {A} e.

Definition result_bind {A B} (m : result A) (k : A → result B) : result B :=
  match m with
  | Return a => k a
  | Raise e => Raise e
  end.

Notation "'do' x <- m ; k" := (result_bind m (fun x => k))
  (at level 10, x name, m at level 100, k at level 200,
   format "'[v' 'do'  x  <-  m ; '/' k ']'").

(** A [for] loop whose body may raise: the first exception ends the loop. *)
Fixpoint for_each {A S} (body : S → A → result S) (s : S) (l : list A)
  : result S :=
  match l with
  | [] => Return s
  | x :: rest => do s' <- body s x; for_each body s' rest
  end.

(** [d[key]] on a dictionary. *)
Definition getitem (c : chunk) (key : string) : result json :=
  match c !! key with
  | Some v => Return v
  | None => Raise (KeyError key)
  end.

(** [[c["text"] for c in batch_chunks]] *)
Fixpoint texts_of (batch_chunks : list chunk) : result (list json) :=
  match batch_chunks with
  | [] => Return []
  | c :: rest =>
      do t <- getitem c "text";
      do ts <- texts_of rest;
      Return (t :: ts)
  end.

(** ** The record store *)

(** One line of the store, by what [json.loads(line.strip())] does on it:
    it raises on a line that is not JSON, and yields a dictionary on a
    line that holds a JSON object. *)
Inductive line : Type :=
| Garbled (raw : string)
| Record (c : chunk).

Definition json_loads (l : line) : result chunk :=
  match l with
  | Garbled _ => Raise JSONDecodeError
  | Record c => Return c
  end.

Definition is_garbled (l : line) : bool :=
  match l with Garbled _ => true | Record _ => false end.

(** [count is not None and len(chunks) >= count] *)
Definition count_reached (count : option Z) (chunks : list chunk) : bool :=
  match count with
  | None => false
  | Some c => (c <=? Z.of_nat (length chunks))%Z
  end.

(** ** The embedding endpoint *)

(** Outcome of one [get_embeddings_batch] call: the list under
    ["embeddings"] of the response, or an exception (transport error,
    non-success status, timeout, missing key). *)
Inductive reply : Type :=
| Embeddings (embeddings : list json)
| CallFailed.

(** The endpoint answers the [n]-th call of a run (counting from zero) on
    the submitted texts. *)
Definition service : Type := nat → list json → reply.

Definition EMBED_BATCH_SIZE : nat := 25.
Definition FILE_BATCH_SIZE : nat := 100.

(** [range(0, total, step)] *)
Definition range_step (total step : nat) : list nat :=
  (λ k, k * step) <$> seq 0 (Nat.div (total + step - 1) step).

(** Lines printed by [process_chunks]. *)
Inductive event : Type :=
| PodProgress (processed total file_batch_num : nat)
| HttpProgress (processed total : nat)
| ErrorAtBatch (i : nat)
| SkipChunk (chunk_id : json)
| Done (processed files : nat)
| Warning (failed : nat).

(** ** File names *)

(** [str(n)] of an integer, as an f-string renders it. *)
Definition str_nat (n : nat) : string :=
  NilZero.string_of_uint (Nat.to_uint n).

Definition str_int (z : Z) : string :=
  NilZero.string_of_int (Z.to_int z).

Fixpoint zeros (k : nat) : string :=
  match k with
  | 0 => EmptyString
  | S k' => String "0"%char (zeros k')
  end.

(** The format [06d] applied to a number that is not negative: its
    decimal digits, padded with zeros on the left to six characters. *)
Definition format_06d (n : nat) : string :=
  let s := str_nat n in
  String.append (zeros (6 - String.length s)) s.

(** ** embed_chunks.py *)

Module EmbedChunks.

(** [load_chunks]: the loop over [enumerate(f)], [i] being the index of
    the line at the head of [lines]. *)
Fixpoint load_loop (offset : Z) (count : option Z) (i : nat)
    (lines : list line) (chunks : list chunk) : result (list chunk) :=
  match lines with
  | [] => Return chunks
  | l :: rest =>
      if (Z.of_nat i <? offset)%Z then
        load_loop offset count (S i) rest chunks
      else if count_reached count chunks then
        Return chunks
      else
        do c <- json_loads l;
        load_loop offset count (S i) rest (chunks ++ [c])
  end.

Definition load_chunks (lines : list line) (offset : Z) (count : option Z)
  : result (list chunk) :=
  load_loop offset count 0 lines [].

Definition count_chunks (lines : list line) : nat := length lines.

(** The window printed for pod [p] by [main] under [--stats]. *)
Definition pod_window (total_chunks n_pods p : nat) : nat * nat :=
  let per_pod := total_chunks / n_pods in
  let offset := p * per_pod in
  let count := if p <? n_pods - 1 then per_pod else total_chunks - offset in
  (offset, count).

(** [for p in range(n_pods)] *)
Definition plan (total_chunks n_pods : nat) : list (nat * nat) :=
  pod_window total_chunks n_pods <$> seq 0 n_pods.

(** [for n_pods in [2, 3, 4, 5, 7]] *)
Definition stats_plans (total_chunks : nat) : list (nat * list (nat * nat)) :=
  (λ n_pods, (n_pods, plan total_chunks n_pods)) <$> [2; 3; 4; 5; 7].

(** Local variables of [process_chunks], the files written so far (keyed
    by pod id and sequence number, which the file name renders), the
    requests sent to the endpoint and the lines printed. *)
Record state : Type := State {
  processed : nat;
  file_batch : list chunk;
  file_batch_num : nat;
  disk : list ((Z * nat) * list chunk);
  calls : list (list json);
  stdout : list event
}.

Definition init : state := State 0 [] 0 [] [] [].

Definition print (e : event) (st : state) : state :=
  State (processed st) (file_batch st) (file_batch_num st) (disk st)
        (calls st) (stdout st ++ [e]).

(** [save_batch] creates one file; the write is taken to succeed. *)
Definition save_batch (batch : list chunk) (pod_id : Z) (batch_num : nat)
    (st : state) : state :=
  State (processed st) (file_batch st) (file_batch_num st)
        (disk st ++ [((pod_id, batch_num), batch)]) (calls st) (stdout st).

Definition get_embeddings_batch (svc : service) (texts : list json)
    (st : state) : reply * state :=
  (svc (length (calls st)) texts,
   State (processed st) (file_batch st) (file_batch_num st) (disk st)
         (calls st ++ [texts]) (stdout st)).

(** Body shared by the two loops (lines 83-91 and 103-109): attach the
    vector, append, count, and save the file batch when full. *)
Definition embed_chunk (pod_id : Z) (st : state) (c : chunk) (emb : json)
  : state :=
  let file_batch' := file_batch st ++ [set_embedding c emb] in
  if FILE_BATCH_SIZE <=? length file_batch' then
    let st' := save_batch file_batch' pod_id (file_batch_num st) st in
    State (S (processed st)) [] (S (file_batch_num st)) (disk st')
          (calls st) (stdout st)
  else
    State (S (processed st)) file_batch' (file_batch_num st) (disk st)
          (calls st) (stdout st).

(** [except Exception as e2]: the skip line reads [chunk['chunk_id']]. *)
Definition skip_chunk (st : state) (c : chunk) : result state :=
  do id <- getitem c "chunk_id";
  Return (print (SkipChunk id) st).

(** One iteration of the fallback loop (lines 100-111). *)
Definition retry_chunk (svc : service) (pod_id : Z) (st : state) (c : chunk)
  : result state :=
  match c !! "text" with
  | None => skip_chunk st c
  | Some t =>
      let '(r, st) := get_embeddings_batch svc [t] st in
      match r with
      | Embeddings (emb :: _) => Return (embed_chunk pod_id st c emb)
      | Embeddings [] => skip_chunk st c
      | CallFailed => skip_chunk st c
      end
  end.

(** [for chunk, emb in zip(batch_chunks, embeddings)] *)
Fixpoint embed_zip (pod_id : Z) (st : state) (batch_chunks : list chunk)
    (embeddings : list json) : state :=
  match batch_chunks, embeddings with
  | c :: cs, emb :: embs => embed_zip pod_id (embed_chunk pod_id st c emb) cs embs
  | _, _ => st
  end.

(** One iteration of the main loop (lines 76-111). *)
Definition process_batch (svc : service) (pod_id : Z) (chunks : list chunk)
    (st : state) (i : nat) : result state :=
  let total := length chunks in
  let batch_chunks := take EMBED_BATCH_SIZE (drop i chunks) in
  do texts <- texts_of batch_chunks;
  let '(r, st) := get_embeddings_batch svc texts st in
  match r with
  | Embeddings embeddings =>
      let st := embed_zip pod_id st batch_chunks embeddings in
      Return (print (PodProgress (processed st) total (file_batch_num st)) st)
  | CallFailed =>
      for_each (retry_chunk svc pod_id) (print (ErrorAtBatch i) st) batch_chunks
  end.

(** Lines 113-116: [if file_batch:] save what remains. *)
Definition save_remaining (pod_id : Z) (st : state) : state :=
  match file_batch st with
  | [] => st
  | _ :: _ =>
      let st' := save_batch (file_batch st) pod_id (file_batch_num st) st in
      State (processed st') (file_batch st') (S (file_batch_num st'))
            (disk st') (calls st') (stdout st')
  end.

(** Line 118: the summary. *)
Definition print_summary (st : state) : state :=
  print (Done (processed st) (file_batch_num st)) st.

Definition finish (pod_id : Z) (st : state) : state :=
  print_summary (save_remaining pod_id st).

Definition process_chunks (svc : service) (chunks : list chunk) (pod_id : Z)
  : result state :=
  let total := length chunks in
  do st <- for_each (process_batch svc pod_id chunks) init
             (range_step total EMBED_BATCH_SIZE);
  Return (finish pod_id st).

(** How [main] ends, apart from the lines it prints itself: after the
    plans of [--stats], with nothing to process, or after
    [process_chunks]. *)
Inductive outcome : Type :=
| Stats (plans : list (nat * list (nat * nat)))
| NoChunks
| Processed (st : state).

(** [main] (lines 129-171), its arguments being the parsed command
    line. *)
Definition main (svc : service) (lines : list line) (pod_id offset : Z)
    (count : option Z) (stats : bool) : result outcome :=
  let total_chunks := count_chunks lines in
  if stats then Return (Stats (stats_plans total_chunks))
  else
    do chunks <- load_chunks lines offset count;
    match chunks with
    | [] => Return NoChunks
    | _ :: _ =>
        do st <- process_chunks svc chunks pod_id;
        Return (Processed st)
    end.

(** The file name of [save_batch] (line 123). *)
Definition file_name (pod_id : Z) (batch_num : nat) : string :=
  String.append "chunks_pod"
    (String.append (str_int pod_id)
       (String.append "_batch_"
          (String.append (format_06d batch_num) ".json"))).

End EmbedChunks.

(** ** embed_chunks_v2.py *)

Module EmbedChunksV2.

(** [load_indexable_chunks]: every line read is parsed first; the offset
    test compares [len(chunks) + skipped] with [offset]. *)
Fixpoint load_loop (offset : Z) (count : option Z) (lines : list line)
    (chunks : list chunk) (skipped : nat) : result (list chunk * nat) :=
  match lines with
  | [] => Return (chunks, skipped)
  | l :: rest =>
      do c <- json_loads l;
      if negb (is_indexable c) then
        load_loop offset count rest chunks (S skipped)
      else if (Z.of_nat (length chunks + skipped) <? offset)%Z then
        load_loop offset count rest chunks skipped
      else if count_reached count chunks then
        Return (chunks, skipped)
      else
        load_loop offset count rest (chunks ++ [c]) skipped
  end.

Definition load_indexable_chunks (lines : list line) (offset : Z)
    (count : option Z) : result (list chunk * nat) :=
  load_loop offset count lines [] 0.

(** [count_chunks]: total and indexable counts. *)
Fixpoint count_loop (lines : list line) (total indexable : nat)
  : result (nat * nat) :=
  match lines with
  | [] => Return (total, indexable)
  | l :: rest =>
      do c <- json_loads l;
      count_loop rest (S total)
        (if is_indexable c then S indexable else indexable)
  end.

Definition count_chunks (lines : list line) : result (nat * nat) :=
  count_loop lines 0 0.

(** [process_chunks] is, statement for statement, the one of
    [embed_chunks.py]; only the wording of the summary line and the
    prefix of the file names differ. *)
Definition process_chunks := EmbedChunks.process_chunks.

(** How [main] ends, apart from the lines it prints itself.  The
    percentage of usable chunks is printed before anything else is done,
    and dividing by the total raises on an empty store. *)
Inductive ending : Type :=
| ZeroDivisionError
| Uncaught (e : exn)
| Stats (per_pod : list (nat * nat))
| NoChunks (skipped : nat)
| Processed (skipped : nat) (st : EmbedChunks.state).

(** [main] (lines 142-187), its arguments being the parsed command
    line. *)
Definition main (svc : service) (lines : list line) (pod_id offset : Z)
    (count : option Z) (stats : bool) : ending :=
  match count_chunks lines with
  | Raise e => Uncaught e
  | Return (total_chunks, indexable_chunks) =>
      if total_chunks =? 0 then ZeroDivisionError
      else if stats then
        Stats ((λ n_pods, (n_pods, indexable_chunks / n_pods)) <$> [2; 3; 4])
      else
        match load_indexable_chunks lines offset count with
        | Raise e => Uncaught e
        | Return ([], skipped) => NoChunks skipped
        | Return (chunks, skipped) =>
            match process_chunks svc chunks pod_id with
            | Raise e => Uncaught e
            | Return st => Processed skipped st
            end
        end
  end.

(** The file name of [save_batch] (line 136). *)
Definition file_name (pod_id : Z) (batch_num : nat) : string :=
  String.append "chunks_v2_pod"
    (String.append (str_int pod_id)
       (String.append "_batch_"
          (String.append (format_06d batch_num) ".json"))).

End EmbedChunksV2.

(** ** embed_via_http.py *)

Module EmbedViaHttp.

(** [load_indexable_chunks]: the filter alone, no window. *)
Fixpoint load_loop (lines : list line) (chunks : list chunk) (skipped : nat)
  : result (list chunk * nat) :=
  match lines with
  | [] => Return (chunks, skipped)
  | l :: rest =>
      do c <- json_loads l;
      if is_indexable c then load_loop rest (chunks ++ [c]) skipped
      else load_loop rest chunks (S skipped)
  end.

Definition load_indexable_chunks (lines : list line)
  : result (list chunk * nat) :=
  load_loop lines [] 0.

Record state : Type := State {
  processed : nat;
  failed : nat;
  file_batch : list chunk;
  file_batch_num : nat;
  disk : list (nat * list chunk);
  calls : list (list json);
  stdout : list event
}.

Definition init : state := State 0 0 [] 0 [] [] [].

Definition print (e : event) (st : state) : state :=
  State (processed st) (failed st) (file_batch st) (file_batch_num st)
        (disk st) (calls st) (stdout st ++ [e]).

(** [save_batch], as above. *)
Definition save_batch (batch : list chunk) (batch_num : nat) (st : state)
  : state :=
  State (processed st) (failed st) (file_batch st) (file_batch_num st)
        (disk st ++ [(batch_num, batch)]) (calls st) (stdout st).

Definition get_embeddings_batch (svc : service) (texts : list json)
    (st : state) : reply * state :=
  (svc (length (calls st)) texts,
   State (processed st) (failed st) (file_batch st) (file_batch_num st)
         (disk st) (calls st ++ [texts]) (stdout st)).

(** Body shared by the two loops (lines 66-74 and 88-94). *)
Definition embed_chunk (st : state) (c : chunk) (emb : json) : state :=
  let file_batch' := file_batch st ++ [set_embedding c emb] in
  if FILE_BATCH_SIZE <=? length file_batch' then
    let st' := save_batch file_batch' (file_batch_num st) st in
    State (S (processed st)) (failed st) [] (S (file_batch_num st))
          (disk st') (calls st) (stdout st)
  else
    State (S (processed st)) (failed st) file_batch' (file_batch_num st)
          (disk st) (calls st) (stdout st).

(** [except Exception as e2]: print the skip line, then [failed += 1]. *)
Definition skip_chunk (st : state) (c : chunk) : result state :=
  do id <- getitem c "chunk_id";
  let st := print (SkipChunk id) st in
  Return (State (processed st) (S (failed st)) (file_batch st)
                (file_batch_num st) (disk st) (calls st) (stdout st)).

(** One iteration of the fallback loop (lines 85-97). *)
Definition retry_chunk (svc : service) (st : state) (c : chunk)
  : result state :=
  match c !! "text" with
  | None => skip_chunk st c
  | Some t =>
      let '(r, st) := get_embeddings_batch svc [t] st in
      match r with
      | Embeddings (emb :: _) => Return (embed_chunk st c emb)
      | Embeddings [] => skip_chunk st c
      | CallFailed => skip_chunk st c
      end
  end.

(** [for chunk, emb in zip(batch_chunks, embeddings)] *)
Fixpoint embed_zip (st : state) (batch_chunks : list chunk)
    (embeddings : list json) : state :=
  match batch_chunks, embeddings with
  | c :: cs, emb :: embs => embed_zip (embed_chunk st c emb) cs embs
  | _, _ => st
  end.

(** One iteration of the main loop (lines 59-97).  The rate and the ETA
    of the progress line depend on the clock and are left out. *)
Definition process_batch (svc : service) (chunks : list chunk)
    (st : state) (i : nat) : result state :=
  let total := length chunks in
  let batch_chunks := take EMBED_BATCH_SIZE (drop i chunks) in
  do texts <- texts_of batch_chunks;
  let '(r, st) := get_embeddings_batch svc texts st in
  match r with
  | Embeddings embeddings =>
      let st := embed_zip st batch_chunks embeddings in
      Return (print (HttpProgress (processed st) total) st)
  | CallFailed =>
      for_each (retry_chunk svc) (print (ErrorAtBatch i) st) batch_chunks
  end.

(** Lines 99-102: [if file_batch:] save what remains. *)
Definition save_remaining (st : state) : state :=
  match file_batch st with
  | [] => st
  | _ :: _ =>
      let st' := save_batch (file_batch st) (file_batch_num st) st in
      State (processed st') (failed st') (file_batch st')
            (S (file_batch_num st')) (disk st') (calls st') (stdout st')
  end.

(** Lines 104-107: the summary and, when some chunk failed, the
    warning. *)
Definition print_summary (st : state) : state :=
  let st := print (Done (processed st) (file_batch_num st)) st in
  if 0 <? failed st then print (Warning (failed st)) st else st.

Definition finish (st : state) : state :=
  print_summary (save_remaining st).

Definition process_chunks (svc : service) (chunks : list chunk)
  : result state :=
  let total := length chunks in
  do st <- for_each (process_batch svc chunks) init
             (range_step total EMBED_BATCH_SIZE);
  Return (finish st).

(** How [main] ends when [--test] is not given, apart from the lines it
    prints itself. *)
Inductive ending : Type :=
| Exit1
| Uncaught (e : exn)
| NoChunks (skipped : nat)
| Processed (skipped : nat) (st : state).

(** [main] (lines 118-158) without [--test]; [connected] tells whether
    the request for the list of models went through. *)
Definition main (connected : bool) (svc : service) (lines : list line)
  : ending :=
  if negb connected then Exit1
  else
    match load_indexable_chunks lines with
    | Raise e => Uncaught e
    | Return ([], skipped) => NoChunks skipped
    | Return (chunks, skipped) =>
        match process_chunks svc chunks with
        | Raise e => Uncaught e
        | Return st => Processed skipped st
        end
    end.

(** The file name of [save_batch] (line 112). *)
Definition file_name (batch_num : nat) : string :=
  String.append "chunks_v2_batch_"
    (String.append (format_06d batch_num) ".json").

End EmbedViaHttp.

(** * The loaders on stores of any kind

    The modules above read stores whose lines either are not JSON or hold
    a JSON object.  [json.loads] accepts every JSON value; the loaders are
    given here again on stores with lines of all three kinds.  On stores
    of the first two kinds they agree with the loaders above (lemmas
    [full_load_chunks_agrees], [full_v2_load_agrees],
    [full_v2_count_agrees] and [full_http_load_agrees]). *)

(** What [json.loads] yields: a dictionary on a JSON object and, on any
    other JSON value (a list, a string, a number, [true], [false],
    [null]), a Python value that is not a dictionary. *)
Inductive pyobj : Type :=
| Dict (c : chunk)
| NotDict (v : json).

(** One line of a store: not JSON at all, a JSON object, or another JSON
    value. *)
Inductive any_line : Type :=
| Unparsable (raw : string)
| Object (c : chunk)
| Other (v : json).

(** [json.loads(line.strip())] *)
Definition loads (l : any_line) : result pyobj :=
  match l with
  | Unparsable _ => Raise JSONDecodeError
  | Object c => Return (Dict c)
  | Other v => Return (NotDict v)
  end.

Module EmbedChunksFull.

(** [load_chunks] of [embed_chunks.py] (lines 43-53): whatever
    [json.loads] yields is appended. *)
Fixpoint load_loop (offset : Z) (count : option Z) (i : nat)
    (lines : list any_line) (chunks : list pyobj) : result (list pyobj) :=
  match lines with
  | [] => Return chunks
  | l :: rest =>
      if (Z.of_nat i <? offset)%Z then
        load_loop offset count (S i) rest chunks
      else if match count with
              | None => false
              | Some c => (c <=? Z.of_nat (length chunks))%Z
              end then
        Return chunks
      else
        do v <- loads l;
        load_loop offset count (S i) rest (chunks ++ [v])
  end.

Definition load_chunks (lines : list any_line) (offset : Z)
    (count : option Z) : result (list pyobj) :=
  load_loop offset count 0 lines [].

(** ** [process_chunks] when a write may fail

    [save_batch] is called inside the [try] blocks of the loop, so an
    exception it raises is caught there: by the handler of the group,
    which then retries the whole group chunk by chunk, or by the handler
    of one chunk, which prints its skip line.  The pending batch is not
    reset on the way, and since the loop updates the dictionaries of
    [chunks] in place and appends them, not copies, a dictionary that is
    embedded again shows its latest vector wherever it is held.  The
    state therefore keeps the dictionaries by position and the pending
    batch as a list of positions.  The disk lists the files written in
    full; what a failed write leaves behind is not described, and
    [os.makedirs] is taken to succeed. *)

(** The disk: whether the [n]-th call of [save_batch] in a run, counting
    from zero, writes its file ([true]) or raises [OSError]. *)
Definition filesystem : Type := nat → bool.

Record state : Type := State {
  store : list chunk;
  processed : nat;
  file_batch : list nat;
  file_batch_num : nat;
  disk : list ((Z * nat) * list chunk);
  saves : nat;
  calls : list (list json);
  stdout : list event
}.

Definition init (chunks : list chunk) : state :=
  State chunks 0 [] 0 [] 0 [] [].

Definition print (e : event) (st : state) : state :=
  State (store st) (processed st) (file_batch st) (file_batch_num st)
        (disk st) (saves st) (calls st) (stdout st ++ [e]).

(** The pending batch as [json.dump] sees it. *)
Definition batch_contents (st : state) : list chunk :=
  omap (λ j, store st !! j) (file_batch st).

(** [save_batch(file_batch, pod_id, file_batch_num, output_dir)]; the
    boolean is [false] when the call raised. *)
Definition save_batch (fs : filesystem) (pod_id : Z) (st : state)
  : state * bool :=
  let written := fs (saves st) in
  (State (store st) (processed st) (file_batch st) (file_batch_num st)
         (if written
          then disk st ++ [((pod_id, file_batch_num st), batch_contents st)]
          else disk st)
         (S (saves st)) (calls st) (stdout st),
   written).

Definition get_embeddings_batch (svc : service) (texts : list json)
    (st : state) : reply * state :=
  (svc (length (calls st)) texts,
   State (store st) (processed st) (file_batch st) (file_batch_num st)
         (disk st) (saves st) (calls st ++ [texts]) (stdout st)).

(** Body shared by the two loops (lines 83-91 and 103-109) for the
    dictionary at position [j]; the boolean is [false] when [save_batch]
    raised, the variables being as the exception left them. *)
Definition embed_chunk (fs : filesystem) (pod_id : Z) (st : state) (j : nat)
    (emb : json) : state * bool :=
  let st :=
    State (alter (λ c, set_embedding c emb) j (store st)) (S (processed st))
          (file_batch st ++ [j]) (file_batch_num st) (disk st) (saves st)
          (calls st) (stdout st) in
  if FILE_BATCH_SIZE <=? length (file_batch st) then
    let '(st, written) := save_batch fs pod_id st in
    if written then
      (State (store st) (processed st) [] (S (file_batch_num st)) (disk st)
             (saves st) (calls st) (stdout st), true)
    else (st, false)
  else (st, true).

(** [except Exception as e2]: the skip line reads [chunk['chunk_id']]. *)
Definition skip_chunk (st : state) (j : nat) : result state :=
  match store st !! j with
  | None => Return st
  | Some c =>
      do id <- getitem c "chunk_id";
      Return (print (SkipChunk id) st)
  end.

(** One iteration of the fallback loop (lines 100-111). *)
Definition retry_chunk (fs : filesystem) (svc : service) (pod_id : Z)
    (st : state) (j : nat) : result state :=
  match store st !! j with
  | None => Return st
  | Some c =>
      match c !! "text" with
      | None => skip_chunk st j
      | Some t =>
          let '(r, st) := get_embeddings_batch svc [t] st in
          match r with
          | Embeddings (emb :: _) =>
              let '(st, written) := embed_chunk fs pod_id st j emb in
              if written then Return st else skip_chunk st j
          | Embeddings [] => skip_chunk st j
          | CallFailed => skip_chunk st j
          end
      end
  end.

(** [for chunk, emb in zip(batch_chunks, embeddings)], the chunks being
    given by their positions; it stops where [save_batch] raises. *)
Fixpoint embed_zip (fs : filesystem) (pod_id : Z) (st : state)
    (positions : list nat) (embeddings : list json) : state * bool :=
  match positions, embeddings with
  | j :: js, emb :: embs =>
      let '(st, written) := embed_chunk fs pod_id st j emb in
      if written then embed_zip fs pod_id st js embs else (st, false)
  | _, _ => (st, true)
  end.

(** One iteration of the main loop (lines 76-111). *)
Definition process_batch (fs : filesystem) (svc : service) (pod_id : Z)
    (st : state) (i : nat) : result state :=
  let total := length (store st) in
  let batch_chunks := take EMBED_BATCH_SIZE (drop i (store st)) in
  let positions := seq i (length batch_chunks) in
  do texts <- texts_of batch_chunks;
  let '(r, st) := get_embeddings_batch svc texts st in
  let fallback st :=
    for_each (retry_chunk fs svc pod_id) (print (ErrorAtBatch i) st)
      positions in
  match r with
  | Embeddings embeddings =>
      let '(st, written) := embed_zip fs pod_id st positions embeddings in
      if written then
        Return (print (PodProgress (processed st) total (file_batch_num st))
                  st)
      else fallback st
  | CallFailed => fallback st
  end.

(** Lines 113-118: the last save is outside every [try]; then the
    summary. *)
Definition finish (fs : filesystem) (pod_id : Z) (st : state)
  : result state :=
  match file_batch st with
  | [] => Return (print (Done (processed st) (file_batch_num st)) st)
  | _ :: _ =>
      let '(st, written) := save_batch fs pod_id st in
      if written then
        Return (print (Done (processed st) (S (file_batch_num st)))
                  (State (store st) (processed st) (file_batch st)
                         (S (file_batch_num st)) (disk st) (saves st)
                         (calls st) (stdout st)))
      else Raise OSError
  end.

Definition process_chunks (fs : filesystem) (svc : service)
    (chunks : list chunk) (pod_id : Z) : result state :=
  let total := length chunks in
  do st <- for_each (process_batch fs svc pod_id) (init chunks)
             (range_step total EMBED_BATCH_SIZE);
  finish fs pod_id st.

End EmbedChunksFull.

Module EmbedChunksV2Full.

(** [load_indexable_chunks] of [embed_chunks_v2.py] (lines 39-62):
    [chunk.get] follows [json.loads] at once, and only a dictionary has
    it. *)
Fixpoint load_loop (offset : Z) (count : option Z) (lines : list any_line)
    (chunks : list chunk) (skipped : nat) : result (list chunk * nat) :=
  match lines with
  | [] => Return (chunks, skipped)
  | l :: rest =>
      do v <- loads l;
      match v with
      | NotDict _ => Raise AttributeError
      | Dict c =>
          if negb (is_indexable c) then
            load_loop offset count rest chunks (S skipped)
          else if (Z.of_nat (length chunks + skipped) <? offset)%Z then
            load_loop offset count rest chunks skipped
          else if count_reached count chunks then
            Return (chunks, skipped)
          else
            load_loop offset count rest (chunks ++ [c]) skipped
      end
  end.

Definition load_indexable_chunks (lines : list any_line) (offset : Z)
    (count : option Z) : result (list chunk * nat) :=
  load_loop offset count lines [] 0.

(** [count_chunks] of [embed_chunks_v2.py] (lines 65-75). *)
Fixpoint count_loop (lines : list any_line) (total indexable : nat)
  : result (nat * nat) :=
  match lines with
  | [] => Return (total, indexable)
  | l :: rest =>
      do v <- loads l;
      match v with
      | NotDict _ => Raise AttributeError
      | Dict c =>
          count_loop rest (S total)
            (if is_indexable c then S indexable else indexable)
      end
  end.

Definition count_chunks (lines : list any_line) : result (nat * nat) :=
  count_loop lines 0 0.

(** [main] of [embed_chunks_v2.py] (lines 142-187) on such a store. *)
Definition main (svc : service) (lines : list any_line) (pod_id offset : Z)
    (count : option Z) (stats : bool) : EmbedChunksV2.ending :=
  match count_chunks lines with
  | Raise e => EmbedChunksV2.Uncaught e
  | Return (total_chunks, indexable_chunks) =>
      if total_chunks =? 0 then EmbedChunksV2.ZeroDivisionError
      else if stats then
        EmbedChunksV2.Stats
          ((λ n_pods, (n_pods, indexable_chunks / n_pods)) <$> [2; 3; 4])
      else
        match load_indexable_chunks lines offset count with
        | Raise e => EmbedChunksV2.Uncaught e
        | Return ([], skipped) => EmbedChunksV2.NoChunks skipped
        | Return (chunks, skipped) =>
            match EmbedChunksV2.process_chunks svc chunks pod_id with
            | Raise e => EmbedChunksV2.Uncaught e
            | Return st => EmbedChunksV2.Processed skipped st
            end
        end
  end.

End EmbedChunksV2Full.

Module EmbedViaHttpFull.

(** [load_indexable_chunks] of [embed_via_http.py] (lines 32-43). *)
Fixpoint load_loop (lines : list any_line) (chunks : list chunk)
    (skipped : nat) : result (list chunk * nat) :=
  match lines with
  | [] => Return (chunks, skipped)
  | l :: rest =>
      do v <- loads l;
      match v with
      | NotDict _ => Raise AttributeError
      | Dict c =>
          if is_indexable c then load_loop rest (chunks ++ [c]) skipped
          else load_loop rest chunks (S skipped)
      end
  end.

Definition load_indexable_chunks (lines : list any_line)
  : result (list chunk * nat) :=
  load_loop lines [] 0.

End EmbedViaHttpFull.

(** ** Vocabulary of the statements *)

(** The filtered load in the words of the specification: keep the records
    whose usable flag is true (absent counts as true), then cut the window
    of [count] records starting at position [offset] of that filtered
    sequence; a null count runs to the end. *)
Definition spec_filtered_load (records : list chunk) (offset : nat)
    (count : option nat) : list chunk :=
  let usable := filter (λ c, is_indexable c = true) records in
  match count with
  | None => drop offset usable
  | Some n => take n (drop offset usable)
  end.

(** What a loading loop that already holds [have] chunks may still take
    from [l] before the test [len(chunks) >= count] stops it; a null count
    never stops it, a count below one admits nothing. *)
Definition take_count {A} (count : option Z) (have : nat) (l : list A)
  : list A :=
  match count with
  | None => l
  | Some n => take (Z.to_nat n - have) l
  end.

(** A record with the two mandatory fields of the input format. *)
Definition sample_chunk (id text : string) : chunk :=
  {[ "chunk_id" := JStr id; "text" := JStr text ]}.

(** The same record, flagged as not usable. *)
Definition sample_unusable (id text : string) : chunk :=
  <["is_indexable" := JBool false]> (sample_chunk id text).

(** A vector, and an endpoint that answers every call with that vector for
    each text. *)
Definition sample_vector : json := JArr [JNum (1 # 2); JNum (3 # 4)].
Definition sample_service : service :=
  λ _ texts, Embeddings ((λ _, sample_vector) <$> texts).

(** An endpoint that is down: every call raises. *)
Definition failing_service : service := λ _ _, CallFailed.

(** An endpoint that answers the first call with a single vector, whatever
    the number of texts. *)
Definition short_service : service :=
  λ n _, if n =? 0 then Embeddings [sample_vector] else CallFailed.

(** An endpoint whose first call fails and which then answers like
    [sample_service]. *)
Definition retry_service : service :=
  λ n texts,
    if n =? 0 then CallFailed else Embeddings ((λ _, sample_vector) <$> texts).

(** The input format: every record carries a text and an identifier. *)
Definition well_formed (c : chunk) : Prop :=
  is_Some (c !! "text") ∧ is_Some (c !! "chunk_id").

(** A vector that the endpoint returned in some successful call. *)
Definition returned_by (svc : service) (emb : json) : Prop :=
  ∃ n texts embeddings,
    svc n texts = Embeddings embeddings ∧ emb ∈ embeddings.

(** Every call succeeds, with one vector per submitted text. *)
Definition always_succeeds (svc : service) : Prop :=
  ∀ n texts, ∃ embeddings,
    svc n texts = Embeddings embeddings ∧ length embeddings = length texts.

(** A call that yields no vector for a single text: it raised, or its
    list is empty and [[0]] raises. *)
Definition no_vector (r : reply) : Prop :=
  r = CallFailed ∨ r = Embeddings [].

Module PodView.
Import EmbedChunks.

(** Every chunk handed to the output so far: the files written, in
    order, then the pending file batch. *)
Definition emitted (st : state) : list chunk :=
  concat (snd <$> disk st) ++ file_batch st.

(** What a run leaves behind, apart from the requests and the log. *)
Definition output (st : state)
  : nat * list chunk * nat * list ((Z * nat) * list chunk) :=
  (processed st, file_batch st, file_batch_num st, disk st).

(** Loop invariant of [process_chunks]. *)
Record inv (pod_id : Z) (st : state) : Prop := Inv {
  inv_pending : length (file_batch st) < FILE_BATCH_SIZE;
  inv_full : Forall (λ f, length f.2 = FILE_BATCH_SIZE) (disk st);
  inv_names : fst <$> disk st = (λ k, (pod_id, k)) <$> seq 0 (file_batch_num st);
  inv_processed : processed st = length (emitted st)
}.
End PodView.

Module HttpView.
Import EmbedViaHttp.

Definition emitted (st : state) : list chunk :=
  concat (snd <$> disk st) ++ file_batch st.

Definition output (st : state)
  : nat * list chunk * nat * list (nat * list chunk) :=
  (processed st, file_batch st, file_batch_num st, disk st).
End HttpView.

(** [out] is [c] with the field [embedding] set to [emb] and nothing else
    touched. *)
Definition adds_only_embedding (c : chunk) (emb : json) (out : chunk) : Prop :=
  out !! "embedding" = Some emb
  ∧ (∀ k, k ≠ "embedding" → out !! k = c !! k)
  ∧ dom out = {["embedding"]} ∪ dom c.

(** [out] is a record of the input enriched with a returned vector. *)
Definition enriched_from (svc : service) (chunks : list chunk) (out : chunk)
  : Prop :=
  ∃ c emb, c ∈ chunks ∧ returned_by svc emb ∧ out = set_embedding c emb.

(** Identifiers named by the skip lines of a log, in order. *)
Definition skip_lines (out : list event) : list json :=
  omap (λ e, match e with SkipChunk id => Some id | _ => None end) out.

(** The failed counter of [embed_via_http.py] counts the skip lines. *)
Definition counted (st : EmbedViaHttp.state) : Prop :=
  EmbedViaHttp.failed st = length (skip_lines (EmbedViaHttp.stdout st)).

(** The lines printed inside the main loop, as opposed to the summary. *)
Definition loop_event (e : event) : Prop :=
  match e with
  | PodProgress _ _ _ | HttpProgress _ _ | ErrorAtBatch _ | SkipChunk _ => True
  | Done _ _ | Warning _ => False
  end.

(** Two states of [embed_chunks.py] with the same counters, pending batch
    and files and the same skip lines, the second having sent [d] more
    requests than the first, which has sent at least [L]. *)
Definition related (d L : nat) (st1 st2 : EmbedChunks.state) : Prop :=
  PodView.output st1 = PodView.output st2
  ∧ skip_lines (EmbedChunks.stdout st1) = skip_lines (EmbedChunks.stdout st2)
  ∧ length (EmbedChunks.calls st2) = length (EmbedChunks.calls st1) + d
  ∧ L ≤ length (EmbedChunks.calls st1).

(** The two processors side by side: same counters, same pending batch,
    same requests, and the same files up to the pod id in their names. *)
Definition same_run (pod_id : Z) (sp : EmbedChunks.state)
    (sh : EmbedViaHttp.state) : Prop :=
  EmbedChunks.processed sp = EmbedViaHttp.processed sh
  ∧ EmbedChunks.file_batch sp = EmbedViaHttp.file_batch sh
  ∧ EmbedChunks.file_batch_num sp = EmbedViaHttp.file_batch_num sh
  ∧ EmbedChunks.disk sp
    = (λ f : nat * list chunk, ((pod_id, f.1), f.2)) <$> EmbedViaHttp.disk sh
  ∧ EmbedChunks.calls sp = EmbedViaHttp.calls sh
  ∧ skip_lines (EmbedChunks.stdout sp) = skip_lines (EmbedViaHttp.stdout sh).

Definition result_rel {A B} (R : A → B → Prop) (x : result A) (y : result B)
  : Prop :=
  match x, y with
  | Return a, Return b => R a b
  | Raise e, Raise e' => e = e'
  | _, _ => False
  end.

(** ** Vocabulary of the further properties *)

(** [json.loads] on each line in turn; the first line that is not JSON
    raises. *)
Fixpoint parse_all (lines : list line) : result (list chunk) :=
  match lines with
  | [] => Return []
  | l :: rest =>
      do c <- json_loads l;
      do cs <- parse_all rest;
      Return (c :: cs)
  end.

(** The records flagged as not usable. *)
Definition unusable (records : list chunk) : list chunk :=
  filter (λ c, is_indexable c = false) records.

(** The records that follow the [k]-th record flagged as not usable (all
    of them when [k] is zero). *)
Fixpoint after_unusable (k : nat) (records : list chunk) : list chunk :=
  match k, records with
  | 0, _ => records
  | S _, [] => []
  | S k', r :: rest =>
      if is_indexable r then after_unusable k rest
      else after_unusable k' rest
  end.

(** Every request sent so far carries between one and
    [EMBED_BATCH_SIZE] texts. *)
Definition requests_bounded (calls : list (list json)) : Prop :=
  Forall (λ texts : list json, 1 ≤ length texts ≤ EMBED_BATCH_SIZE) calls.

(** A successful call returns at least one vector per submitted text. *)
Definition aligned (svc : service) : Prop :=
  ∀ n texts embeddings,
    svc n texts = Embeddings embeddings → length texts ≤ length embeddings.

(** [outs] are, in order, the records of a subsequence of [inputs], each
    with a vector attached: nothing out of order, nothing twice. *)
Definition enriched_sublist (inputs outs : list chunk) : Prop :=
  ∃ sel : list (chunk * json),
    (fst <$> sel) `sublist_of` inputs
    ∧ outs = (λ p : chunk * json, set_embedding p.1 p.2) <$> sel.

(** The only ways a run can abort: a record without [text], met when the
    texts of its group are collected, or a record without [chunk_id], met
    when its skip line is printed. *)
Definition missing_field (chunks : list chunk) (e : exn) : Prop :=
  (e = KeyError "text" ∧ ∃ c, c ∈ chunks ∧ c !! "text" = None)
  ∨ (e = KeyError "chunk_id" ∧ ∃ c, c ∈ chunks ∧ c !! "chunk_id" = None).

(** What the fallback loop obtains for one text from the call numbered
    [n]: the first vector of the reply, if the call returns one. *)
Definition single_reply (svc : service) (n : nat) (t : json) : option json :=
  match svc n [t] with
  | Embeddings (emb :: _) => Some emb
  | Embeddings [] | CallFailed => None
  end.







(** The chunks that a run of [main] of [embed_chunks.py] leaves in its
    files, in the order written. *)
Definition pod_written (o : EmbedChunks.outcome) : list chunk :=
  match o with
  | EmbedChunks.Processed st => concat (snd <$> EmbedChunks.disk st)
  | EmbedChunks.Stats _ | EmbedChunks.NoChunks => []
  end.

(** The names under which it writes them. *)
Definition pod_files (o : EmbedChunks.outcome) : list (Z * nat) :=
  match o with
  | EmbedChunks.Processed st => fst <$> EmbedChunks.disk st
  | EmbedChunks.Stats _ | EmbedChunks.NoChunks => []
  end.

(** [n] pods started on the same store as the plan of [--stats] says: pod
    [p] with [--pod-id p] and the offset and count of its window, each
    with an endpoint of its own. *)
Definition pod_runs (svcs : nat → service) (lines : list line) (n : nat)
  : list (result EmbedChunks.outcome) :=
  (λ p,
     let w := EmbedChunks.pod_window (EmbedChunks.count_chunks lines) n p in
     EmbedChunks.main (svcs p) lines (Z.of_nat p) (Z.of_nat w.1)
       (Some (Z.of_nat w.2)) false) <$> seq 0 n.


(** The character [a] occurs in [s]. *)
Fixpoint occurs (a : ascii) (s : string) : Prop :=
  match s with
  | EmptyString => False
  | String b s' => a = b ∨ occurs a s'
  end.




(** ** Vocabulary for stores of any kind *)

(** A line of the stores read by the modules of the first part, as a line
    of a store of any kind. *)
Definition lift (l : line) : any_line :=
  match l with
  | Garbled raw => Unparsable raw
  | Record c => Object c
  end.

Definition is_object (l : any_line) : bool :=
  match l with Object _ => true | Unparsable _ | Other _ => false end.

(** The exception a loader that calls [chunk.get] raises on a line that
    holds no JSON object: a parse error when the line is not JSON, an
    attribute error when it holds another JSON value. *)
Definition error_of (l : any_line) : exn :=
  match l with
  | Unparsable _ => JSONDecodeError
  | Object _ | Other _ => AttributeError
  end.

(** [json.loads] on each line in turn, keeping whatever it yields; the
    first line that is not JSON raises. *)
Fixpoint values_all (lines : list any_line) : result (list pyobj) :=
  match lines with
  | [] => Return []
  | l :: rest =>
      do v <- loads l;
      do vs <- values_all rest;
      Return (v :: vs)
  end.

(** The same for a reader that needs dictionaries: the first line that
    holds no JSON object raises [error_of] that line. *)
Fixpoint dicts_all (lines : list any_line) : result (list chunk) :=
  match lines with
  | [] => Return []
  | Object c :: rest =>
      do cs <- dicts_all rest;
      Return (c :: cs)
  | l :: _ => Raise (error_of l)
  end.


(** ** Vocabulary for runs whose writes may fail *)

(** Every call of [save_batch] writes its file. *)
Definition writes_succeed (fs : EmbedChunksFull.filesystem) : Prop :=
  ∀ n, fs n = true.


(** A state of a run with a disk and a state of the run of the first part
    show the same: the same counters, the same dictionaries pending, the
    same files, the same requests and the same lines printed. *)
Definition agrees (g : EmbedChunksFull.state) (s : EmbedChunks.state)
  : Prop :=
  EmbedChunksFull.processed g = EmbedChunks.processed s
  ∧ Forall2 (λ j c, EmbedChunksFull.store g !! j = Some c)
      (EmbedChunksFull.file_batch g) (EmbedChunks.file_batch s)
  ∧ EmbedChunksFull.file_batch_num g = EmbedChunks.file_batch_num s
  ∧ EmbedChunksFull.disk g = EmbedChunks.disk s
  ∧ EmbedChunksFull.calls g = EmbedChunks.calls s
  ∧ EmbedChunksFull.stdout g = EmbedChunks.stdout s.

(** The dictionaries from position [j] on are still as given, and the
    pending batch holds earlier ones only. *)
Definition untouched_from (chunks : list chunk) (j : nat)
    (g : EmbedChunksFull.state) : Prop :=
  length (EmbedChunksFull.store g) = length chunks
  ∧ (∀ k, j ≤ k → EmbedChunksFull.store g !! k = chunks !! k)
  ∧ Forall (λ k, k < j) (EmbedChunksFull.file_batch g).


(** ** What a run does, chunk by chunk

    A reference description of [process_chunks], by the fate of each
    chunk, against which the loop is compared. *)

(** What becomes of a chunk: it is handed to the output with a vector; or
    it is left out without a trace, the reply to its group having run out
    of vectors before its turn; or it is left out with a skip line, the
    call for its group having failed and its own call having given no
    vector. *)
Inductive fate : Type :=
| Embedded (emb : json)
| Dropped
| Skipped.

(** A group whose call returned [embeddings]: [zip] pairs texts and
    vectors position by position, as far as both last. *)
Fixpoint zip_fates (texts embeddings : list json) : list fate :=
  match texts, embeddings with
  | [], _ => []
  | _ :: ts, [] => Dropped :: zip_fates ts []
  | _ :: ts, emb :: embs => Embedded emb :: zip_fates ts embs
  end.

(** A group whose call failed: one call per text, the first of them
    being call number [n]. *)
Fixpoint retry_fates (svc : service) (n : nat) (texts : list json)
  : list fate :=
  match texts with
  | [] => []
  | t :: ts =>
      match single_reply svc n t with
      | Some emb => Embedded emb
      | None => Skipped
      end :: retry_fates svc (S n) ts
  end.

(** The fates in a group whose call is call number [n]. *)
Definition group_fates (svc : service) (n : nat) (texts : list json)
  : list fate :=
  match svc n texts with
  | Embeddings embeddings => zip_fates texts embeddings
  | CallFailed => retry_fates svc (S n) texts
  end.

(** The requests of that group: its own and, when it fails, one per
    text. *)
Definition group_requests (svc : service) (n : nat) (texts : list json)
  : list (list json) :=
  texts :: match svc n texts with
           | Embeddings _ => []
           | CallFailed => (λ t, [t]) <$> texts
           end.

(** Groups in turn, each with the number of its call, the call of the
    first being number [n]. *)
Fixpoint numbered (svc : service) (n : nat) (groups : list (list json))
  : list (nat * list json) :=
  match groups with
  | [] => []
  | texts :: rest =>
      (n, texts)
        :: numbered svc (n + length (group_requests svc n texts)) rest
  end.

(** The texts of a run, cut into groups of [EMBED_BATCH_SIZE]. *)
Definition groups_of (texts : list json) : list (list json) :=
  (λ k, take EMBED_BATCH_SIZE (drop (k * EMBED_BATCH_SIZE) texts))
    <$> seq 0 ((length texts + EMBED_BATCH_SIZE - 1) / EMBED_BATCH_SIZE).

(** The groups of a run on [texts], each with the number of its call. *)
Definition run_groups (svc : service) (texts : list json)
  : list (nat * list json) :=
  numbered svc 0 (groups_of texts).

(** The fate of every chunk of a run, by position. *)
Definition fates (svc : service) (texts : list json) : list fate :=
  concat ((λ g : nat * list json, group_fates svc g.1 g.2)
            <$> run_groups svc texts).

(** The requests of a run, in order. *)
Definition requests (svc : service) (texts : list json) : list (list json) :=
  concat ((λ g : nat * list json, group_requests svc g.1 g.2)
            <$> run_groups svc texts).

(** The positions with fate [Embedded], each with its vector, from
    position [start] on; and the positions with fate [Skipped]. *)
Fixpoint embedded_from (start : nat) (fs : list fate) : list (nat * json) :=
  match fs with
  | [] => []
  | Embedded emb :: rest => (start, emb) :: embedded_from (S start) rest
  | _ :: rest => embedded_from (S start) rest
  end.

Fixpoint skipped_from (start : nat) (fs : list fate) : list nat :=
  match fs with
  | [] => []
  | Skipped :: rest => start :: skipped_from (S start) rest
  | _ :: rest => skipped_from (S start) rest
  end.

Definition embedded_at (fs : list fate) : list (nat * json) :=
  embedded_from 0 fs.

Definition skipped_at (fs : list fate) : list nat := skipped_from 0 fs.

(** [outs] are, in order, the chunks at the positions listed in [sel],
    each with the field [embedding] set to the vector listed with its
    position and with nothing else touched. *)
Definition written_from (chunks : list chunk) (sel : list (nat * json))
    (outs : list chunk) : Prop :=
  Forall2 (λ (p : nat * json) out,
             ∃ c, chunks !! p.1 = Some c ∧ adds_only_embedding c p.2 out)
    sel outs.

(** [ids] are, in order, the identifiers of the chunks at [positions]. *)
Definition names_of (chunks : list chunk) (positions : list nat)
    (ids : list json) : Prop :=
  Forall2 (λ j id, ∃ c, chunks !! j = Some c ∧ c !! "chunk_id" = Some id)
    positions ids.

(** The chunks of [batch] whose fate is [Embedded], enriched; and those
    whose fate is [Skipped]. *)
Fixpoint outputs (batch : list chunk) (fs : list fate) : list chunk :=
  match batch, fs with
  | c :: cs, Embedded emb :: rest => set_embedding c emb :: outputs cs rest
  | _ :: cs, _ :: rest => outputs cs rest
  | _, _ => []
  end.

Fixpoint skipped_chunks (batch : list chunk) (fs : list fate) : list chunk :=
  match batch, fs with
  | c :: cs, Skipped :: rest => c :: skipped_chunks cs rest
  | _ :: cs, _ :: rest => skipped_chunks cs rest
  | _, _ => []
  end.

(** What a run of [embed_chunks.py] that ends leaves behind, in terms of
    the fates: the requests sent, the chunks written, the processed
    counter and the skip lines. *)
Definition pod_run_is (svc : service) (chunks : list chunk)
    (texts : list json) (sp : EmbedChunks.state) : Prop :=
  EmbedChunks.calls sp = requests svc texts
  ∧ written_from chunks (embedded_at (fates svc texts))
      (concat (snd <$> EmbedChunks.disk sp))
  ∧ EmbedChunks.processed sp = length (embedded_at (fates svc texts))
  ∧ names_of chunks (skipped_at (fates svc texts))
      (skip_lines (EmbedChunks.stdout sp)).

(** The same for [embed_via_http.py], with its failed counter. *)
Definition http_run_is (svc : service) (chunks : list chunk)
    (texts : list json) (sh : EmbedViaHttp.state) : Prop :=
  EmbedViaHttp.calls sh = requests svc texts
  ∧ written_from chunks (embedded_at (fates svc texts))
      (concat (snd <$> EmbedViaHttp.disk sh))
  ∧ EmbedViaHttp.processed sh = length (embedded_at (fates svc texts))
  ∧ names_of chunks (skipped_at (fates svc texts))
      (skip_lines (EmbedViaHttp.stdout sh))
  ∧ EmbedViaHttp.failed sh = length (skipped_at (fates svc texts)).


(** The vector that a run on [texts] obtains for the chunk at position
    [j].  That chunk is number [p] of group [g], whose call is call number
    [n]; when that call returns a list, the vector is number [p] of the
    list; when it fails, the vector is the first of the list returned by
    the chunk's own call, which is call number [S n + p]. *)
Definition vector_for (svc : service) (texts : list json) (j : nat)
    (emb : json) : Prop :=
  ∃ g p n tg t,
    j = g * EMBED_BATCH_SIZE + p
    ∧ run_groups svc texts !! g = Some (n, tg)
    ∧ tg !! p = Some t
    ∧ match svc n tg with
      | Embeddings embeddings => embeddings !! p = Some emb
      | CallFailed => ∃ rest, svc (S n + p) [t] = Embeddings (emb :: rest)
      end.

(** A record of the input that already carries a field [embedding]. *)
Definition embedded_chunk (id text : string) (old : json) : chunk :=
  <["embedding" := old]> (sample_chunk id text).


(** [out] is the chunk of the input at position [e.1] with the vector
    [e.2], which is the vector the run obtained for that chunk: the field
    [embedding] holds the vector, every other field is as in the input,
    and the fields are those of the input and [embedding]; that is one
    field more than the input has when the input has no field
    [embedding], and the same fields when it has one. *)
Definition enriched_at (svc : service) (chunks : list chunk)
    (texts : list json) (e : nat * json) (out : chunk) : Prop :=
  ∃ c, chunks !! e.1 = Some c
       ∧ vector_for svc texts e.1 e.2
       ∧ out !! "embedding" = Some e.2
       ∧ (∀ k, k ≠ "embedding" → out !! k = c !! k)
       ∧ dom out = {["embedding"]} ∪ dom c
       ∧ (c !! "embedding" = None → size (dom out) = S (size (dom c)))
       ∧ (is_Some (c !! "embedding") → dom out = dom c).


(** * Properties *)

(** ** Partition plan *)

Section Plan.
Import EmbedChunks.

Lemma plan_length total n : length (plan total n) = n.
Proof. unfold plan. by rewrite length_fmap, length_seq. Qed.

Lemma plan_lookup total n p :
  p < n → plan total n !! p = Some (pod_window total n p).
Proof.
  intros Hp. unfold plan. rewrite list_lookup_fmap.
  rewrite (lookup_seq_lt 0 n p Hp). reflexivity.
Qed.

Lemma per_pod_bound total n p :
  1 ≤ n → p ≤ n - 1 → p * (total / n) ≤ total.
Proof.
  intros Hn Hp.
  pose proof (Nat.Div0.mul_div_le total n) as Hle.
  assert (p * (total / n) ≤ n * (total / n)) by (apply Nat.mul_le_mono_r; lia).
  lia.
Qed.

(** Positions covered by the first [k] equal windows. *)
Lemma equal_windows_cover total n k :
  k ≤ n - 1 →
  concat ((λ w : nat * nat, seq w.1 w.2) <$> (pod_window total n <$> seq 0 k))
  = seq 0 (k * (total / n)).
Proof.
  induction k as [|k IH]; intros Hk; [reflexivity|].
  rewrite seq_S, !fmap_app, concat_app, IH by lia. cbn [fmap list_fmap concat].
  unfold pod_window. cbn [fst snd]. rewrite Nat.add_0_l.
  replace (k <? n - 1) with true by (symmetry; apply Nat.ltb_lt; lia).
  rewrite app_nil_r, <- seq_app. f_equal. lia.
Qed.

Lemma plan_last total n :
  1 ≤ n →
  plan total n !! (n - 1)
  = Some ((n - 1) * (total / n), total - (total / n) * (n - 1)).
Proof.
  intros Hn. rewrite plan_lookup by lia. unfold pod_window.
  rewrite Nat.ltb_irrefl. do 2 f_equal. lia.
Qed.

Lemma plan_covers total n :
  1 ≤ n →
  concat ((λ w : nat * nat, seq w.1 w.2) <$> plan total n) = seq 0 total.
Proof.
  intros Hn. unfold plan.
  replace n with (S (n - 1)) at 2 by lia.
  rewrite seq_S, !fmap_app, concat_app, equal_windows_cover by lia.
  cbn [fmap list_fmap concat]. unfold pod_window. cbn [fst snd].
  rewrite Nat.add_0_l, Nat.ltb_irrefl, app_nil_r, <- seq_app.
  pose proof (per_pod_bound total n (n - 1) Hn (Nat.le_refl _)).
  f_equal. lia.
Qed.

End Plan.

(** C2. For every total and every number of workers [n >= 1], the plan has
    one window per worker; worker [p] among the first [n - 1] gets offset
    [p * (total // n)] and count [total // n]; the last worker gets
    [total - (total // n) * (n - 1)] (a subtraction that never goes below
    zero); each window starts where the previous one ends; and laying the
    windows end to end enumerates the positions [0 .. total - 1] exactly
    once, in order. *)
Theorem plan_partitions_input (total n : nat) :
  1 ≤ n →
  let per_pod := total / n in
  let windows := EmbedChunks.plan total n in
  length windows = n
  ∧ (∀ p, p < n - 1 → windows !! p = Some (p * per_pod, per_pod))
  ∧ windows !! (n - 1) = Some ((n - 1) * per_pod, total - per_pod * (n - 1))
  ∧ per_pod * (n - 1) ≤ total
  ∧ (∀ p o c o' c',
        windows !! p = Some (o, c) → windows !! S p = Some (o', c') →
        o' = o + c)
  ∧ concat ((λ w : nat * nat, seq w.1 w.2) <$> windows) = seq 0 total.
Proof.
  intros Hn per_pod windows. subst windows.
  split; [apply plan_length|].
  split.
  { intros p Hp. rewrite plan_lookup by lia. unfold EmbedChunks.pod_window.
    replace (p <? n - 1) with true by (symmetry; apply Nat.ltb_lt; lia).
    reflexivity. }
  split; [by apply plan_last|].
  split.
  { pose proof (per_pod_bound total n (n - 1) Hn (Nat.le_refl _)).
    subst per_pod. lia. }
  split; [|by apply plan_covers].
  intros p o c o' c' H1 H2.
  assert (S p < n) as Hlt.
  { apply lookup_lt_Some in H2. by rewrite plan_length in H2. }
  rewrite plan_lookup in H1 by lia. rewrite plan_lookup in H2 by lia.
  unfold EmbedChunks.pod_window in H1, H2.
  replace (p <? n - 1) with true in H1 by (symmetry; apply Nat.ltb_lt; lia).
  inversion H1; inversion H2; subst. lia.
Qed.

Lemma plan_partitions_input_witness :
  EmbedChunks.plan 10 3 = [(0, 3); (3, 3); (6, 4)]
  ∧ concat ((λ w : nat * nat, seq w.1 w.2) <$> EmbedChunks.plan 10 3)
    = seq 0 10.
Proof.
  split; [reflexivity|].
  apply (plan_partitions_input 10 3). lia.
Defined.

(** ** Chunk source *)

Section Load.

Lemma count_reached_spec count (chunks : list chunk) :
  count_reached count chunks = true →
  ∃ n, count = Some n ∧ (n ≤ Z.of_nat (length chunks))%Z.
Proof.
  destruct count as [n|]; simpl; [|done].
  intros H. exists n. split; [done|]. by apply Z.leb_le.
Qed.

(** [embed_chunks_v2.py]: a store with a line that is not JSON makes the
    loop raise, unless it breaks on the count limit first. *)
Lemma v2_load_loop_garbled offset count lines chunks skipped :
  Exists (λ l, is_garbled l = true) lines →
  EmbedChunksV2.load_loop offset count lines chunks skipped
    = Raise JSONDecodeError
  ∨ ∃ n chunks' skipped',
      count = Some n
      ∧ EmbedChunksV2.load_loop offset count lines chunks skipped
        = Return (chunks', skipped')
      ∧ (n ≤ Z.of_nat (length chunks'))%Z.
Proof.
  revert chunks skipped.
  induction lines as [|l rest IH]; intros chunks skipped Hex.
  { by apply Exists_nil in Hex. }
  destruct l as [raw|c]; [by left|].
  apply Exists_cons in Hex as [Hex|Hex]; [done|].
  cbn [EmbedChunksV2.load_loop json_loads result_bind].
  destruct (negb (is_indexable c)); [by apply IH|].
  destruct (Z.of_nat (length chunks + skipped) <? offset)%Z; [by apply IH|].
  destruct (count_reached count chunks) eqn:Hc; [|by apply IH].
  right. apply count_reached_spec in Hc as (n & -> & Hn). by exists n, chunks, skipped.
Qed.

(** [embed_chunks.py]: lines before the offset are not parsed. *)
Lemma v1_load_loop_garbled offset count i lines chunks :
  (∃ j l, lines !! j = Some l ∧ is_garbled l = true
          ∧ (offset ≤ Z.of_nat (i + j))%Z) →
  EmbedChunks.load_loop offset count i lines chunks = Raise JSONDecodeError
  ∨ ∃ n chunks',
      count = Some n
      ∧ EmbedChunks.load_loop offset count i lines chunks = Return chunks'
      ∧ (n ≤ Z.of_nat (length chunks'))%Z.
Proof.
  revert i chunks.
  induction lines as [|l rest IH]; intros i chunks (j & l' & Hj & Hg & Hoff).
  { done. }
  cbn [EmbedChunks.load_loop].
  assert (j ≠ 0 → ∃ j' l0, rest !! j' = Some l0 ∧ is_garbled l0 = true
                   ∧ (offset ≤ Z.of_nat (S i + j'))%Z) as Hrest.
  { intros Hne. destruct j as [|j]; [done|]. exists j, l'.
    split; [done|]. split; [done|]. lia. }
  destruct (Z.of_nat i <? offset)%Z eqn:Hlt.
  { apply IH, Hrest. intros ->. apply Z.ltb_lt in Hlt. lia. }
  destruct (count_reached count chunks) eqn:Hc.
  { right. apply count_reached_spec in Hc as (n & -> & Hn). by exists n, chunks. }
  destruct j as [|j].
  { simpl in Hj. inversion Hj; subst l'. destruct l; [by left|done]. }
  destruct l as [raw|c]; [by left|].
  cbn [json_loads result_bind]. by apply IH, Hrest.
Qed.

(** [embed_via_http.py]: no window, every line is parsed. *)
Lemma http_load_loop_garbled lines chunks skipped :
  Exists (λ l, is_garbled l = true) lines →
  EmbedViaHttp.load_loop lines chunks skipped = Raise JSONDecodeError.
Proof.
  revert chunks skipped.
  induction lines as [|l rest IH]; intros chunks skipped Hex.
  { by apply Exists_nil in Hex. }
  destruct l as [raw|c]; [done|].
  apply Exists_cons in Hex as [Hex|Hex]; [done|].
  cbn [EmbedViaHttp.load_loop json_loads result_bind].
  destruct (is_indexable c); by apply IH.
Qed.

End Load.

(** ** The loaders on stores of any kind *)

Section LoadAny.

Lemma full_load_loop_agrees offset count i lines chunks :
  EmbedChunksFull.load_loop offset count i (lift <$> lines) (Dict <$> chunks)
  = do cs <- EmbedChunks.load_loop offset count i lines chunks;
    Return (Dict <$> cs).
Proof.
  revert i chunks. induction lines as [|l lines IH]; intros i chunks.
  { reflexivity. }
  cbn [fmap list_fmap EmbedChunksFull.load_loop EmbedChunks.load_loop].
  destruct (Z.of_nat i <? offset)%Z; [apply IH|].
  rewrite length_fmap. unfold count_reached.
  destruct (match count with
            | Some c => (c <=? Z.of_nat (length chunks))%Z
            | None => false
            end); [reflexivity|].
  destruct l as [raw|c]; [reflexivity|].
  cbn [lift loads json_loads result_bind].
  specialize (IH (S i) (chunks ++ [c])). by rewrite fmap_app in IH.
Qed.

(** On the stores of the first part the loaders of this part are the
    loaders of the first part. *)
Lemma full_load_chunks_agrees lines offset count :
  EmbedChunksFull.load_chunks (lift <$> lines) offset count
  = do cs <- EmbedChunks.load_chunks lines offset count;
    Return (Dict <$> cs).
Proof. apply (full_load_loop_agrees offset count 0 lines []). Qed.

Lemma full_v2_load_agrees lines offset count :
  EmbedChunksV2Full.load_indexable_chunks (lift <$> lines) offset count
  = EmbedChunksV2.load_indexable_chunks lines offset count.
Proof.
  unfold EmbedChunksV2Full.load_indexable_chunks,
    EmbedChunksV2.load_indexable_chunks.
  generalize (@nil chunk) 0.
  induction lines as [|[raw|c] lines IH]; intros chunks skipped;
    [reflexivity|reflexivity|].
  cbn [fmap list_fmap lift loads json_loads result_bind
       EmbedChunksV2Full.load_loop EmbedChunksV2.load_loop].
  by rewrite !IH.
Qed.

Lemma full_v2_count_agrees lines :
  EmbedChunksV2Full.count_chunks (lift <$> lines)
  = EmbedChunksV2.count_chunks lines.
Proof.
  unfold EmbedChunksV2Full.count_chunks, EmbedChunksV2.count_chunks.
  generalize 0 at 2 4. generalize 0.
  induction lines as [|[raw|c] lines IH]; intros total indexable;
    [reflexivity|reflexivity|].
  cbn [fmap list_fmap lift loads json_loads result_bind
       EmbedChunksV2Full.count_loop EmbedChunksV2.count_loop].
  by rewrite IH.
Qed.

Lemma full_http_load_agrees lines :
  EmbedViaHttpFull.load_indexable_chunks (lift <$> lines)
  = EmbedViaHttp.load_indexable_chunks lines.
Proof.
  unfold EmbedViaHttpFull.load_indexable_chunks,
    EmbedViaHttp.load_indexable_chunks.
  generalize (@nil chunk) 0.
  induction lines as [|[raw|c] lines IH]; intros chunks skipped;
    [reflexivity|reflexivity|].
  cbn [fmap list_fmap lift loads json_loads result_bind
       EmbedViaHttpFull.load_loop EmbedViaHttp.load_loop].
  by rewrite !IH.
Qed.

(** [load_chunks] of [embed_chunks.py]: the raw window, and nothing
    else, goes through [json.loads]. *)
Lemma full_v1_load_loop_exact offset count i lines (chunks : list pyobj) :
  (∀ n, count = Some n → length chunks ≤ Z.to_nat n) →
  EmbedChunksFull.load_loop offset count i lines chunks
  = do rest <- values_all (take_count count (length chunks)
                             (drop (Z.to_nat offset - i) lines));
    Return (chunks ++ rest).
Proof.
  revert i chunks.
  induction lines as [|l lines IH]; intros i chunks Hhave.
  { cbn [EmbedChunksFull.load_loop]. rewrite drop_nil.
    assert (take_count count (length chunks) (@nil any_line) = []) as ->
      by (destruct count; simpl; by rewrite ?take_nil).
    simpl. by rewrite app_nil_r. }
  cbn [EmbedChunksFull.load_loop].
  destruct (Z.of_nat i <? offset)%Z eqn:Hlt.
  - apply Z.ltb_lt in Hlt. rewrite IH by done.
    replace (Z.to_nat offset - i) with (S (Z.to_nat offset - S i)) by lia.
    reflexivity.
  - apply Z.ltb_ge in Hlt.
    replace (Z.to_nat offset - i) with 0 by lia. rewrite drop_0.
    destruct count as [n|]; cbn [take_count].
    + specialize (Hhave n eq_refl).
      destruct (n <=? Z.of_nat (length chunks))%Z eqn:Hc.
      * apply Z.leb_le in Hc.
        replace (Z.to_nat n - length chunks) with 0 by lia.
        rewrite take_0. simpl. by rewrite app_nil_r.
      * apply Z.leb_gt in Hc.
        replace (Z.to_nat n - length chunks)
          with (S (Z.to_nat n - S (length chunks))) by lia.
        cbn [take values_all]. destruct (loads l) as [v|e]; [|done].
        cbn [result_bind]. rewrite IH.
        -- replace (Z.to_nat offset - S i) with 0 by lia.
           rewrite drop_0, length_app. cbn [take_count length].
           rewrite Nat.add_1_r.
           destruct (values_all _) as [vs|e]; simpl; [|done].
           by rewrite <- app_assoc.
        -- intros n' [= <-]. rewrite length_app. simpl. lia.
    + cbn [values_all]. destruct (loads l) as [v|e]; [|done].
      cbn [result_bind]. rewrite IH by done.
      replace (Z.to_nat offset - S i) with 0 by lia.
      rewrite drop_0. cbn [take_count].
      destruct (values_all _) as [vs|e]; simpl; [|done].
      by rewrite <- app_assoc.
Qed.

Lemma full_v1_load_exact lines offset count :
  EmbedChunksFull.load_chunks lines offset count
  = values_all (take_count count 0 (drop (Z.to_nat offset) lines)).
Proof.
  unfold EmbedChunksFull.load_chunks.
  rewrite full_v1_load_loop_exact by (intros n _; simpl; lia).
  rewrite Nat.sub_0_r. simpl. by destruct (values_all _).
Qed.

Lemma values_all_unparsable lines :
  Exists (λ l, ∃ raw, l = Unparsable raw) lines
  ↔ values_all lines = Raise JSONDecodeError.
Proof.
  induction lines as [|l lines IH]; simpl.
  { split; [by intros H; apply Exists_nil in H|done]. }
  rewrite Exists_cons. destruct l as [raw|c|v]; simpl.
  - split; [done|]. intros _. left. by exists raw.
  - destruct (values_all lines) as [vs|e]; simpl.
    + split; [|done]. intros [[raw H]|H]; [done|]. by apply IH in H.
    + split; [intros [[raw H]|H]; [done|by apply IH in H]|].
      intros [= ->]. right. by apply IH.
  - destruct (values_all lines) as [vs|e]; simpl.
    + split; [|done]. intros [[raw H]|H]; [done|]. by apply IH in H.
    + split; [intros [[raw H]|H]; [done|by apply IH in H]|].
      intros [= ->]. right. by apply IH.
Qed.

Lemma values_all_raise lines e :
  values_all lines = Raise e → e = JSONDecodeError.
Proof.
  induction lines as [|l lines IH]; simpl; [done|].
  destruct l as [raw|c|v]; simpl; [by intros [= <-]| |];
    (destruct (values_all lines) as [vs|e']; simpl; [done|]);
    intros [= <-]; by apply IH.
Qed.

Lemma values_all_length lines vs :
  values_all lines = Return vs → length vs = length lines.
Proof.
  revert vs. induction lines as [|l lines IH]; intros vs; simpl.
  { by intros [= <-]. }
  destruct (loads l) as [v|e]; simpl; [|done].
  destruct (values_all lines) as [vs'|e]; simpl; [|done].
  intros [= <-]. simpl. by rewrite (IH vs' eq_refl).
Qed.

Lemma values_all_objects (records : list chunk) :
  values_all (Object <$> records) = Return (Dict <$> records).
Proof.
  induction records as [|r records IH]; [reflexivity|].
  cbn [fmap list_fmap values_all loads result_bind].
  change (list_fmap chunk any_line Object records) with (Object <$> records).
  by rewrite IH.
Qed.

Lemma dicts_all_objects (records : list chunk) :
  dicts_all (Object <$> records) = Return records.
Proof.
  induction records as [|r records IH]; [reflexivity|].
  cbn [fmap list_fmap dicts_all].
  change (list_fmap chunk any_line Object records) with (Object <$> records).
  by rewrite IH.
Qed.

Lemma dicts_all_first_bad (records : list chunk) l rest :
  is_object l = false →
  dicts_all ((Object <$> records) ++ l :: rest) = Raise (error_of l).
Proof.
  intros Hl. induction records as [|r records IH].
  { by destruct l. }
  cbn [fmap list_fmap app dicts_all].
  change (list_fmap chunk any_line Object records) with (Object <$> records).
  by rewrite IH.
Qed.

Lemma dicts_all_inv lines records :
  dicts_all lines = Return records → lines = Object <$> records.
Proof.
  revert records. induction lines as [|l lines IH]; intros records; simpl.
  { by intros [= <-]. }
  destruct l as [raw|c|v]; [done| |done].
  destruct (dicts_all lines) as [cs|e]; simpl; [|done].
  intros [= <-]. by rewrite (IH cs eq_refl).
Qed.

Lemma dicts_all_raise lines e :
  dicts_all lines = Raise e →
  ∃ (records : list chunk) l rest,
    lines = (Object <$> records) ++ l :: rest
    ∧ is_object l = false ∧ e = error_of l.
Proof.
  induction lines as [|l lines IH]; simpl; [done|].
  destruct l as [raw|c|v].
  - intros [= <-]. by exists [], (Unparsable raw), lines.
  - destruct (dicts_all lines) as [cs|e']; simpl; [done|].
    intros [= <-]. destruct (IH eq_refl) as (records & l & rest & -> & Hl & He).
    by exists (c :: records), l, rest.
  - intros [= <-]. by exists [], (Other v), lines.
Qed.

Lemma full_http_load_loop_exact lines chunks skipped :
  EmbedViaHttpFull.load_loop lines chunks skipped
  = do records <- dicts_all lines;
    Return (chunks ++ filter (λ c, is_indexable c = true) records,
            skipped + length (unusable records)).
Proof.
  revert chunks skipped.
  induction lines as [|l lines IH]; intros chunks skipped.
  { simpl. by rewrite app_nil_r, Nat.add_0_r. }
  destruct l as [raw|c|v]; [reflexivity| |reflexivity].
  cbn [EmbedViaHttpFull.load_loop loads result_bind dicts_all].
  unfold unusable in *.
  destruct (is_indexable c) eqn:Hc; rewrite IH;
    destruct (dicts_all lines) as [records|e]; simpl; try done.
  - rewrite filter_cons_True, filter_cons_False by (by rewrite ?Hc).
    by rewrite <- app_assoc.
  - rewrite filter_cons_False, filter_cons_True by (by rewrite ?Hc).
    simpl. do 2 f_equal. lia.
Qed.

Lemma full_v2_count_loop_exact lines total indexable :
  EmbedChunksV2Full.count_loop lines total indexable
  = do records <- dicts_all lines;
    Return (total + length records,
            indexable + length (filter (λ c, is_indexable c = true) records)).
Proof.
  revert total indexable.
  induction lines as [|l lines IH]; intros total indexable.
  { simpl. by rewrite !Nat.add_0_r. }
  destruct l as [raw|c|v]; [reflexivity| |reflexivity].
  cbn [EmbedChunksV2Full.count_loop loads result_bind dicts_all].
  rewrite IH. destruct (dicts_all lines) as [records|e]; simpl; [|done].
  destruct (is_indexable c) eqn:Hc.
  - rewrite filter_cons_True by done. simpl. do 2 f_equal; lia.
  - rewrite filter_cons_False by (by rewrite Hc). do 2 f_equal; lia.
Qed.

(** [load_indexable_chunks] of [embed_chunks_v2.py] at the first line
    that holds no JSON object: it raises there, unless the count limit has
    stopped the loop before. *)
Lemma full_v2_load_loop_first_bad offset count (records : list chunk) l rest
    chunks skipped :
  is_object l = false →
  EmbedChunksV2Full.load_loop offset count
    ((Object <$> records) ++ l :: rest) chunks skipped
  = Raise (error_of l)
  ∨ ∃ n chunks' skipped',
      count = Some n
      ∧ EmbedChunksV2Full.load_loop offset count
          ((Object <$> records) ++ l :: rest) chunks skipped
        = Return (chunks', skipped')
      ∧ (n ≤ Z.of_nat (length chunks'))%Z.
Proof.
  intros Hl. revert chunks skipped.
  induction records as [|r records IH]; intros chunks skipped.
  { left. by destruct l. }
  cbn [fmap list_fmap app EmbedChunksV2Full.load_loop loads result_bind].
  change (list_fmap chunk any_line Object records) with (Object <$> records).
  destruct (negb (is_indexable r)); [apply IH|].
  destruct (Z.of_nat (length chunks + skipped) <? offset)%Z; [apply IH|].
  destruct (count_reached count chunks) eqn:Hc; [|apply IH].
  right. apply count_reached_spec in Hc as (n & -> & Hn).
  by exists n, chunks, skipped.
Qed.

Lemma full_v2_load_loop_objects offset count (records : list chunk)
    chunks skipped :
  ∃ chunks' skipped',
    EmbedChunksV2Full.load_loop offset count (Object <$> records)
      chunks skipped = Return (chunks', skipped').
Proof.
  revert chunks skipped.
  induction records as [|r records IH]; intros chunks skipped.
  { by exists chunks, skipped. }
  cbn [fmap list_fmap EmbedChunksV2Full.load_loop loads result_bind].
  change (list_fmap chunk any_line Object records) with (Object <$> records).
  destruct (negb (is_indexable r)); [apply IH|].
  destruct (Z.of_nat (length chunks + skipped) <? offset)%Z; [apply IH|].
  destruct (count_reached count chunks); [|apply IH].
  by exists chunks, skipped.
Qed.

End LoadAny.

(** C8 (as amended).  No loader checks that a line is a well-formed
    record; what the loaders do with a line depends only on whether it is
    JSON and, for those that call [chunk.get], on whether the JSON value is
    an object.

    - [load_chunks] of [embed_chunks.py] passes the lines of its raw
      window, and no other line, through [json.loads]: it fails, with a
      parse error, exactly when one of these is not JSON, and otherwise
      returns what the window holds, line for line, be it records, objects
      that lack [text] or [chunk_id], or JSON values that are no objects.
    - [load_indexable_chunks] of [embed_via_http.py] reads every line and
      fails at the first one that holds no JSON object: with a parse
      error when that line is not JSON, with an attribute error when it
      holds another JSON value.
    - [load_indexable_chunks] of [embed_chunks_v2.py] fails in the same
      way at that line, unless the count limit has stopped its loop
      before, the returned list then holding at least [count] chunks;
      with a null count there is no such stop.
    - On a store of JSON objects, whatever their fields, no loader
      fails. *)
Theorem loaders_check_json_only
    (lines : list any_line) (offset : Z) (count : option Z) :
  let window := take_count count 0 (drop (Z.to_nat offset) lines) in
  (EmbedChunksFull.load_chunks lines offset count = values_all window
   ∧ (Exists (λ l, ∃ raw, l = Unparsable raw) window
      ↔ EmbedChunksFull.load_chunks lines offset count
        = Raise JSONDecodeError)
   ∧ (¬ Exists (λ l, ∃ raw, l = Unparsable raw) window →
      ∃ values,
        EmbedChunksFull.load_chunks lines offset count = Return values
        ∧ Forall2 (λ l v, loads l = Return v) window values))
  ∧ (∀ (records : list chunk) l rest,
       lines = (Object <$> records) ++ l :: rest →
       is_object l = false →
       EmbedViaHttpFull.load_indexable_chunks lines = Raise (error_of l)
       ∧ (EmbedChunksV2Full.load_indexable_chunks lines offset count
          = Raise (error_of l)
          ∨ ∃ n chunks skipped,
              count = Some n
              ∧ EmbedChunksV2Full.load_indexable_chunks lines offset count
                = Return (chunks, skipped)
              ∧ (n ≤ Z.of_nat (length chunks))%Z))
  ∧ (∀ records : list chunk,
       lines = Object <$> records →
       EmbedChunksFull.load_chunks lines offset count
       = Return (Dict <$> take_count count 0 (drop (Z.to_nat offset) records))
       ∧ EmbedViaHttpFull.load_indexable_chunks lines
         = Return (filter (λ c, is_indexable c = true) records,
                   length (unusable records))
       ∧ ∃ chunks skipped,
           EmbedChunksV2Full.load_indexable_chunks lines offset count
           = Return (chunks, skipped)).
Proof.
  intros window. subst window.
  pose proof (full_v1_load_exact lines offset count) as Hv1.
  split; [|split].
  - split; [exact Hv1|]. split.
    + rewrite Hv1. apply values_all_unparsable.
    + intros Hno. rewrite Hv1.
      destruct (values_all _) as [values|e] eqn:Hvals.
      * exists values. split; [done|].
        clear Hv1 Hno. revert values Hvals.
        induction (take_count count 0 (drop (Z.to_nat offset) lines))
          as [|l ls IH]; intros values; simpl.
        { intros [= <-]. constructor. }
        destruct (loads l) as [v|e] eqn:Hl; simpl; [|done].
        destruct (values_all ls) as [vs|e]; simpl; [|done].
        intros [= <-]. constructor; [done|]. by apply IH.
      * pose proof (values_all_raise _ _ Hvals) as ->.
        by apply values_all_unparsable in Hvals.
  - intros records l rest -> Hl. split.
    + unfold EmbedViaHttpFull.load_indexable_chunks.
      by rewrite full_http_load_loop_exact, dicts_all_first_bad.
    + by apply full_v2_load_loop_first_bad.
  - intros records ->. split; [|split].
    + rewrite Hv1. destruct count as [n|]; cbn [take_count];
        rewrite <- ?fmap_drop, <- ?fmap_take; apply values_all_objects.
    + unfold EmbedViaHttpFull.load_indexable_chunks.
      by rewrite full_http_load_loop_exact, dicts_all_objects.
    + apply full_v2_load_loop_objects.
Qed.

Lemma loaders_check_json_only_witness :
  let a := sample_chunk "a" "alpha" in
  let store := [Object a; Other (JArr [JNum 1; JNum 2]); Unparsable "{oops"] in
  EmbedChunksFull.load_chunks store 0 (Some 2%Z)
  = Return [Dict a; NotDict (JArr [JNum 1; JNum 2])]
  ∧ EmbedChunksFull.load_chunks store 0 None = Raise JSONDecodeError
  ∧ EmbedViaHttpFull.load_indexable_chunks store = Raise AttributeError
  ∧ EmbedChunksV2Full.load_indexable_chunks store 0 None
    = Raise AttributeError.
Proof.
  intros a store.
  destruct (loaders_check_json_only store 0 (Some 2%Z))
    as ((Hv1 & _) & _ & _).
  destruct (loaders_check_json_only store 0 None)
    as ((_ & Hraise & _) & Hbad & _).
  split; [exact Hv1|]. split.
  { apply Hraise. do 2 apply Exists_cons_tl. apply Exists_cons_hd.
    by eexists. }
  destruct (Hbad [a] (Other (JArr [JNum 1; JNum 2])) [Unparsable "{oops"]
              eq_refl eq_refl) as [Hhttp Hv2].
  split; [exact Hhttp|].
  destruct Hv2 as [H|(n & ? & ? & Hn & _)]; [exact H|discriminate Hn].
Defined.

(** C8, counterexample.  Stores holding a line that is not a well-formed
    record, and loads that return a list all the same: a line that is not
    JSON lies after the point where the count limit stops the loop, or
    before the offset; an object without [text] and [chunk_id] is loaded
    by all three loaders; a JSON list is returned by [load_chunks] of
    [embed_chunks.py] as if it were a chunk. *)
Lemma load_accepts_malformed_records :
  let a := sample_chunk "a" "alpha" in
  let b := sample_chunk "b" "beta" in
  let bare : chunk := {[ "note" := JStr "no text, no id" ]} in
  EmbedChunksV2Full.load_indexable_chunks
    [Object a; Object b; Unparsable "{oops"] 0 (Some 1%Z) = Return ([a], 0)
  ∧ EmbedChunksFull.load_chunks
      [Object a; Object b; Unparsable "{oops"] 0 (Some 2%Z)
    = Return [Dict a; Dict b]
  ∧ EmbedChunksFull.load_chunks [Unparsable "{oops"; Object a] 1 None
    = Return [Dict a]
  ∧ EmbedChunksFull.load_chunks [Object bare] 0 None = Return [Dict bare]
  ∧ EmbedChunksV2Full.load_indexable_chunks [Object bare] 0 None
    = Return ([bare], 0)
  ∧ EmbedViaHttpFull.load_indexable_chunks [Object bare] = Return ([bare], 0)
  ∧ EmbedChunksFull.load_chunks [Other (JArr [JNum 1; JNum 2])] 0 None
    = Return [NotDict (JArr [JNum 1; JNum 2])].
Proof. intros a b bare. repeat split; vm_compute; reflexivity. Qed.

(** Where the loaders do cut a window.  [load_chunks] of [embed_chunks.py]
    returns the window over the raw lines, with no filtering. *)
Lemma v1_load_loop_window offset count i (records : list chunk) chunks :
  (∀ n, count = Some n → length chunks ≤ Z.to_nat n) →
  EmbedChunks.load_loop offset count i (Record <$> records) chunks
  = Return (chunks ++ take_count count (length chunks)
                        (drop (Z.to_nat offset - i) records)).
Proof.
  revert i chunks.
  induction records as [|r records IH]; intros i chunks Hhave.
  { cbn [fmap list_fmap EmbedChunks.load_loop]. rewrite drop_nil.
    destruct count; simpl; by rewrite ?take_nil, app_nil_r. }
  cbn [fmap list_fmap EmbedChunks.load_loop].
  destruct (Z.of_nat i <? offset)%Z eqn:Hlt.
  - apply Z.ltb_lt in Hlt. rewrite IH by done.
    replace (Z.to_nat offset - i) with (S (Z.to_nat offset - S i)) by lia.
    reflexivity.
  - apply Z.ltb_ge in Hlt.
    replace (Z.to_nat offset - i) with 0 by lia. rewrite drop_0.
    destruct (count_reached count chunks) eqn:Hc.
    + apply count_reached_spec in Hc as (n & -> & Hn).
      specialize (Hhave n eq_refl). simpl.
      replace (Z.to_nat n - length chunks) with 0 by lia.
      by rewrite take_0, app_nil_r.
    + cbn [json_loads result_bind]. rewrite IH.
      * replace (Z.to_nat offset - S i) with 0 by lia. rewrite drop_0.
        rewrite <- app_assoc, length_app. simpl.
        destruct count as [n|]; simpl; [|done].
        simpl in Hc. apply Z.leb_gt in Hc.
        replace (Z.to_nat n - length chunks)
          with (S (Z.to_nat n - (length chunks + 1))) by lia.
        reflexivity.
      * intros n ->. simpl in Hc. apply Z.leb_gt in Hc.
        rewrite length_app. simpl. lia.
Qed.

Lemma v1_load_window (records : list chunk) offset count :
  EmbedChunks.load_chunks (Record <$> records) offset count
  = Return (take_count count 0 (drop (Z.to_nat offset) records)).
Proof.
  unfold EmbedChunks.load_chunks. rewrite v1_load_loop_window.
  - by rewrite Nat.sub_0_r.
  - intros n _. simpl. lia.
Qed.

(** [load_indexable_chunks] of [embed_chunks_v2.py] agrees with the
    filtered window as long as the offset test has nothing to drop. *)
Lemma v2_load_loop_no_offset offset count (records : list chunk) chunks skipped :
  (offset ≤ Z.of_nat (length chunks + skipped))%Z →
  (∀ n, count = Some n → length chunks ≤ Z.to_nat n) →
  ∃ skipped',
    EmbedChunksV2.load_loop offset count (Record <$> records) chunks skipped
    = Return (chunks ++ take_count count (length chunks)
                          (filter (λ c, is_indexable c = true) records),
              skipped').
Proof.
  revert chunks skipped.
  induction records as [|r records IH]; intros chunks skipped Hoff Hhave.
  { exists skipped. cbn [fmap list_fmap EmbedChunksV2.load_loop].
    rewrite filter_nil. destruct count; simpl; by rewrite ?take_nil, app_nil_r. }
  cbn [fmap list_fmap EmbedChunksV2.load_loop json_loads result_bind].
  destruct (is_indexable r) eqn:Hr; cbn [negb].
  - rewrite filter_cons_True by done.
    replace (Z.of_nat (length chunks + skipped) <? offset)%Z with false
      by (symmetry; apply Z.ltb_ge; lia).
    destruct (count_reached count chunks) eqn:Hc.
    + apply count_reached_spec in Hc as (n & -> & Hn).
      specialize (Hhave n eq_refl). exists skipped. simpl.
      replace (Z.to_nat n - length chunks) with 0 by lia.
      by rewrite take_0, app_nil_r.
    + destruct (IH (chunks ++ [r]) skipped) as (skipped' & ->).
      * rewrite length_app. simpl. lia.
      * intros n ->. simpl in Hc. apply Z.leb_gt in Hc.
        rewrite length_app. simpl. lia.
      * exists skipped'. rewrite <- app_assoc, length_app. simpl.
        destruct count as [n|]; simpl; [|done].
        simpl in Hc. apply Z.leb_gt in Hc.
        replace (Z.to_nat n - length chunks)
          with (S (Z.to_nat n - (length chunks + 1))) by lia.
        reflexivity.
  - rewrite filter_cons_False by (by rewrite Hr).
    apply IH; [lia|done].
Qed.

Lemma v2_load_no_offset (records : list chunk) offset count :
  (offset ≤ 0)%Z →
  ∃ skipped,
    EmbedChunksV2.load_indexable_chunks (Record <$> records) offset count
    = Return (spec_filtered_load records 0 (Z.to_nat <$> count), skipped).
Proof.
  intros Hoff.
  destruct (v2_load_loop_no_offset offset count records [] 0)
    as (skipped & H); [simpl; lia|intros n _; simpl; lia|].
  exists skipped. unfold EmbedChunksV2.load_indexable_chunks. rewrite H.
  unfold spec_filtered_load. rewrite drop_0.
  destruct count as [n|]; simpl; by rewrite ?Nat.sub_0_r.
Qed.

(** With a positive offset and no record flagged as not usable, it loads
    nothing: usable records met before the offset is reached advance
    neither [len(chunks)] nor [skipped]. *)
Lemma v2_load_loop_stuck offset count (records : list chunk) :
  (1 ≤ offset)%Z →
  Forall (λ c, is_indexable c = true) records →
  EmbedChunksV2.load_loop offset count (Record <$> records) [] 0
  = Return ([], 0).
Proof.
  intros Hoff. induction 1 as [|r records Hr _ IH]; [reflexivity|].
  cbn [fmap list_fmap EmbedChunksV2.load_loop json_loads result_bind].
  rewrite Hr. cbn [negb length Nat.add].
  replace (Z.of_nat 0 <? offset)%Z with true
    by (symmetry; apply Z.ltb_lt; lia).
  exact IH.
Qed.

(** C1, the divergence.  On a store of three usable records, offset 1 and a
    null count, [load_indexable_chunks] returns no chunk at all, where the
    window over the filtered sequence holds the second and third records:
    a usable record met before the offset is reached advances neither
    [len(chunks)] nor [skipped], so the test [len(chunks) + skipped <
    offset] stays true until enough non-usable records have been seen.
    With one non-usable record in front, offset 1 is used up by it and
    both usable records are loaded, where the window holds the second. *)
Theorem load_indexable_chunks_offset_counts_skipped :
  let a := sample_chunk "a" "alpha" in
  let b := sample_chunk "b" "beta" in
  let c := sample_chunk "c" "gamma" in
  let x := sample_unusable "x" "chi" in
  EmbedChunksV2.load_indexable_chunks [Record a; Record b; Record c] 1 None
    = Return ([], 0)
  ∧ spec_filtered_load [a; b; c] 1 None = [b; c]
  ∧ EmbedChunksV2.load_indexable_chunks [Record x; Record a; Record b] 1 None
    = Return ([a; b], 1)
  ∧ spec_filtered_load [x; a; b] 1 None = [b].
Proof. intros a b c x. repeat split; vm_compute; reflexivity. Qed.

(** ** Batch processor: generic facts *)

Lemma for_each_app {A S} (body : S → A → result S) (s : S) (l1 l2 : list A) :
  for_each body s (l1 ++ l2)
  = result_bind (for_each body s l1) (λ s', for_each body s' l2).
Proof.
  revert s. induction l1 as [|x l1 IH]; intros s; [reflexivity|].
  simpl. destruct (body s x) as [s'|e]; simpl; [apply IH|reflexivity].
Qed.

Lemma texts_of_spec (batch : list chunk) :
  Forall well_formed batch →
  ∃ texts, texts_of batch = Return texts
           ∧ Forall2 (λ c t, c !! "text" = Some t) batch texts.
Proof.
  induction 1 as [|c rest [[t Ht] _] _ (texts & IH & Hall)].
  - exists []. split; [reflexivity|constructor].
  - exists (t :: texts). simpl. unfold getitem. rewrite Ht. simpl.
    rewrite IH. simpl. split; [reflexivity|by constructor].
Qed.

Lemma texts_of_inv (batch : list chunk) texts :
  texts_of batch = Return texts →
  Forall2 (λ c t, c !! "text" = Some t) batch texts.
Proof.
  revert texts. induction batch as [|c rest IH]; intros texts; simpl.
  - intros [= <-]. constructor.
  - unfold getitem. destruct (c !! "text") as [t|] eqn:Ht; simpl; [|done].
    destruct (texts_of rest) as [ts|]; simpl; [|done].
    intros [= <-]. constructor; [done|by apply IH].
Qed.

Lemma batch_subseteq (chunks : list chunk) i n :
  take n (drop i chunks) ⊆ chunks.
Proof.
  etrans; [apply subseteq_take|apply subseteq_drop].
Qed.

Lemma batch_well_formed (chunks : list chunk) i n :
  Forall well_formed chunks → Forall well_formed (take n (drop i chunks)).
Proof. intros H. by apply Forall_take, Forall_drop. Qed.

(** ** Batch processor of embed_chunks.py *)

Section PodProcessor.
Import EmbedChunks PodView.
Variables (svc : service) (pod_id : Z).

Lemma emitted_embed_chunk st c emb :
  emitted (embed_chunk pod_id st c emb) = emitted st ++ [set_embedding c emb].
Proof.
  unfold embed_chunk, emitted.
  destruct (FILE_BATCH_SIZE <=? _); simpl; [|by rewrite app_assoc].
  rewrite fmap_app, concat_app. simpl. by rewrite !app_nil_r, app_assoc.
Qed.

Lemma processed_embed_chunk st c emb :
  processed (embed_chunk pod_id st c emb) = S (processed st).
Proof. unfold embed_chunk. by destruct (FILE_BATCH_SIZE <=? _). Qed.

Lemma calls_embed_chunk st c emb :
  calls (embed_chunk pod_id st c emb) = calls st.
Proof. unfold embed_chunk. by destruct (FILE_BATCH_SIZE <=? _). Qed.

Lemma stdout_embed_chunk st c emb :
  stdout (embed_chunk pod_id st c emb) = stdout st.
Proof. unfold embed_chunk. by destruct (FILE_BATCH_SIZE <=? _). Qed.

Lemma inv_embed_chunk st c emb :
  inv pod_id st → inv pod_id (embed_chunk pod_id st c emb).
Proof.
  intros [Hpend Hfull Hnames Hproc].
  split; [| | |by rewrite processed_embed_chunk, emitted_embed_chunk,
                  length_app, Hproc; simpl; lia].
  - unfold embed_chunk.
    destruct (FILE_BATCH_SIZE <=? _) eqn:E; simpl.
    + unfold FILE_BATCH_SIZE. lia.
    + apply Nat.leb_gt in E. done.
  - unfold embed_chunk.
    destruct (FILE_BATCH_SIZE <=? _) eqn:E; simpl; [|done].
    apply Forall_app. split; [done|]. constructor; [|constructor].
    apply Nat.leb_le in E. simpl in *. rewrite length_app in *. simpl in *. lia.
  - unfold embed_chunk.
    destruct (FILE_BATCH_SIZE <=? _) eqn:E; [|done].
    unfold save_batch. cbn [disk file_batch_num].
    rewrite fmap_app, Hnames, seq_S, fmap_app. reflexivity.
Qed.

Lemma inv_print st e : inv pod_id st → inv pod_id (print e st).
Proof. intros [? ? ? ?]. by split. Qed.

Lemma inv_call st texts :
  inv pod_id st → inv pod_id (get_embeddings_batch svc texts st).2.
Proof. intros [? ? ? ?]. by split. Qed.

Lemma inv_init : inv pod_id init.
Proof. split; simpl; [unfold FILE_BATCH_SIZE; lia|constructor|done|done]. Qed.

End PodProcessor.

(** Induction principle over a run of [process_chunks]: a property kept by
    every elementary step holds of the state in which the loop ends, and
    on records of the input format the loop does end. *)
Section PodRunInduction.
Import EmbedChunks.
Variables (svc : service) (pod_id : Z) (chunks : list chunk).
Variable P : state → Prop.
Hypothesis P_embed : ∀ st c emb,
  c ∈ chunks → returned_by svc emb → P st → P (embed_chunk pod_id st c emb).
Hypothesis P_call : ∀ st texts, P st → P (get_embeddings_batch svc texts st).2.
Hypothesis P_print : ∀ st e, loop_event e → P st → P (print e st).

Lemma pod_skip_chunk_ind st c :
  well_formed c → P st → ∃ st', skip_chunk st c = Return st' ∧ P st'.
Proof.
  intros [_ [id Hid]] HP. unfold skip_chunk, getitem. rewrite Hid. simpl.
  eexists. split; [reflexivity|]. by apply P_print.
Qed.

Lemma pod_retry_chunk_ind st c :
  c ∈ chunks → well_formed c → P st →
  ∃ st', retry_chunk svc pod_id st c = Return st' ∧ P st'.
Proof.
  intros Hin Hwf HP. unfold retry_chunk.
  destruct (c !! "text") as [t|]; [|by apply pod_skip_chunk_ind].
  pose proof (P_call st [t] HP) as HP'.
  unfold get_embeddings_batch in *. cbn [snd] in HP'.
  destruct (svc (length (calls st)) [t]) as [[|emb embs]|] eqn:Hr;
    [by apply pod_skip_chunk_ind| |by apply pod_skip_chunk_ind].
  eexists. split; [reflexivity|]. apply P_embed; [done| |done].
  exists (length (calls st)), [t], (emb :: embs). split; [done|]. by left.
Qed.

Lemma pod_fallback_ind st batch :
  batch ⊆ chunks → Forall well_formed batch → P st →
  ∃ st', for_each (retry_chunk svc pod_id) st batch = Return st' ∧ P st'.
Proof.
  revert st. induction batch as [|c rest IH]; intros st Hsub Hwf HP.
  { by exists st. }
  apply Forall_cons in Hwf as [Hc Hrest].
  destruct (pod_retry_chunk_ind st c) as (st1 & Hst1 & HP1); [|done|done|].
  { apply Hsub. by left. }
  destruct (IH st1) as (st2 & Hst2 & HP2); [|done|done|].
  { intros x Hx. apply Hsub. by right. }
  exists st2. simpl. rewrite Hst1. simpl. done.
Qed.

Lemma pod_embed_zip_ind st batch embeddings :
  batch ⊆ chunks → (∀ emb, emb ∈ embeddings → returned_by svc emb) → P st →
  P (embed_zip pod_id st batch embeddings).
Proof.
  revert st embeddings.
  induction batch as [|c rest IH]; intros st embeddings Hsub Hret HP; [done|].
  destruct embeddings as [|emb embs]; [done|]. simpl.
  apply IH.
  - intros x Hx. apply Hsub. by right.
  - intros e He. apply Hret. by right.
  - apply P_embed; [apply Hsub; by left|apply Hret; by left|done].
Qed.

Lemma pod_process_batch_ind st i :
  Forall well_formed chunks → P st →
  ∃ st', process_batch svc pod_id chunks st i = Return st' ∧ P st'.
Proof.
  intros Hwf HP. unfold process_batch.
  destruct (texts_of_spec (take EMBED_BATCH_SIZE (drop i chunks)))
    as (texts & Htexts & _); [by apply batch_well_formed|].
  rewrite Htexts. cbn [result_bind].
  pose proof (P_call st texts HP) as HP'.
  unfold get_embeddings_batch in *. cbn [snd] in HP'.
  destruct (svc (length (calls st)) texts) as [embeddings|] eqn:Hr.
  - eexists. split; [reflexivity|]. apply P_print; [done|].
    apply pod_embed_zip_ind.
    + apply batch_subseteq.
    + intros emb He. by exists (length (calls st)), texts, embeddings.
    + done.
  - apply pod_fallback_ind.
    + apply batch_subseteq.
    + by apply batch_well_formed.
    + by apply P_print.
Qed.

Lemma pod_loop_ind st (offsets : list nat) :
  Forall well_formed chunks → P st →
  ∃ st', for_each (process_batch svc pod_id chunks) st offsets = Return st'
         ∧ P st'.
Proof.
  intros Hwf. revert st.
  induction offsets as [|i rest IH]; intros st HP; [by exists st|].
  destruct (pod_process_batch_ind st i Hwf HP) as (st1 & Hst1 & HP1).
  destruct (IH st1 HP1) as (st2 & Hst2 & HP2).
  exists st2. simpl. rewrite Hst1. simpl. done.
Qed.

Lemma pod_run_ind :
  Forall well_formed chunks → P init →
  ∃ st, for_each (process_batch svc pod_id chunks) init
          (range_step (length chunks) EMBED_BATCH_SIZE) = Return st
        ∧ P st
        ∧ process_chunks svc chunks pod_id = Return (finish pod_id st).
Proof.
  intros Hwf HP.
  destruct (pod_loop_ind init (range_step (length chunks) EMBED_BATCH_SIZE)
              Hwf HP) as (st & Hst & HPst).
  exists st. split; [done|]. split; [done|].
  unfold process_chunks. rewrite Hst. reflexivity.
Qed.

End PodRunInduction.

(** The same principle for any run that ends, whatever the records. *)
Section PodRunKeeps.
Import EmbedChunks.
Variables (svc : service) (pod_id : Z) (chunks : list chunk).
Variable P : state → Prop.
Hypothesis P_embed : ∀ st c emb,
  c ∈ chunks → returned_by svc emb → P st → P (embed_chunk pod_id st c emb).
Hypothesis P_call : ∀ st texts, P st → P (get_embeddings_batch svc texts st).2.
Hypothesis P_print : ∀ st e, loop_event e → P st → P (print e st).

Lemma pod_skip_chunk_keeps st c st' :
  skip_chunk st c = Return st' → P st → P st'.
Proof.
  unfold skip_chunk, getitem.
  destruct (c !! "chunk_id") as [id|]; simpl; [|done].
  intros [= <-] HP. by apply P_print.
Qed.

Lemma pod_retry_chunk_keeps st c st' :
  c ∈ chunks → retry_chunk svc pod_id st c = Return st' → P st → P st'.
Proof.
  intros Hin Hrun HP. unfold retry_chunk in Hrun.
  destruct (c !! "text") as [t|]; [|by eapply pod_skip_chunk_keeps].
  pose proof (P_call st [t] HP) as HP'.
  unfold get_embeddings_batch in *. cbn [snd] in HP'.
  destruct (svc (length (calls st)) [t]) as [[|emb embs]|] eqn:Hr;
    [by eapply pod_skip_chunk_keeps| |by eapply pod_skip_chunk_keeps].
  injection Hrun as <-. apply P_embed; [done| |done].
  exists (length (calls st)), [t], (emb :: embs). split; [done|]. by left.
Qed.

Lemma pod_fallback_keeps batch st st' :
  batch ⊆ chunks →
  for_each (retry_chunk svc pod_id) st batch = Return st' → P st → P st'.
Proof.
  revert st. induction batch as [|c rest IH]; intros st Hsub; simpl.
  { by intros [= <-]. }
  destruct (retry_chunk svc pod_id st c) as [st1|e] eqn:E; simpl; [|done].
  intros Hrest HP. apply (IH st1); [|done|].
  - intros x Hx. apply Hsub. by right.
  - eapply pod_retry_chunk_keeps; [|exact E|done]. apply Hsub. by left.
Qed.

Lemma pod_process_batch_keeps st i st' :
  process_batch svc pod_id chunks st i = Return st' → P st → P st'.
Proof.
  intros Hrun HP. unfold process_batch in Hrun.
  destruct (texts_of _) as [texts|e]; [|done]. cbn [result_bind] in Hrun.
  pose proof (P_call st texts HP) as HP'.
  unfold get_embeddings_batch in *. cbn [snd] in HP'.
  destruct (svc (length (calls st)) texts) as [embeddings|] eqn:Hr.
  - injection Hrun as <-. apply P_print; [done|].
    apply (pod_embed_zip_ind svc pod_id chunks P P_embed).
    + apply batch_subseteq.
    + intros emb He. by exists (length (calls st)), texts, embeddings.
    + done.
  - eapply pod_fallback_keeps; [apply batch_subseteq|exact Hrun|].
    by apply P_print.
Qed.

Lemma pod_loop_keeps (offsets : list nat) st st' :
  for_each (process_batch svc pod_id chunks) st offsets = Return st' →
  P st → P st'.
Proof.
  revert st. induction offsets as [|i rest IH]; intros st; simpl.
  { by intros [= <-]. }
  destruct (process_batch svc pod_id chunks st i) as [st1|e] eqn:E; simpl;
    [|done].
  intros Hrest HP. apply (IH st1 Hrest). by eapply pod_process_batch_keeps.
Qed.

End PodRunKeeps.

(** ** The two processors run in lockstep *)

Section Lockstep.
Variables (svc : service) (pod_id : Z).

Lemma skip_lines_snoc out e :
  skip_lines (out ++ [e]) = skip_lines out ++ skip_lines [e].
Proof. unfold skip_lines. apply omap_app. Qed.

Lemma skip_lines_snoc_list out out' :
  length (skip_lines (out ++ out'))
  = length (skip_lines out) + length (skip_lines out').
Proof. unfold skip_lines. by rewrite omap_app, length_app. Qed.

Lemma same_run_print sp sh e1 e2 :
  skip_lines [e1] = skip_lines [e2] →
  same_run pod_id sp sh →
  same_run pod_id (EmbedChunks.print e1 sp) (EmbedViaHttp.print e2 sh).
Proof.
  intros He (? & ? & ? & ? & ? & Hout). repeat split; try done.
  simpl. by rewrite !skip_lines_snoc, Hout, He.
Qed.

Lemma same_run_embed_chunk sp sh c emb :
  same_run pod_id sp sh →
  same_run pod_id (EmbedChunks.embed_chunk pod_id sp c emb)
                  (EmbedViaHttp.embed_chunk sh c emb).
Proof.
  intros (Hp & Hfb & Hn & Hd & Hc & Hout).
  unfold EmbedChunks.embed_chunk, EmbedViaHttp.embed_chunk. rewrite Hfb.
  destruct (FILE_BATCH_SIZE <=? _); repeat split; simpl; try congruence.
  by rewrite fmap_app, Hd, Hn.
Qed.

Lemma same_run_skip_chunk sp sh c :
  same_run pod_id sp sh →
  result_rel (same_run pod_id) (EmbedChunks.skip_chunk sp c)
                               (EmbedViaHttp.skip_chunk sh c).
Proof.
  intros H. unfold EmbedChunks.skip_chunk, EmbedViaHttp.skip_chunk, getitem.
  destruct (c !! "chunk_id") as [id|]; simpl; [|done].
  apply (same_run_print _ _ (SkipChunk id) (SkipChunk id) eq_refl) in H.
  destruct H as (? & ? & ? & ? & ? & ?). by repeat split.
Qed.

Lemma same_run_call sp sh texts :
  same_run pod_id sp sh →
  (EmbedChunks.get_embeddings_batch svc texts sp).1
  = (EmbedViaHttp.get_embeddings_batch svc texts sh).1
  ∧ same_run pod_id (EmbedChunks.get_embeddings_batch svc texts sp).2
                    (EmbedViaHttp.get_embeddings_batch svc texts sh).2.
Proof.
  intros (? & ? & ? & ? & Hc & ?). simpl. rewrite Hc.
  repeat split; done.
Qed.

Lemma same_run_retry_chunk sp sh c :
  same_run pod_id sp sh →
  result_rel (same_run pod_id) (EmbedChunks.retry_chunk svc pod_id sp c)
                               (EmbedViaHttp.retry_chunk svc sh c).
Proof.
  intros H. unfold EmbedChunks.retry_chunk, EmbedViaHttp.retry_chunk.
  destruct (c !! "text") as [t|]; [|by apply same_run_skip_chunk].
  destruct (same_run_call sp sh [t] H) as [Hr H'].
  unfold EmbedChunks.get_embeddings_batch, EmbedViaHttp.get_embeddings_batch
    in *. cbn [fst snd] in Hr, H'. rewrite <- Hr.
  destruct (svc (length (EmbedChunks.calls sp)) [t]) as [[|emb embs]|];
    [by apply same_run_skip_chunk| |by apply same_run_skip_chunk].
  by apply same_run_embed_chunk.
Qed.

Lemma same_run_for_each {A} (f : EmbedChunks.state → A → result EmbedChunks.state)
    (g : EmbedViaHttp.state → A → result EmbedViaHttp.state) (l : list A) :
  (∀ sp sh x, same_run pod_id sp sh →
              result_rel (same_run pod_id) (f sp x) (g sh x)) →
  ∀ sp sh, same_run pod_id sp sh →
           result_rel (same_run pod_id) (for_each f sp l) (for_each g sh l).
Proof.
  intros Hstep. induction l as [|x rest IH]; intros sp sh H; [done|].
  simpl. specialize (Hstep sp sh x H).
  destruct (f sp x) as [sp'|e], (g sh x) as [sh'|e']; simpl in *; try done.
  by apply IH.
Qed.

Lemma same_run_embed_zip batch embeddings sp sh :
  same_run pod_id sp sh →
  same_run pod_id (EmbedChunks.embed_zip pod_id sp batch embeddings)
                  (EmbedViaHttp.embed_zip sh batch embeddings).
Proof.
  revert embeddings sp sh.
  induction batch as [|c rest IH]; intros embeddings sp sh H; [done|].
  destruct embeddings as [|emb embs]; [done|]. simpl.
  by apply IH, same_run_embed_chunk.
Qed.

Lemma same_run_process_batch chunks sp sh i :
  same_run pod_id sp sh →
  result_rel (same_run pod_id)
    (EmbedChunks.process_batch svc pod_id chunks sp i)
    (EmbedViaHttp.process_batch svc chunks sh i).
Proof.
  intros H. unfold EmbedChunks.process_batch, EmbedViaHttp.process_batch.
  destruct (texts_of _) as [texts|e]; [|done]. cbn [result_bind].
  destruct (same_run_call sp sh texts H) as [Hr H'].
  unfold EmbedChunks.get_embeddings_batch, EmbedViaHttp.get_embeddings_batch
    in *. cbn [fst snd] in Hr, H'. rewrite <- Hr.
  destruct (svc (length (EmbedChunks.calls sp)) texts) as [embeddings|].
  - cbn [result_rel]. apply same_run_print; [done|].
    by apply same_run_embed_zip.
  - apply same_run_for_each; [apply same_run_retry_chunk|].
    by apply same_run_print.
Qed.

Lemma same_run_save_remaining sp sh :
  same_run pod_id sp sh →
  same_run pod_id (EmbedChunks.save_remaining pod_id sp)
                  (EmbedViaHttp.save_remaining sh).
Proof.
  intros (Hp & Hfb & Hn & Hd & Hc & Hout).
  unfold EmbedChunks.save_remaining, EmbedViaHttp.save_remaining.
  rewrite <- Hfb.
  destruct (EmbedChunks.file_batch sp) as [|c fb] eqn:Efb;
    repeat split; simpl; try congruence.
  by rewrite fmap_app, Hd, Hn.
Qed.

Lemma same_run_print_summary sp sh :
  same_run pod_id sp sh →
  same_run pod_id (EmbedChunks.print_summary sp)
                  (EmbedViaHttp.print_summary sh).
Proof.
  intros H. unfold EmbedChunks.print_summary, EmbedViaHttp.print_summary.
  apply (same_run_print _ _
           (Done (EmbedChunks.processed sp) (EmbedChunks.file_batch_num sp))
           (Done (EmbedViaHttp.processed sh) (EmbedViaHttp.file_batch_num sh))
           eq_refl) in H.
  cbn zeta. destruct (0 <? _); [|done].
  destruct H as (? & ? & ? & ? & ? & Hout). repeat split; try done.
  rewrite Hout. set (st := EmbedViaHttp.print (Done _ _) sh).
  unfold EmbedViaHttp.print at 1. cbn [EmbedViaHttp.stdout].
  rewrite (skip_lines_snoc _ (Warning _)). simpl. by rewrite app_nil_r.
Qed.

Lemma same_run_finish sp sh :
  same_run pod_id sp sh →
  same_run pod_id (EmbedChunks.finish pod_id sp) (EmbedViaHttp.finish sh).
Proof.
  intros H. by apply same_run_print_summary, same_run_save_remaining.
Qed.

(** On every input the two processors raise the same exception or end
    in states that agree on everything they share. *)
Lemma same_run_process_chunks chunks :
  result_rel (same_run pod_id)
    (EmbedChunks.process_chunks svc chunks pod_id)
    (EmbedViaHttp.process_chunks svc chunks).
Proof.
  unfold EmbedChunks.process_chunks, EmbedViaHttp.process_chunks.
  pose proof (same_run_for_each
    (EmbedChunks.process_batch svc pod_id chunks)
    (EmbedViaHttp.process_batch svc chunks)
    (range_step (length chunks) EMBED_BATCH_SIZE)
    (λ sp sh x, same_run_process_batch chunks sp sh x)
    EmbedChunks.init EmbedViaHttp.init) as H.
  destruct (for_each _ EmbedChunks.init _) as [sp|e],
           (for_each _ EmbedViaHttp.init _) as [sh|e'];
    simpl in *; try (by apply H; repeat split).
  apply same_run_finish, H. by repeat split.
Qed.

End Lockstep.

(** ** The files a run leaves behind *)

Lemma length_concat_sum {A} (ls : list (list A)) :
  length (concat ls) = sum_list (length <$> ls).
Proof.
  induction ls as [|l ls IH]; [reflexivity|].
  simpl. by rewrite length_app, IH.
Qed.

Section PodFinish.
Import EmbedChunks PodView.
Variable pod_id : Z.

Lemma contents_save_remaining st :
  concat (snd <$> disk (save_remaining pod_id st)) = emitted st.
Proof.
  unfold save_remaining, emitted.
  destruct (file_batch st) as [|c fb]; simpl; [by rewrite app_nil_r|].
  rewrite fmap_app, concat_app. simpl. by rewrite app_nil_r.
Qed.

Lemma sizes_save_remaining st :
  inv pod_id st →
  let files := snd <$> disk (save_remaining pod_id st) in
  Forall (λ f, 1 ≤ length f ≤ FILE_BATCH_SIZE) files
  ∧ ∀ j f, files !! j = Some f → S j < length files →
           length f = FILE_BATCH_SIZE.
Proof.
  intros [Hpend Hfull Hnames Hproc] files.
  assert (Forall (λ f : list chunk, length f = FILE_BATCH_SIZE)
            (snd <$> disk st)) as Hfull'.
  { apply Forall_fmap. by eapply Forall_impl; [exact Hfull|]. }
  subst files. unfold save_remaining.
  destruct (file_batch st) as [|c fb] eqn:Efb; cbn [disk save_batch].
  - split.
    + eapply Forall_impl; [exact Hfull'|]. intros f Hf. simpl in Hf.
      rewrite Hf. unfold FILE_BATCH_SIZE. lia.
    + intros j f Hj _. by apply (proj1 (Forall_lookup _ _) Hfull' j f).
  - rewrite fmap_app. cbn [fmap list_fmap snd]. split.
    + apply Forall_app. split.
      * eapply Forall_impl; [exact Hfull'|]. intros f Hf. simpl in Hf.
        rewrite Hf. unfold FILE_BATCH_SIZE. lia.
      * constructor; [|constructor]. simpl in *. lia.
    + intros j f Hj Hlt. rewrite length_app in Hlt. simpl in Hlt.
      rewrite lookup_app_l in Hj by lia.
      by apply (proj1 (Forall_lookup _ _) Hfull' j f).
Qed.

Lemma names_save_remaining st :
  inv pod_id st →
  let st' := save_remaining pod_id st in
  fst <$> disk st' = (λ k, (pod_id, k)) <$> seq 0 (file_batch_num st')
  ∧ file_batch_num st' = length (disk st').
Proof.
  intros [Hpend Hfull Hnames Hproc] st'.
  assert (file_batch_num st = length (disk st)) as Hlen.
  { apply (f_equal length) in Hnames.
    by rewrite !length_fmap, length_seq in Hnames. }
  subst st'. unfold save_remaining.
  destruct (file_batch st) as [|c fb]; [done|].
  cbn [disk file_batch_num save_batch]. split.
  - by rewrite fmap_app, Hnames, seq_S, fmap_app.
  - rewrite length_app. simpl. lia.
Qed.

Lemma processed_finish st : processed (finish pod_id st) = processed st.
Proof. unfold finish, save_remaining. by destruct (file_batch st). Qed.

Lemma disk_finish st :
  disk (finish pod_id st) = disk (save_remaining pod_id st).
Proof. reflexivity. Qed.

Lemma file_batch_num_finish st :
  file_batch_num (finish pod_id st)
  = file_batch_num (save_remaining pod_id st).
Proof. reflexivity. Qed.

Lemma calls_finish st : calls (finish pod_id st) = calls st.
Proof. unfold finish, save_remaining. by destruct (file_batch st). Qed.

Lemma stdout_finish st :
  stdout (finish pod_id st)
  = stdout st ++ [Done (processed (finish pod_id st))
                       (file_batch_num (finish pod_id st))].
Proof. unfold finish, save_remaining. by destruct (file_batch st). Qed.

End PodFinish.

Section HttpFinish.
Import EmbedViaHttp.

Lemma http_failed_finish st : failed (finish st) = failed st.
Proof.
  unfold finish, print_summary, save_remaining.
  destruct (file_batch st); cbn zeta; by destruct (0 <? _).
Qed.

Lemma http_stdout_finish st :
  stdout (finish st)
  = stdout st ++ Done (processed (finish st)) (file_batch_num (finish st))
              :: (if 0 <? failed (finish st)
                  then [Warning (failed (finish st))] else []).
Proof.
  destruct st as [p [|f] fb n d c out];
    unfold finish, print_summary, save_remaining;
    destruct fb; simpl; by rewrite <- ?app_assoc.
Qed.

Lemma http_process_chunks_inv svc chunks st :
  process_chunks svc chunks = Return st →
  ∃ st0, for_each (process_batch svc chunks) init
           (range_step (length chunks) EMBED_BATCH_SIZE) = Return st0
         ∧ st = finish st0.
Proof.
  unfold process_chunks.
  destruct (for_each _ _ _) as [st0|e]; simpl; [|done].
  intros [= <-]. by exists st0.
Qed.

End HttpFinish.

Lemma same_run_contents pod_id sp sh :
  same_run pod_id sp sh →
  snd <$> EmbedChunks.disk sp = snd <$> EmbedViaHttp.disk sh.
Proof.
  intros (_ & _ & _ & Hd & _). rewrite Hd, <- list_fmap_compose.
  by apply list_fmap_ext.
Qed.

Lemma same_run_numbers pod_id sp sh :
  same_run pod_id sp sh →
  fst <$> EmbedViaHttp.disk sh = snd <$> (fst <$> EmbedChunks.disk sp).
Proof.
  intros (_ & _ & _ & Hd & _). rewrite Hd, <- !list_fmap_compose.
  by apply list_fmap_ext.
Qed.

(** ** Whole runs *)

Lemma set_embedding_adds_only c emb :
  adds_only_embedding c emb (set_embedding c emb).
Proof.
  unfold adds_only_embedding, set_embedding. split; [apply lookup_insert_eq|].
  split; [|apply dom_insert_L].
  intros k Hk. by apply lookup_insert_ne.
Qed.

Section Runs.
Variables (svc : service) (pod_id : Z) (chunks : list chunk).
Hypothesis Hwf : Forall well_formed chunks.

(** On records of the input format the run of [embed_chunks.py] ends, in
    a state where the loop invariant held before the last save and every
    chunk handed to the output is an enriched input record. *)
Lemma pod_run_facts :
  ∃ st0,
    for_each (EmbedChunks.process_batch svc pod_id chunks) EmbedChunks.init
      (range_step (length chunks) EMBED_BATCH_SIZE) = Return st0
    ∧ PodView.inv pod_id st0
    ∧ Forall (enriched_from svc chunks) (PodView.emitted st0)
    ∧ Forall loop_event (EmbedChunks.stdout st0)
    ∧ EmbedChunks.process_chunks svc chunks pod_id
      = Return (EmbedChunks.finish pod_id st0).
Proof.
  destruct (pod_run_ind svc pod_id chunks
    (λ st, PodView.inv pod_id st
           ∧ Forall (enriched_from svc chunks) (PodView.emitted st)
           ∧ Forall loop_event (EmbedChunks.stdout st)))
    as (st0 & Hloop & (Hinv & Hprov & Hev) & Hrun); try done.
  - intros st c emb Hc Hret (Hinv & Hprov & Hev). split; [|split].
    + by apply inv_embed_chunk.
    + rewrite emitted_embed_chunk. apply Forall_app. split; [done|].
      constructor; [|constructor]. by exists c, emb.
    + by rewrite stdout_embed_chunk.
  - intros st texts (Hinv & Hprov & Hev).
    split; [by apply inv_call|by split].
  - intros st e He (Hinv & Hprov & Hev). split; [by apply inv_print|].
    split; [done|]. simpl. apply Forall_app. split; [done|]. by constructor.
  - split; [apply inv_init|]. split; apply Forall_nil_2.
  - by exists st0.
Qed.

(** The run of [embed_via_http.py] on the same input ends too, in
    lockstep. *)
Lemma both_runs :
  ∃ st0 sh,
    PodView.inv pod_id st0
    ∧ Forall (enriched_from svc chunks) (PodView.emitted st0)
    ∧ EmbedChunks.process_chunks svc chunks pod_id
      = Return (EmbedChunks.finish pod_id st0)
    ∧ EmbedViaHttp.process_chunks svc chunks = Return sh
    ∧ same_run pod_id (EmbedChunks.finish pod_id st0) sh.
Proof.
  destruct pod_run_facts as (st0 & _ & Hinv & Hprov & _ & Hrun).
  pose proof (same_run_process_chunks svc pod_id chunks) as Hsim.
  rewrite Hrun in Hsim.
  destruct (EmbedViaHttp.process_chunks svc chunks) as [sh|e]; [|done].
  by exists st0, sh.
Qed.

End Runs.

Lemma pod_process_chunks_inv svc chunks pod_id st :
  EmbedChunks.process_chunks svc chunks pod_id = Return st →
  ∃ st0, for_each (EmbedChunks.process_batch svc pod_id chunks)
           EmbedChunks.init (range_step (length chunks) EMBED_BATCH_SIZE)
         = Return st0
         ∧ st = EmbedChunks.finish pod_id st0.
Proof.
  unfold EmbedChunks.process_chunks.
  destruct (for_each _ _ _) as [st0|e]; simpl; [|done].
  intros [= <-]. by exists st0.
Qed.

(** A run of [embed_chunks.py] that ends, on any records, ends by the last
    save and the summary in a state where the loop invariant holds. *)
Lemma pod_ended_run svc pod_id chunks sp :
  EmbedChunks.process_chunks svc chunks pod_id = Return sp →
  ∃ st0,
    PodView.inv pod_id st0
    ∧ Forall (enriched_from svc chunks) (PodView.emitted st0)
    ∧ Forall loop_event (EmbedChunks.stdout st0)
    ∧ sp = EmbedChunks.finish pod_id st0.
Proof.
  intros Hrun.
  destruct (pod_process_chunks_inv _ _ _ _ Hrun) as (st0 & Hloop & ->).
  exists st0.
  assert (PodView.inv pod_id st0
          ∧ Forall (enriched_from svc chunks) (PodView.emitted st0)
          ∧ Forall loop_event (EmbedChunks.stdout st0)) as (? & ? & ?);
    [|done].
  apply (pod_loop_keeps svc pod_id chunks
    (λ st, PodView.inv pod_id st
           ∧ Forall (enriched_from svc chunks) (PodView.emitted st)
           ∧ Forall loop_event (EmbedChunks.stdout st))) in Hloop; [done|..].
  - intros st c emb Hc Hret (Hinv & Hprov & Hev). split; [|split].
    + by apply inv_embed_chunk.
    + rewrite emitted_embed_chunk. apply Forall_app. split; [done|].
      constructor; [|constructor]. by exists c, emb.
    + by rewrite stdout_embed_chunk.
  - intros st texts (Hinv & Hprov & Hev).
    split; [by apply inv_call|by split].
  - intros st e He (Hinv & Hprov & Hev). split; [by apply inv_print|].
    split; [done|]. simpl. apply Forall_app. split; [done|]. by constructor.
  - split; [apply inv_init|]. split; apply Forall_nil_2.
Qed.

(** A run of [embed_via_http.py] that ends has a run of [embed_chunks.py]
    in lockstep. *)
Lemma http_ended_run svc pod_id chunks sh :
  EmbedViaHttp.process_chunks svc chunks = Return sh →
  ∃ sp, EmbedChunks.process_chunks svc chunks pod_id = Return sp
        ∧ same_run pod_id sp sh.
Proof.
  intros Hrun.
  pose proof (same_run_process_chunks svc pod_id chunks) as Hsim.
  rewrite Hrun in Hsim.
  destruct (EmbedChunks.process_chunks svc chunks pod_id) as [sp|e]; [|done].
  by exists sp.
Qed.

(** File sizes, file numbers and counters at the end of a run of
    [embed_chunks.py]. *)
Lemma pod_ended_run_files svc pod_id chunks sp :
  EmbedChunks.process_chunks svc chunks pod_id = Return sp →
  let files := snd <$> EmbedChunks.disk sp in
  Forall (λ f, 1 ≤ length f ≤ FILE_BATCH_SIZE) files
  ∧ (∀ j f, files !! j = Some f → S j < length files →
            length f = FILE_BATCH_SIZE)
  ∧ sum_list (length <$> files) = EmbedChunks.processed sp
  ∧ fst <$> EmbedChunks.disk sp
    = (λ k, (pod_id, k)) <$> seq 0 (length (EmbedChunks.disk sp))
  ∧ EmbedChunks.file_batch_num sp = length (EmbedChunks.disk sp)
  ∧ Forall (enriched_from svc chunks) (concat files)
  ∧ ∃ out, Forall loop_event out
           ∧ EmbedChunks.stdout sp
             = out ++ [Done (EmbedChunks.processed sp)
                            (length (EmbedChunks.disk sp))].
Proof.
  intros Hrun files. subst files.
  destruct (pod_ended_run _ _ _ _ Hrun) as (st0 & Hinv & Hprov & Hev & ->).
  destruct (sizes_save_remaining pod_id st0 Hinv) as [Hle Hfull].
  destruct (names_save_remaining pod_id st0 Hinv) as [Hnames Hnum].
  rewrite !disk_finish, file_batch_num_finish.
  split; [exact Hle|]. split; [exact Hfull|]. split.
  { rewrite <- length_concat_sum, contents_save_remaining, processed_finish.
    symmetry. apply Hinv. }
  split; [by rewrite Hnames, Hnum|]. split; [exact Hnum|].
  split; [by rewrite contents_save_remaining|].
  exists (EmbedChunks.stdout st0). split; [exact Hev|].
  by rewrite stdout_finish, file_batch_num_finish, Hnum.
Qed.

(** The same at the end of a run of [embed_via_http.py]. *)
Lemma http_ended_run_files svc chunks sh :
  EmbedViaHttp.process_chunks svc chunks = Return sh →
  let files := snd <$> EmbedViaHttp.disk sh in
  Forall (λ f, 1 ≤ length f ≤ FILE_BATCH_SIZE) files
  ∧ (∀ j f, files !! j = Some f → S j < length files →
            length f = FILE_BATCH_SIZE)
  ∧ sum_list (length <$> files) = EmbedViaHttp.processed sh
  ∧ fst <$> EmbedViaHttp.disk sh = seq 0 (length (EmbedViaHttp.disk sh))
  ∧ EmbedViaHttp.file_batch_num sh = length (EmbedViaHttp.disk sh)
  ∧ Forall (enriched_from svc chunks) (concat files).
Proof.
  intros Hrun files. subst files.
  destruct (http_ended_run svc 0 chunks sh Hrun) as (sp & Hpod & Hsim).
  destruct (pod_ended_run_files _ _ _ _ Hpod)
    as (Hle & Hfull & Hsum & Hnames & Hnum & Hprov & _).
  pose proof (same_run_contents _ _ _ Hsim) as Hcont.
  pose proof (same_run_numbers _ _ _ Hsim) as Hnums.
  assert (length (EmbedViaHttp.disk sh) = length (EmbedChunks.disk sp))
    as Hlen.
  { apply (f_equal length) in Hcont. by rewrite !length_fmap in Hcont. }
  destruct Hsim as (Hp & _ & Hn & _).
  rewrite <- Hcont, <- Hp, <- Hn, Hlen.
  split; [exact Hle|]. split; [exact Hfull|]. split; [exact Hsum|].
  split; [|by split].
  rewrite Hnums, Hnames, <- list_fmap_compose. apply list_fmap_id.
Qed.

Lemma sample_chunk_well_formed id text : well_formed (sample_chunk id text).
Proof. split; eexists; reflexivity. Qed.

(** On records of the input format both processors run to the end. *)
Lemma runs_end svc pod_id chunks :
  Forall well_formed chunks →
  ∃ sp sh,
    EmbedChunks.process_chunks svc chunks pod_id = Return sp
    ∧ EmbedViaHttp.process_chunks svc chunks = Return sh.
Proof.
  intros Hwf.
  destruct (both_runs svc pod_id chunks Hwf)
    as (st0 & sh & _ & _ & Hpod & Hhttp & _).
  by exists (EmbedChunks.finish pod_id st0), sh.
Qed.

(** ** A run with a disk whose writes succeed is the run of the first part *)

Section DiskAgrees.
Import EmbedChunksFull.
Variables (fs : filesystem) (svc : service) (pod_id : Z)
  (chunks : list chunk).
Hypothesis Hfs : writes_succeed fs.

Lemma omap_lookups (l : list chunk) positions values :
  Forall2 (λ j c, l !! j = Some c) positions values →
  omap (λ j, l !! j) positions = values.
Proof.
  induction 1 as [|j c js cs Hj _ IH]; [reflexivity|].
  cbn [omap list_omap]. rewrite Hj. by f_equal.
Qed.

Lemma batch_tail j c (batch : list chunk) :
  take (length (c :: batch)) (drop j chunks) = c :: batch →
  chunks !! j = Some c ∧ take (length batch) (drop (S j) chunks) = batch.
Proof.
  intros H. destruct (drop j chunks) as [|c' rest] eqn:E; [done|].
  cbn [length take] in H. injection H as -> H. split.
  - rewrite <- (Nat.add_0_r j), <- lookup_drop, E. done.
  - replace (S j) with (j + 1) by lia. by rewrite <- drop_drop, E.
Qed.

Lemma contents_agree g s :
  agrees g s → batch_contents g = EmbedChunks.file_batch s.
Proof. intros (_ & Hfb & _). by apply omap_lookups. Qed.

Lemma untouched_mono j j' g :
  j ≤ j' → untouched_from chunks j g → untouched_from chunks j' g.
Proof.
  intros Hle (Hlen & Hst & Hfb). split; [done|]. split.
  - intros k Hk. apply Hst. lia.
  - eapply Forall_impl; [exact Hfb|]. simpl. intros k Hk. lia.
Qed.

Lemma agrees_embed_chunk g s j c emb :
  agrees g s → untouched_from chunks j g → chunks !! j = Some c →
  ∃ g',
    embed_chunk fs pod_id g j emb = (g', true)
    ∧ agrees g' (EmbedChunks.embed_chunk pod_id s c emb)
    ∧ untouched_from chunks (S j) g'.
Proof.
  intros (Hp & Hfb & Hn & Hd & Hc & Ho) (Hlen & Hst & Hlt) Hj.
  assert (store g !! j = Some c) as Hgj by (by rewrite Hst).
  set (store' := alter (λ c0, set_embedding c0 emb) j (store g)).
  assert (Forall2 (λ k c0, store' !! k = Some c0)
            (file_batch g ++ [j])
            (EmbedChunks.file_batch s ++ [set_embedding c emb])) as Hfb'.
  { apply Forall2_app.
    - clear -Hfb Hlt. induction Hfb as [|k c0 ks cs Hk _ IH];
        [constructor|].
      apply Forall_cons in Hlt as [Hkj Hlt]. constructor; [|by apply IH].
      subst store'. rewrite list_lookup_alter_ne by lia. done.
    - constructor; [|constructor].
      subst store'. by rewrite list_lookup_alter_eq, Hgj. }
  assert (∀ k, S j ≤ k → store' !! k = chunks !! k) as Hst'.
  { intros k Hk. subst store'.
    rewrite list_lookup_alter_ne by lia. apply Hst. lia. }
  assert (length store' = length chunks) as Hlen'
    by (subst store'; by rewrite length_alter).
  pose proof (Forall2_length _ _ _ Hfb') as Hsize.
  unfold embed_chunk, EmbedChunks.embed_chunk. fold store'.
  cbn [file_batch]. rewrite Hsize.
  destruct (FILE_BATCH_SIZE <=? _).
  - unfold save_batch. cbn [saves]. rewrite Hfs.
    eexists. split; [reflexivity|]. split.
    + unfold agrees, EmbedChunks.save_batch. cbn.
      split; [by rewrite Hp|]. split; [constructor|].
      split; [by rewrite Hn|]. split; [|done].
      rewrite Hd, Hn. do 3 f_equal. unfold batch_contents. cbn.
      by apply omap_lookups.
    + split; [exact Hlen'|]. split; [exact Hst'|]. constructor.
  - eexists. split; [reflexivity|]. split.
    + unfold agrees. cbn. by rewrite Hp.
    + split; [exact Hlen'|]. split; [exact Hst'|]. cbn.
      apply Forall_app. split; [|by repeat constructor].
      eapply Forall_impl; [exact Hlt|]. simpl. intros k Hk. lia.
Qed.

Lemma agrees_embed_zip batch :
  ∀ j g s embeddings,
    agrees g s → untouched_from chunks j g →
    take (length batch) (drop j chunks) = batch →
    ∃ g',
      embed_zip fs pod_id g (seq j (length batch)) embeddings = (g', true)
      ∧ agrees g' (EmbedChunks.embed_zip pod_id s batch embeddings)
      ∧ untouched_from chunks (j + length batch) g'.
Proof.
  induction batch as [|c batch IH]; intros j g s embeddings Hag Hun Hbatch.
  { exists g. rewrite Nat.add_0_r. by destruct embeddings. }
  destruct embeddings as [|emb embs].
  { exists g. split; [done|]. split; [done|].
    eapply untouched_mono; [|exact Hun]. lia. }
  apply batch_tail in Hbatch as [Hj Hbatch].
  destruct (agrees_embed_chunk g s j c emb Hag Hun Hj)
    as (g1 & Hstep & Hag1 & Hun1).
  cbn [length seq embed_zip EmbedChunks.embed_zip]. rewrite Hstep.
  destruct (IH (S j) g1 _ embs Hag1 Hun1 Hbatch)
    as (g' & Hrest & Hag' & Hun').
  exists g'. split; [exact Hrest|]. split; [exact Hag'|].
  by rewrite <- Nat.add_succ_comm.
Qed.

Lemma agrees_print g s e :
  agrees g s → agrees (print e g) (EmbedChunks.print e s).
Proof.
  intros (Hp & Hfb & Hn & Hd & Hc & Ho). unfold agrees. cbn.
  by rewrite Ho.
Qed.

Lemma agrees_call g s texts :
  agrees g s →
  (get_embeddings_batch svc texts g).1
  = (EmbedChunks.get_embeddings_batch svc texts s).1
  ∧ agrees (get_embeddings_batch svc texts g).2
      (EmbedChunks.get_embeddings_batch svc texts s).2.
Proof.
  intros (Hp & Hfb & Hn & Hd & Hc & Ho).
  unfold get_embeddings_batch, EmbedChunks.get_embeddings_batch, agrees.
  cbn. by rewrite Hc.
Qed.

Lemma untouched_print j g e :
  untouched_from chunks j g → untouched_from chunks j (print e g).
Proof. done. Qed.

Lemma untouched_call j g texts :
  untouched_from chunks j g →
  untouched_from chunks j (get_embeddings_batch svc texts g).2.
Proof. done. Qed.

Lemma agrees_skip_chunk g s j c :
  agrees g s → store g !! j = Some c →
  result_rel agrees (skip_chunk g j) (EmbedChunks.skip_chunk s c).
Proof.
  intros Hag Hj. unfold skip_chunk, EmbedChunks.skip_chunk. rewrite Hj.
  destruct (getitem c "chunk_id") as [id|e]; simpl; [|done].
  by apply agrees_print.
Qed.

Lemma agrees_retry_chunk g s j c :
  agrees g s → untouched_from chunks j g → chunks !! j = Some c →
  result_rel (λ g' s', agrees g' s' ∧ untouched_from chunks (S j) g')
    (retry_chunk fs svc pod_id g j) (EmbedChunks.retry_chunk svc pod_id s c).
Proof.
  intros Hag Hun Hj.
  assert (store g !! j = Some c) as Hgj
    by (destruct Hun as (_ & Hst & _); by rewrite Hst).
  assert (∀ g0 s0,
            agrees g0 s0 → untouched_from chunks j g0 →
            result_rel (λ g' s', agrees g' s' ∧ untouched_from chunks (S j) g')
              (skip_chunk g0 j) (EmbedChunks.skip_chunk s0 c)) as Hskip.
  { intros g0 s0 Hag0 Hun0.
    assert (store g0 !! j = Some c) as Hg0
      by (destruct Hun0 as (_ & Hst & _); by rewrite Hst).
    pose proof (agrees_skip_chunk g0 s0 j c Hag0 Hg0) as H.
    unfold skip_chunk, EmbedChunks.skip_chunk in *. rewrite Hg0 in *.
    destruct (getitem c "chunk_id") as [id|e]; simpl in *; [|done].
    split; [done|]. apply untouched_print.
    eapply untouched_mono; [|exact Hun0]. lia. }
  unfold retry_chunk, EmbedChunks.retry_chunk. rewrite Hgj.
  destruct (c !! "text") as [t|]; [|by apply Hskip].
  destruct (agrees_call g s [t] Hag) as [Hr Hag1].
  pose proof (untouched_call j g [t] Hun) as Hun1.
  destruct (get_embeddings_batch svc [t] g) as [r g1].
  destruct (EmbedChunks.get_embeddings_batch svc [t] s) as [r' s1].
  cbn [fst snd] in *. subst r'.
  destruct r as [[|emb embs]|]; [by apply Hskip| |by apply Hskip].
  destruct (agrees_embed_chunk g1 s1 j c emb Hag1 Hun1 Hj)
    as (g' & -> & Hag' & Hun').
  by split.
Qed.

Lemma agrees_fallback batch :
  ∀ j g s,
    agrees g s → untouched_from chunks j g →
    take (length batch) (drop j chunks) = batch →
    result_rel
      (λ g' s', agrees g' s' ∧ untouched_from chunks (j + length batch) g')
      (for_each (retry_chunk fs svc pod_id) g (seq j (length batch)))
      (for_each (EmbedChunks.retry_chunk svc pod_id) s batch).
Proof.
  induction batch as [|c batch IH]; intros j g s Hag Hun Hbatch.
  { simpl. by rewrite Nat.add_0_r. }
  apply batch_tail in Hbatch as [Hj Hbatch].
  pose proof (agrees_retry_chunk g s j c Hag Hun Hj) as Hstep.
  cbn [length seq for_each].
  destruct (retry_chunk fs svc pod_id g j) as [g1|e];
    destruct (EmbedChunks.retry_chunk svc pod_id s c) as [s1|e'];
    simpl in Hstep; try done; cbn [result_bind].
  destruct Hstep as [Hag1 Hun1].
  rewrite <- Nat.add_succ_comm. by apply IH.
Qed.

Lemma agrees_process_batch g s i :
  agrees g s → untouched_from chunks i g →
  result_rel
    (λ g' s', agrees g' s' ∧ untouched_from chunks (i + EMBED_BATCH_SIZE) g')
    (process_batch fs svc pod_id g i)
    (EmbedChunks.process_batch svc pod_id chunks s i).
Proof.
  intros Hag Hun. pose proof Hun as (Hlen & Hst & _).
  assert (drop i (store g) = drop i chunks) as Hdrop.
  { apply list_eq. intros k. rewrite !lookup_drop. apply Hst. lia. }
  unfold process_batch, EmbedChunks.process_batch. rewrite Hdrop, Hlen.
  set (batch := take EMBED_BATCH_SIZE (drop i chunks)).
  assert (take (length batch) (drop i chunks) = batch) as Hbatch.
  { subst batch. rewrite length_take.
    destruct (decide (EMBED_BATCH_SIZE ≤ length (drop i chunks))).
    - by rewrite Nat.min_l.
    - rewrite Nat.min_r by lia. by rewrite !take_ge by lia. }
  assert (length batch ≤ EMBED_BATCH_SIZE) as Hsize
    by (subst batch; rewrite length_take; lia).
  destruct (texts_of batch) as [texts|e]; [|done]. cbn [result_bind].
  destruct (agrees_call g s texts Hag) as [Hr Hag1].
  pose proof (untouched_call i g texts Hun) as Hun1.
  destruct (get_embeddings_batch svc texts g) as [r g1].
  destruct (EmbedChunks.get_embeddings_batch svc texts s) as [r' s1].
  cbn [fst snd] in *. subst r'.
  destruct r as [embeddings|].
  - destruct (agrees_embed_zip batch i g1 s1 embeddings Hag1 Hun1 Hbatch)
      as (g' & -> & Hag' & Hun').
    simpl. pose proof Hag' as (-> & _ & -> & _).
    split; [by apply agrees_print|]. apply untouched_print.
    eapply untouched_mono; [|exact Hun']. lia.
  - pose proof (agrees_fallback batch i (print (ErrorAtBatch i) g1)
                  (EmbedChunks.print (ErrorAtBatch i) s1)
                  (agrees_print _ _ _ Hag1) (untouched_print _ _ _ Hun1)
                  Hbatch) as Hfall.
    destruct (for_each (retry_chunk fs svc pod_id) _ _) as [g'|e];
      destruct (for_each (EmbedChunks.retry_chunk svc pod_id) _ _)
        as [s'|e']; simpl in *; try done.
    destruct Hfall as [Hag' Hun']. split; [done|].
    eapply untouched_mono; [|exact Hun']. lia.
Qed.

Lemma agrees_loop m :
  ∀ a g s,
    agrees g s → untouched_from chunks (a * EMBED_BATCH_SIZE) g →
    result_rel agrees
      (for_each (process_batch fs svc pod_id) g
         ((λ k, k * EMBED_BATCH_SIZE) <$> seq a m))
      (for_each (EmbedChunks.process_batch svc pod_id chunks) s
         ((λ k, k * EMBED_BATCH_SIZE) <$> seq a m)).
Proof.
  induction m as [|m IH]; intros a g s Hag Hun; [done|].
  cbn [seq fmap list_fmap for_each].
  pose proof (agrees_process_batch g s (a * EMBED_BATCH_SIZE) Hag Hun)
    as Hstep.
  destruct (process_batch fs svc pod_id g _) as [g1|e];
    destruct (EmbedChunks.process_batch svc pod_id chunks s _) as [s1|e'];
    simpl in Hstep; try done; cbn [result_bind].
  destruct Hstep as [Hag1 Hun1]. apply IH; [done|].
  by rewrite Nat.mul_succ_l.
Qed.

Lemma agrees_finish g s :
  agrees g s →
  ∃ g', finish fs pod_id g = Return g'
        ∧ agrees g' (EmbedChunks.finish pod_id s).
Proof.
  intros Hag. pose proof (contents_agree g s Hag) as Hcont.
  destruct Hag as (Hp & Hfb & Hn & Hd & Hc & Ho).
  unfold finish, EmbedChunks.finish, EmbedChunks.print_summary,
    EmbedChunks.save_remaining.
  destruct (file_batch g) as [|j js] eqn:Eg;
    destruct (EmbedChunks.file_batch s) as [|c cs] eqn:Es;
    [|by inversion Hfb|by inversion Hfb|].
  - eexists. split; [reflexivity|]. unfold agrees. cbn.
    rewrite Eg, Es, Hp, Hn, Ho. repeat split; first [done|constructor].
  - unfold save_batch. rewrite Hfs. eexists. split; [reflexivity|].
    unfold agrees, EmbedChunks.save_batch. cbn.
    rewrite Eg, Es, Hp, Hn, Ho, Hd, Hcont. by repeat split.
Qed.

(** The run with a disk, when no write fails, and the run of the first
    part end in the same way. *)
Lemma disk_run_agrees :
  result_rel agrees
    (process_chunks fs svc chunks pod_id)
    (EmbedChunks.process_chunks svc chunks pod_id).
Proof.
  unfold process_chunks, EmbedChunks.process_chunks, range_step.
  assert (agrees (init chunks) EmbedChunks.init) as Hag0.
  { unfold agrees. cbn. repeat split; first [done|constructor]. }
  assert (untouched_from chunks (0 * EMBED_BATCH_SIZE) (init chunks)) as Hun0.
  { split; [done|]. split; [done|]. constructor. }
  pose proof (agrees_loop
                ((length chunks + EMBED_BATCH_SIZE - 1) / EMBED_BATCH_SIZE)
                0 _ _ Hag0 Hun0) as Hloop.
  destruct (for_each (process_batch fs svc pod_id) _ _) as [g|e];
    destruct (for_each (EmbedChunks.process_batch svc pod_id chunks) _ _)
      as [s|e']; simpl in Hloop; try done; cbn [result_bind].
  destruct (agrees_finish g s Hloop) as (g' & -> & Hag'). exact Hag'.
Qed.

End DiskAgrees.

Lemma disk_run_has_pod fs svc pod_id chunks g :
  writes_succeed fs →
  EmbedChunksFull.process_chunks fs svc chunks pod_id = Return g →
  ∃ sp, EmbedChunks.process_chunks svc chunks pod_id = Return sp
        ∧ agrees g sp.
Proof.
  intros Hfs Hrun.
  pose proof (disk_run_agrees fs svc pod_id chunks Hfs) as Hsim.
  rewrite Hrun in Hsim.
  destruct (EmbedChunks.process_chunks svc chunks pod_id) as [sp|e]; [|done].
  by exists sp.
Qed.

Lemma disk_run_raises fs svc pod_id chunks e :
  writes_succeed fs →
  EmbedChunksFull.process_chunks fs svc chunks pod_id = Raise e →
  EmbedChunks.process_chunks svc chunks pod_id = Raise e.
Proof.
  intros Hfs Hrun.
  pose proof (disk_run_agrees fs svc pod_id chunks Hfs) as Hsim.
  rewrite Hrun in Hsim.
  destruct (EmbedChunks.process_chunks svc chunks pod_id) as [sp|e']; [done|].
  simpl in Hsim. by subst.
Qed.




(** C10. At the end of a run the sizes of the files written add up to the
    processed counter, the summary line reports that counter and a file
    count equal to the number of files written, and the files bear the
    sequence numbers 0, 1, 2, ... in the order they were written, so none
    overwrote another; on records of the input format the run does end. *)
Theorem written_chunks_match_processed
    (svc : service) (chunks : list chunk) (pod_id : Z) :
  (Forall well_formed chunks →
   ∃ sp sh,
     EmbedChunks.process_chunks svc chunks pod_id = Return sp
     ∧ EmbedViaHttp.process_chunks svc chunks = Return sh)
  ∧ (∀ sp,
       EmbedChunks.process_chunks svc chunks pod_id = Return sp →
       sum_list (length <$> (snd <$> EmbedChunks.disk sp))
       = EmbedChunks.processed sp
       ∧ (∃ out, EmbedChunks.stdout sp
                 = out ++ [Done (EmbedChunks.processed sp)
                                (length (EmbedChunks.disk sp))])
       ∧ fst <$> EmbedChunks.disk sp
         = (λ k, (pod_id, k)) <$> seq 0 (length (EmbedChunks.disk sp)))
  ∧ (∀ sh,
       EmbedViaHttp.process_chunks svc chunks = Return sh →
       sum_list (length <$> (snd <$> EmbedViaHttp.disk sh))
       = EmbedViaHttp.processed sh
       ∧ (∃ out, EmbedViaHttp.stdout sh
                 = out ++ Done (EmbedViaHttp.processed sh)
                               (length (EmbedViaHttp.disk sh))
                       :: (if 0 <? EmbedViaHttp.failed sh
                           then [Warning (EmbedViaHttp.failed sh)] else []))
       ∧ fst <$> EmbedViaHttp.disk sh
         = seq 0 (length (EmbedViaHttp.disk sh))).
Proof.
  split; [apply runs_end|]. split.
  - intros sp Hrun.
    destruct (pod_ended_run_files _ _ _ _ Hrun)
      as (_ & _ & Hsum & Hnames & _ & _ & out & _ & Hout).
    split; [exact Hsum|]. split; [by exists out|exact Hnames].
  - intros sh Hrun.
    destruct (http_ended_run_files _ _ _ Hrun)
      as (_ & _ & Hsum & Hnames & Hnum & _).
    split; [exact Hsum|]. split; [|exact Hnames].
    destruct (http_process_chunks_inv _ _ _ Hrun) as (sh0 & _ & ->).
    exists (EmbedViaHttp.stdout sh0). by rewrite http_stdout_finish, Hnum.
Qed.

Lemma written_chunks_match_processed_witness :
  let chunks := [sample_chunk "a" "alpha"; sample_chunk "b" "beta"] in
  Forall well_formed chunks
  ∧ ∃ st, EmbedViaHttp.process_chunks sample_service chunks = Return st
          ∧ sum_list (length <$> (snd <$> EmbedViaHttp.disk st))
            = EmbedViaHttp.processed st.
Proof.
  intros chunks.
  assert (Forall well_formed chunks) as Hwf
    by (repeat constructor; apply sample_chunk_well_formed).
  split; [exact Hwf|].
  destruct (written_chunks_match_processed sample_service chunks 0)
    as (Hend & _ & Hhttp).
  destruct (Hend Hwf) as (_ & sh & _ & Hrun).
  exists sh. split; [exact Hrun|]. by destruct (Hhttp sh Hrun).
Defined.

(** ** Single steps of the two processors *)

Section PodSteps.
Import EmbedChunks PodView.
Variables (svc : service) (pod_id : Z).

Lemma pod_embed_zip_spec batch embeddings st :
  let st' := embed_zip pod_id st batch embeddings in
  emitted st' = emitted st ++ zip_with set_embedding batch embeddings
  ∧ processed st'
    = processed st + length (zip_with set_embedding batch embeddings)
  ∧ calls st' = calls st
  ∧ stdout st' = stdout st.
Proof.
  revert embeddings st.
  induction batch as [|c rest IH]; intros embeddings st.
  { simpl. by rewrite app_nil_r, Nat.add_0_r. }
  destruct embeddings as [|emb embs].
  { simpl. by rewrite app_nil_r, Nat.add_0_r. }
  cbn [embed_zip zip_with].
  destruct (IH embs (embed_chunk pod_id st c emb)) as (He & Hp & Hc & Ho).
  rewrite He, Hp, Hc, Ho, emitted_embed_chunk, processed_embed_chunk,
    calls_embed_chunk, stdout_embed_chunk, <- app_assoc. simpl.
  repeat split; first [done|lia].
Qed.

Lemma pod_embed_chunk_output st1 st2 c emb :
  output st1 = output st2 →
  output (embed_chunk pod_id st1 c emb) = output (embed_chunk pod_id st2 c emb).
Proof.
  unfold output, embed_chunk, save_batch. intros [= Hp Hfb Hn Hd].
  cbn [disk]. rewrite Hp, Hfb, Hn, Hd. by destruct (FILE_BATCH_SIZE <=? _).
Qed.

Lemma pod_embed_zip_output st1 st2 batch embeddings :
  output st1 = output st2 →
  output (embed_zip pod_id st1 batch embeddings)
  = output (embed_zip pod_id st2 batch embeddings).
Proof.
  revert st1 st2 embeddings.
  induction batch as [|c rest IH]; intros st1 st2 embeddings Hout; [done|].
  destruct embeddings as [|emb embs]; [done|]. cbn [embed_zip].
  by apply IH, pod_embed_chunk_output.
Qed.

Lemma pod_retry_no_vector st c t id :
  c !! "text" = Some t → c !! "chunk_id" = Some id →
  no_vector (svc (length (calls st)) [t]) →
  ∃ st', retry_chunk svc pod_id st c = Return st'
         ∧ output st' = output st
         ∧ calls st' = calls st ++ [[t]]
         ∧ stdout st' = stdout st ++ [SkipChunk id].
Proof.
  intros Ht Hid Hno. unfold retry_chunk, get_embeddings_batch.
  rewrite Ht. unfold skip_chunk, getitem. rewrite Hid.
  destruct Hno as [-> | ->]; simpl; eexists; by repeat split.
Qed.

Lemma pod_retry_vector st c t emb rest :
  c !! "text" = Some t →
  svc (length (calls st)) [t] = Embeddings (emb :: rest) →
  ∃ st', retry_chunk svc pod_id st c = Return st'
         ∧ output st' = output (embed_chunk pod_id st c emb)
         ∧ calls st' = calls st ++ [[t]]
         ∧ stdout st' = stdout st.
Proof.
  intros Ht Hr. unfold retry_chunk, get_embeddings_batch. rewrite Ht, Hr.
  eexists. split; [reflexivity|].
  rewrite calls_embed_chunk, stdout_embed_chunk. split; [|done].
  by apply pod_embed_chunk_output.
Qed.

End PodSteps.

Section HttpSteps.
Import EmbedViaHttp HttpView.
Variable svc : service.

Lemma http_emitted_embed_chunk st c emb :
  emitted (embed_chunk st c emb) = emitted st ++ [set_embedding c emb].
Proof.
  unfold embed_chunk, emitted.
  destruct (FILE_BATCH_SIZE <=? _); simpl; [|by rewrite app_assoc].
  rewrite fmap_app, concat_app. simpl. by rewrite !app_nil_r, app_assoc.
Qed.

Lemma http_frame_embed_chunk st c emb :
  processed (embed_chunk st c emb) = S (processed st)
  ∧ failed (embed_chunk st c emb) = failed st
  ∧ calls (embed_chunk st c emb) = calls st
  ∧ stdout (embed_chunk st c emb) = stdout st.
Proof. unfold embed_chunk. by destruct (FILE_BATCH_SIZE <=? _). Qed.

Lemma http_embed_zip_spec batch embeddings st :
  let st' := embed_zip st batch embeddings in
  emitted st' = emitted st ++ zip_with set_embedding batch embeddings
  ∧ processed st'
    = processed st + length (zip_with set_embedding batch embeddings)
  ∧ failed st' = failed st
  ∧ calls st' = calls st
  ∧ stdout st' = stdout st.
Proof.
  revert embeddings st.
  induction batch as [|c rest IH]; intros embeddings st.
  { simpl. by rewrite app_nil_r, Nat.add_0_r. }
  destruct embeddings as [|emb embs].
  { simpl. by rewrite app_nil_r, Nat.add_0_r. }
  cbn [embed_zip zip_with].
  destruct (IH embs (embed_chunk st c emb)) as (He & Hp & Hf & Hc & Ho).
  destruct (http_frame_embed_chunk st c emb) as (Hp' & Hf' & Hc' & Ho').
  rewrite He, Hp, Hf, Hc, Ho, http_emitted_embed_chunk, Hp', Hf', Hc', Ho',
    <- app_assoc. simpl.
  repeat split; first [done|lia].
Qed.

Lemma http_retry_no_vector st c t id :
  c !! "text" = Some t → c !! "chunk_id" = Some id →
  no_vector (svc (length (calls st)) [t]) →
  ∃ st', retry_chunk svc st c = Return st'
         ∧ output st' = output st
         ∧ failed st' = S (failed st)
         ∧ calls st' = calls st ++ [[t]]
         ∧ stdout st' = stdout st ++ [SkipChunk id].
Proof.
  intros Ht Hid Hno. unfold retry_chunk, get_embeddings_batch.
  rewrite Ht. unfold skip_chunk, getitem. rewrite Hid.
  destruct Hno as [-> | ->]; simpl; eexists; by repeat split.
Qed.

End HttpSteps.

(** Induction principle over a run of [embed_via_http.py] that ends. *)
Section HttpRunKeeps.
Import EmbedViaHttp.
Variables (svc : service) (chunks : list chunk).
Variable P : state → Prop.
Hypothesis P_embed : ∀ st c emb, P st → P (embed_chunk st c emb).
Hypothesis P_call : ∀ st texts, P st → P (get_embeddings_batch svc texts st).2.
Hypothesis P_print : ∀ st e,
  loop_event e → skip_lines [e] = [] → P st → P (print e st).
Hypothesis P_skip : ∀ st c st', skip_chunk st c = Return st' → P st → P st'.

Lemma http_retry_chunk_keeps st c st' :
  retry_chunk svc st c = Return st' → P st → P st'.
Proof.
  intros Hrun HP. unfold retry_chunk in Hrun.
  destruct (c !! "text") as [t|]; [|by eapply P_skip].
  pose proof (P_call st [t] HP) as HP'.
  unfold get_embeddings_batch in *. cbn [snd] in HP'.
  destruct (svc (length (calls st)) [t]) as [[|emb embs]|];
    [by eapply P_skip| |by eapply P_skip].
  injection Hrun as <-. by apply P_embed.
Qed.

Lemma http_fallback_keeps batch st st' :
  for_each (retry_chunk svc) st batch = Return st' → P st → P st'.
Proof.
  revert st. induction batch as [|c rest IH]; intros st; simpl.
  { by intros [= <-]. }
  destruct (retry_chunk svc st c) as [st1|e] eqn:E; simpl; [|done].
  intros Hrest HP. apply (IH st1 Hrest). by eapply http_retry_chunk_keeps.
Qed.

Lemma http_embed_zip_keeps batch embeddings st :
  P st → P (embed_zip st batch embeddings).
Proof.
  revert embeddings st.
  induction batch as [|c rest IH]; intros embeddings st HP; [done|].
  destruct embeddings as [|emb embs]; [done|]. simpl.
  by apply IH, P_embed.
Qed.

Lemma http_process_batch_keeps st i st' :
  process_batch svc chunks st i = Return st' → P st → P st'.
Proof.
  intros Hrun HP. unfold process_batch in Hrun.
  destruct (texts_of _) as [texts|e]; [|done]. cbn [result_bind] in Hrun.
  pose proof (P_call st texts HP) as HP'.
  unfold get_embeddings_batch in *. cbn [snd] in HP'.
  destruct (svc (length (calls st)) texts) as [embeddings|].
  - injection Hrun as <-. apply P_print; [done|done|].
    by apply http_embed_zip_keeps.
  - eapply http_fallback_keeps; [exact Hrun|]. by apply P_print.
Qed.

Lemma http_loop_keeps (offsets : list nat) st st' :
  for_each (process_batch svc chunks) st offsets = Return st' → P st → P st'.
Proof.
  revert st. induction offsets as [|i rest IH]; intros st; simpl.
  { by intros [= <-]. }
  destruct (process_batch svc chunks st i) as [st1|e] eqn:E; simpl; [|done].
  intros Hrest HP. apply (IH st1 Hrest). by eapply http_process_batch_keeps.
Qed.

End HttpRunKeeps.

Section HttpCounters.
Import EmbedViaHttp.
Variables (svc : service) (chunks : list chunk).

(** The failed counter counts the skip lines, all along the loop. *)
Lemma counted_loop offsets st st' :
  counted st →
  for_each (process_batch svc chunks) st offsets = Return st' → counted st'.
Proof.
  intros Hc Hrun. revert Hrun Hc. apply http_loop_keeps.
  - intros s c emb. unfold counted.
    destruct (http_frame_embed_chunk s c emb) as (_ & -> & _ & ->). done.
  - by intros s texts.
  - intros s e _ He. unfold counted. cbn [print failed stdout].
    rewrite skip_lines_snoc, He, app_nil_r. done.
  - intros s c s'. unfold skip_chunk, getitem, counted.
    destruct (c !! "chunk_id") as [id|]; simpl; [|done].
    intros [= <-] Hs. simpl. rewrite skip_lines_snoc, length_app, Hs.
    simpl. lia.
Qed.

(** The loop prints progress, error and skip lines only. *)
Lemma http_loop_events offsets st st' :
  for_each (process_batch svc chunks) st offsets = Return st' →
  Forall loop_event (stdout st) → Forall loop_event (stdout st').
Proof.
  apply (http_loop_keeps svc chunks (λ s, Forall loop_event (stdout s))).
  - intros s c emb.
    destruct (http_frame_embed_chunk s c emb) as (_ & _ & _ & ->). done.
  - by intros s texts.
  - intros s e He _ Hs. cbn [print stdout]. apply Forall_app. split; [done|].
    by constructor.
  - intros s c s'. unfold skip_chunk, getitem.
    destruct (c !! "chunk_id") as [id|]; simpl; [|done].
    intros [= <-] Hs. simpl. apply Forall_app. split; [done|].
    by constructor.
Qed.

Lemma counted_process_chunks st :
  process_chunks svc chunks = Return st → counted st.
Proof.
  intros H. destruct (http_process_chunks_inv _ _ _ H) as (st0 & Hloop & ->).
  apply counted_loop in Hloop; [|reflexivity].
  unfold counted in *.
  rewrite http_failed_finish, http_stdout_finish, Hloop.
  rewrite (skip_lines_snoc_list (stdout st0)).
  destruct (0 <? _); simpl; by rewrite Nat.add_0_r.
Qed.

End HttpCounters.

(** ** Runs in which every call succeeds *)

Section PodSuccess.
Import EmbedChunks PodView.
Variables (svc : service) (pod_id : Z) (chunks : list chunk).

(** An iteration of the main loop whose group call returns a list. *)
Lemma pod_process_batch_reply st i texts embeddings :
  let batch_chunks := take EMBED_BATCH_SIZE (drop i chunks) in
  texts_of batch_chunks = Return texts →
  svc (length (calls st)) texts = Embeddings embeddings →
  ∃ st',
    process_batch svc pod_id chunks st i = Return st'
    ∧ emitted st' = emitted st ++ zip_with set_embedding batch_chunks embeddings
    ∧ processed st'
      = processed st + length (zip_with set_embedding batch_chunks embeddings)
    ∧ calls st' = calls st ++ [texts]
    ∧ skip_lines (stdout st') = skip_lines (stdout st)
    ∧ output st'
      = output (embed_zip pod_id st batch_chunks embeddings).
Proof.
  intros batch_chunks Htexts Hr.
  unfold process_batch, get_embeddings_batch.
  fold batch_chunks. rewrite Htexts. cbn [result_bind]. rewrite Hr.
  eexists. split; [reflexivity|].
  match goal with
  | |- context [embed_zip ?p ?s ?b ?e] =>
      destruct (pod_embed_zip_spec p b e s) as (He & Hp & Hc & Ho);
      set (st2 := embed_zip p s b e) in *
  end.
  split; [exact He|]. split; [exact Hp|]. split; [exact Hc|]. split.
  - cbn [print stdout]. rewrite skip_lines_snoc, Ho. simpl.
    by rewrite app_nil_r.
  - subst st2. by apply pod_embed_zip_output.
Qed.

Hypothesis Hwf : Forall well_formed chunks.
Hypothesis Hsucc : always_succeeds svc.

Lemma pod_success_loop m a st :
  ∃ st' vectors,
    for_each (process_batch svc pod_id chunks) st
      ((λ k, k * EMBED_BATCH_SIZE) <$> seq a m) = Return st'
    ∧ emitted st'
      = emitted st
        ++ zip_with set_embedding
             (take (m * EMBED_BATCH_SIZE) (drop (a * EMBED_BATCH_SIZE) chunks))
             vectors
    ∧ length vectors
      = length (take (m * EMBED_BATCH_SIZE) (drop (a * EMBED_BATCH_SIZE) chunks))
    ∧ processed st' = processed st + length vectors
    ∧ length <$> calls st'
      = (length <$> calls st)
        ++ ((λ k, length (take EMBED_BATCH_SIZE
                            (drop (k * EMBED_BATCH_SIZE) chunks)))
              <$> seq a m)
    ∧ skip_lines (stdout st') = skip_lines (stdout st).
Proof.
  revert a st. induction m as [|m IH]; intros a st.
  { exists st, []. simpl. by rewrite !app_nil_r, Nat.add_0_r. }
  cbn [seq fmap list_fmap for_each].
  set (batch := take EMBED_BATCH_SIZE (drop (a * EMBED_BATCH_SIZE) chunks)).
  destruct (texts_of_spec batch) as (texts & Htexts & Hall);
    [by apply batch_well_formed|].
  destruct (Hsucc (length (calls st)) texts) as (embs & Hr & Hlen).
  apply Forall2_length in Hall.
  destruct (pod_process_batch_reply st (a * EMBED_BATCH_SIZE) texts embs
              Htexts Hr) as (st1 & Hst1 & He1 & Hp1 & Hc1 & Ho1 & _).
  fold batch in He1, Hp1.
  rewrite Hst1. cbn [result_bind].
  destruct (IH (S a) st1) as (st' & vectors & Hst' & He & Hv & Hp & Hc & Ho).
  exists st', (embs ++ vectors).
  assert (take (S m * EMBED_BATCH_SIZE) (drop (a * EMBED_BATCH_SIZE) chunks)
          = batch ++ take (m * EMBED_BATCH_SIZE)
                       (drop (S a * EMBED_BATCH_SIZE) chunks)) as Hsplit.
  { subst batch. rewrite (Nat.mul_succ_l m), (Nat.mul_succ_l a),
      (Nat.add_comm (m * _)), <- take_take_drop, drop_drop. reflexivity. }
  split; [exact Hst'|]. rewrite Hsplit.
  rewrite length_zip_with_l in Hp1 by lia.
  split; [|split; [|split; [|split]]].
  - rewrite He, He1, zip_with_app, app_assoc by lia. reflexivity.
  - rewrite !length_app, Hv. lia.
  - rewrite Hp, Hp1, length_app. lia.
  - rewrite Hc, Hc1, fmap_app, <- app_assoc. simpl. fold batch.
    by rewrite Hall.
  - by rewrite Ho.
Qed.

End PodSuccess.

(** With 130 chunks handed to the output, the run leaves a full file and a
    file of 30. *)
Lemma pod_layout_130 pod_id st :
  PodView.inv pod_id st →
  length (PodView.emitted st) = 130 →
  EmbedChunks.disk (EmbedChunks.save_remaining pod_id st)
  = [((pod_id, 0), take 100 (PodView.emitted st));
     ((pod_id, 1), drop 100 (PodView.emitted st))].
Proof.
  intros [Hpend Hfull Hnames _] Hlen.
  destruct st as [p fb n d c o].
  unfold PodView.emitted, EmbedChunks.save_remaining in *.
  cbn [EmbedChunks.disk EmbedChunks.file_batch EmbedChunks.file_batch_num
       EmbedChunks.save_batch] in *.
  unfold FILE_BATCH_SIZE in *.
  destruct d as [|[nm1 f1] [|[nm2 f2] d']].
  - simpl in Hlen. lia.
  - apply Forall_cons in Hfull as [Hf1 _]. cbn [snd] in Hf1.
    cbn [fmap list_fmap concat snd] in Hlen |- *.
    rewrite app_nil_r in Hlen |- *. rewrite length_app in Hlen.
    assert (n = 1) as ->.
    { apply (f_equal length) in Hnames.
      rewrite !length_fmap, length_seq in Hnames. simpl in Hnames. lia. }
    cbn in Hnames. injection Hnames as ->.
    destruct fb as [|x fb]; [simpl in Hlen; lia|].
    rewrite take_app_length' by done. rewrite drop_app_length' by done.
    reflexivity.
  - apply Forall_cons in Hfull as [Hf1 Hfull].
    apply Forall_cons in Hfull as [Hf2 _]. cbn [snd] in Hf1, Hf2.
    cbn [fmap list_fmap concat snd] in Hlen.
    rewrite !length_app in Hlen. lia.
Qed.

(** C6. On 130 well-formed chunks, with every call answered by one vector
    per text, a run issues six calls, of 25, 25, 25, 25, 25 and 5 texts,
    writes two files, numbered 0 and 1, holding the first 100 and the last
    30 chunks in input order, each with its vector, and ends with the
    processed counter at 130 and no chunk skipped (in [embed_via_http.py],
    the failed counter at 0). *)
Theorem example_130_chunks (svc : service) (chunks : list chunk) (pod_id : Z) :
  length chunks = 130 →
  Forall well_formed chunks →
  always_succeeds svc →
  ∃ st vectors,
    EmbedChunks.process_chunks svc chunks pod_id = Return st
    ∧ length <$> EmbedChunks.calls st = [25; 25; 25; 25; 25; 5]
    ∧ length vectors = 130
    ∧ EmbedChunks.disk st
      = [((pod_id, 0),
          zip_with set_embedding (take 100 chunks) (take 100 vectors));
         ((pod_id, 1),
          zip_with set_embedding (drop 100 chunks) (drop 100 vectors))]
    ∧ EmbedChunks.processed st = 130
    ∧ skip_lines (EmbedChunks.stdout st) = []
    ∧ ∃ sh,
        EmbedViaHttp.process_chunks svc chunks = Return sh
        ∧ EmbedViaHttp.calls sh = EmbedChunks.calls st
        ∧ snd <$> EmbedViaHttp.disk sh = snd <$> EmbedChunks.disk st
        ∧ EmbedViaHttp.processed sh = 130
        ∧ EmbedViaHttp.failed sh = 0.
Proof.
  intros Hlen Hwf Hsucc.
  destruct (pod_run_facts svc pod_id chunks Hwf)
    as (st0 & Hloop & Hinv & _ & _ & Hrun).
  destruct (pod_success_loop svc pod_id chunks Hwf Hsucc 6 0 EmbedChunks.init)
    as (st0' & vectors & Hloop' & He & Hv & Hp & Hc & Ho).
  rewrite Hlen in Hloop.
  change (range_step 130 EMBED_BATCH_SIZE)
    with ((λ k, k * EMBED_BATCH_SIZE) <$> seq 0 6) in Hloop.
  rewrite Hloop in Hloop'. injection Hloop' as <-.
  change (drop (0 * EMBED_BATCH_SIZE) chunks) with chunks in He, Hv.
  rewrite take_ge in He, Hv by (rewrite Hlen; unfold EMBED_BATCH_SIZE; lia).
  rewrite Hlen in Hv. cbn [PodView.emitted EmbedChunks.init app] in He.
  change (PodView.emitted EmbedChunks.init) with (@nil chunk) in He.
  rewrite app_nil_l in He.
  assert (length (PodView.emitted st0) = 130) as Hlen_out.
  { rewrite He, length_zip_with_l; lia. }
  assert (skip_lines (EmbedChunks.stdout (EmbedChunks.finish pod_id st0)) = [])
    as Hskip.
  { rewrite stdout_finish, skip_lines_snoc, Ho. reflexivity. }
  exists (EmbedChunks.finish pod_id st0), vectors.
  split; [exact Hrun|]. split.
  { rewrite calls_finish, Hc. cbn [seq fmap list_fmap app EmbedChunks.init
      EmbedChunks.calls]. rewrite !length_take, !length_drop, Hlen.
    reflexivity. }
  split; [exact Hv|]. split.
  { rewrite disk_finish, (pod_layout_130 pod_id st0 Hinv Hlen_out), He,
      zip_with_take, zip_with_drop. reflexivity. }
  split; [rewrite processed_finish, Hp, Hv; reflexivity|].
  split; [exact Hskip|].
  pose proof (same_run_process_chunks svc pod_id chunks) as Hsim.
  rewrite Hrun in Hsim.
  destruct (EmbedViaHttp.process_chunks svc chunks) as [sh|e] eqn:Hhttp;
    [|done].
  cbn [result_rel] in Hsim. exists sh. split; [reflexivity|].
  pose proof (same_run_contents _ _ _ Hsim) as Hcont.
  pose proof (counted_process_chunks _ _ _ Hhttp) as Hcount.
  destruct Hsim as (Hp' & _ & _ & _ & Hc' & Ho').
  split; [by rewrite Hc'|]. split; [by rewrite Hcont|].
  split; [rewrite <- Hp', processed_finish, Hp, Hv; reflexivity|].
  unfold counted in Hcount. by rewrite Hcount, <- Ho', Hskip.
Qed.

Lemma example_130_chunks_witness :
  let chunks := (λ k, sample_chunk "c" "text") <$> seq 0 130 in
  ∃ st,
    EmbedChunks.process_chunks sample_service chunks 0 = Return st
    ∧ length <$> EmbedChunks.calls st = [25; 25; 25; 25; 25; 5]
    ∧ length <$> (snd <$> EmbedChunks.disk st) = [100; 30]
    ∧ EmbedChunks.processed st = 130.
Proof.
  intros chunks.
  assert (length chunks = 130) as Hlen by reflexivity.
  assert (Forall well_formed chunks) as Hwf.
  { apply Forall_fmap, Forall_forall. intros k _.
    apply sample_chunk_well_formed. }
  assert (always_succeeds sample_service) as Hsucc.
  { intros n texts. eexists. split; [reflexivity|]. by rewrite length_fmap. }
  destruct (example_130_chunks sample_service chunks 0 Hlen Hwf Hsucc)
    as (st & vectors & Hrun & Hcalls & Hv & Hdisk & Hp & _).
  exists st. split; [exact Hrun|]. split; [exact Hcalls|].
  split; [|exact Hp].
  rewrite Hdisk. cbn [fmap list_fmap snd].
  rewrite !length_zip_with, length_take, !length_drop, !length_take, Hlen, Hv.
  reflexivity.
Defined.

(** ** Two endpoints that differ by a shift of the call numbers *)

Section PodCalls.
Import EmbedChunks.
Variables (svc : service) (pod_id : Z).

Lemma calls_retry_chunk st c st' :
  retry_chunk svc pod_id st c = Return st' →
  length (calls st) ≤ length (calls st').
Proof.
  unfold retry_chunk, get_embeddings_batch, skip_chunk, getitem.
  destruct (c !! "text") as [t|].
  - destruct (svc (length (calls st)) [t]) as [[|emb embs]|];
      try (destruct (c !! "chunk_id"); simpl; [|done]);
      intros [= <-]; rewrite ?calls_embed_chunk; simpl;
      rewrite length_app; simpl; lia.
  - destruct (c !! "chunk_id"); simpl; [|done]. by intros [= <-].
Qed.

Lemma calls_fallback batch st st' :
  for_each (retry_chunk svc pod_id) st batch = Return st' →
  length (calls st) ≤ length (calls st').
Proof.
  revert st. induction batch as [|c rest IH]; intros st; simpl.
  { by intros [= <-]. }
  destruct (retry_chunk svc pod_id st c) as [st1|e] eqn:E; simpl; [|done].
  intros H. apply calls_retry_chunk in E. apply IH in H. lia.
Qed.

Lemma calls_process_batch chunks st i st' :
  process_batch svc pod_id chunks st i = Return st' →
  length (calls st) < length (calls st').
Proof.
  unfold process_batch, get_embeddings_batch.
  destruct (texts_of _) as [texts|e]; [|done]. cbn [result_bind].
  destruct (svc (length (calls st)) texts) as [embeddings|].
  - intros [= <-].
    match goal with
    | |- context [embed_zip ?p ?s ?b ?e] =>
        destruct (pod_embed_zip_spec p b e s) as (_ & _ & Hc & _)
    end.
    cbn [print calls]. rewrite Hc. simpl. rewrite length_app. simpl. lia.
  - intros H. apply calls_fallback in H. simpl in H.
    rewrite length_app in H. simpl in H. lia.
Qed.

Lemma calls_loop chunks offsets st st' :
  for_each (process_batch svc pod_id chunks) st offsets = Return st' →
  length (calls st) ≤ length (calls st').
Proof.
  revert st. induction offsets as [|i rest IH]; intros st; simpl.
  { by intros [= <-]. }
  destruct (process_batch svc pod_id chunks st i) as [st1|e] eqn:E; simpl;
    [|done].
  intros H. apply calls_process_batch in E. apply IH in H. lia.
Qed.

End PodCalls.

Section PodShift.
Import EmbedChunks PodView.
Variables (svc1 svc2 : service) (pod_id : Z) (d L K : nat).
Hypothesis Hagree : ∀ n texts, L ≤ n < K → svc1 n texts = svc2 (n + d) texts.

Lemma related_embed_chunk st1 st2 c emb :
  related d L st1 st2 →
  related d L (embed_chunk pod_id st1 c emb) (embed_chunk pod_id st2 c emb).
Proof.
  intros (Hout & Hskip & Hlen & HL). unfold related.
  rewrite !stdout_embed_chunk, !calls_embed_chunk.
  split; [by apply pod_embed_chunk_output|done].
Qed.

Lemma related_embed_zip batch embeddings st1 st2 :
  related d L st1 st2 →
  related d L (embed_zip pod_id st1 batch embeddings)
              (embed_zip pod_id st2 batch embeddings).
Proof.
  revert embeddings st1 st2.
  induction batch as [|c rest IH]; intros embeddings st1 st2 H; [done|].
  destruct embeddings as [|emb embs]; [done|]. cbn [embed_zip].
  by apply IH, related_embed_chunk.
Qed.

Lemma related_print st1 st2 e1 e2 :
  skip_lines [e1] = skip_lines [e2] →
  related d L st1 st2 → related d L (print e1 st1) (print e2 st2).
Proof.
  intros He (Hout & Hskip & Hlen & HL). split; [exact Hout|].
  split; [|done]. cbn [print stdout]. by rewrite !skip_lines_snoc, Hskip, He.
Qed.

Lemma related_call st1 st2 texts :
  related d L st1 st2 →
  related d L (get_embeddings_batch svc1 texts st1).2
              (get_embeddings_batch svc2 texts st2).2.
Proof.
  intros (Hout & Hskip & Hlen & HL). split; [exact Hout|].
  split; [exact Hskip|]. cbn [get_embeddings_batch snd calls].
  rewrite !length_app. simpl. lia.
Qed.

Lemma related_reply st1 st2 texts :
  related d L st1 st2 → length (calls st1) < K →
  (get_embeddings_batch svc2 texts st2).1
  = (get_embeddings_batch svc1 texts st1).1.
Proof.
  intros (_ & _ & Hlen & HL) HK. cbn [get_embeddings_batch fst].
  rewrite Hlen. symmetry. apply Hagree. lia.
Qed.

Lemma related_skip_chunk st1 st2 c st1' :
  related d L st1 st2 → skip_chunk st1 c = Return st1' →
  ∃ st2', skip_chunk st2 c = Return st2' ∧ related d L st1' st2'.
Proof.
  intros H. unfold skip_chunk, getitem.
  destruct (c !! "chunk_id") as [id|]; simpl; [|done].
  intros [= <-]. eexists. split; [reflexivity|]. by apply related_print.
Qed.

Lemma related_retry_chunk st1 st2 c st1' :
  related d L st1 st2 →
  retry_chunk svc1 pod_id st1 c = Return st1' →
  length (calls st1') ≤ K →
  ∃ st2', retry_chunk svc2 pod_id st2 c = Return st2' ∧ related d L st1' st2'.
Proof.
  intros H Hrun HK. unfold retry_chunk in *.
  destruct (c !! "text") as [t|]; [|by eapply related_skip_chunk].
  pose proof (related_call st1 st2 [t] H) as Hcall.
  assert (length (calls st1) < K) as Hlt.
  { assert (length (calls (get_embeddings_batch svc1 [t] st1).2)
            ≤ length (calls st1')) as Hmono.
    { destruct (get_embeddings_batch svc1 [t] st1) as [r s1].
      destruct r as [[|emb embs]|]; cbn [snd].
      - unfold skip_chunk, getitem in Hrun.
        destruct (c !! "chunk_id"); simpl in Hrun; [|done].
        by injection Hrun as <-.
      - injection Hrun as <-. by rewrite calls_embed_chunk.
      - unfold skip_chunk, getitem in Hrun.
        destruct (c !! "chunk_id"); simpl in Hrun; [|done].
        by injection Hrun as <-. }
    cbn [get_embeddings_batch snd calls] in Hmono.
    rewrite length_app in Hmono. simpl in Hmono. lia. }
  pose proof (related_reply st1 st2 [t] H Hlt) as Hreply.
  destruct (get_embeddings_batch svc1 [t] st1) as [r1 s1].
  destruct (get_embeddings_batch svc2 [t] st2) as [r2 s2].
  cbn [fst snd] in *. subst r2.
  destruct r1 as [[|emb embs]|].
  - by eapply related_skip_chunk.
  - injection Hrun as <-. eexists. split; [reflexivity|].
    by apply related_embed_chunk.
  - by eapply related_skip_chunk.
Qed.

Lemma related_fallback batch st1 st2 st1' :
  related d L st1 st2 →
  for_each (retry_chunk svc1 pod_id) st1 batch = Return st1' →
  length (calls st1') ≤ K →
  ∃ st2', for_each (retry_chunk svc2 pod_id) st2 batch = Return st2'
          ∧ related d L st1' st2'.
Proof.
  revert st1 st2. induction batch as [|c rest IH]; intros st1 st2 H; simpl.
  { intros [= <-] _. by exists st2. }
  destruct (retry_chunk svc1 pod_id st1 c) as [s1|e] eqn:E; simpl; [|done].
  intros Hrest HK.
  destruct (related_retry_chunk st1 st2 c s1 H E) as (s2 & E2 & H').
  { apply calls_fallback in Hrest. lia. }
  rewrite E2. simpl. by apply (IH s1 s2).
Qed.

Lemma related_process_batch chunks st1 st2 i st1' :
  related d L st1 st2 →
  process_batch svc1 pod_id chunks st1 i = Return st1' →
  length (calls st1') ≤ K →
  ∃ st2', process_batch svc2 pod_id chunks st2 i = Return st2'
          ∧ related d L st1' st2'.
Proof.
  intros H Hrun HK.
  pose proof (calls_process_batch _ _ _ _ _ _ Hrun) as Hlt.
  unfold process_batch in *.
  destruct (texts_of _) as [texts|e]; [|done]. cbn [result_bind] in *.
  pose proof (related_call st1 st2 texts H) as Hcall.
  pose proof (related_reply st1 st2 texts H ltac:(lia)) as Hreply.
  destruct (get_embeddings_batch svc1 texts st1) as [r1 s1].
  destruct (get_embeddings_batch svc2 texts st2) as [r2 s2].
  cbn [fst snd] in *. subst r2.
  destruct r1 as [embeddings|].
  - injection Hrun as <-. eexists. split; [reflexivity|].
    apply related_print; [done|]. by apply related_embed_zip.
  - eapply related_fallback; [|exact Hrun|exact HK].
    by apply related_print.
Qed.

Lemma related_loop chunks offsets st1 st2 st1' :
  related d L st1 st2 →
  for_each (process_batch svc1 pod_id chunks) st1 offsets = Return st1' →
  length (calls st1') ≤ K →
  ∃ st2', for_each (process_batch svc2 pod_id chunks) st2 offsets = Return st2'
          ∧ related d L st1' st2'.
Proof.
  revert st1 st2. induction offsets as [|i rest IH]; intros st1 st2 H; simpl.
  { intros [= <-] _. by exists st2. }
  destruct (process_batch svc1 pod_id chunks st1 i) as [s1|e] eqn:E; simpl;
    [|done].
  intros Hrest HK.
  destruct (related_process_batch chunks st1 st2 i s1 H E) as (s2 & E2 & H').
  { apply calls_loop in Hrest. lia. }
  rewrite E2. simpl. by apply (IH s1 s2).
Qed.

End PodShift.

(** ** Fallback against group success *)

Section PodFallback.
Import EmbedChunks PodView.
Variables (svc : service) (pod_id : Z).

(** A fallback loop in which every single call returns a vector leaves
    what the loop over the zipped group leaves. *)
Lemma pod_fallback_all_vectors batch texts embeddings st :
  Forall2 (λ c t, c !! "text" = Some t) batch texts →
  length batch ≤ length embeddings →
  (∀ j t e, texts !! j = Some t → embeddings !! j = Some e →
            ∃ rest, svc (length (calls st) + j) [t] = Embeddings (e :: rest)) →
  ∃ st',
    for_each (retry_chunk svc pod_id) st batch = Return st'
    ∧ output st' = output (embed_zip pod_id st batch embeddings)
    ∧ length (calls st') = length (calls st) + length batch
    ∧ skip_lines (stdout st') = skip_lines (stdout st).
Proof.
  intros Hall. revert embeddings st.
  induction Hall as [|c t batch texts Ht Hall IH]; intros embeddings st Hlen Hsvc.
  { exists st. simpl. by rewrite Nat.add_0_r. }
  destruct embeddings as [|e embs]; [simpl in Hlen; lia|].
  destruct (Hsvc 0 t e eq_refl eq_refl) as (rest & Hr).
  rewrite Nat.add_0_r in Hr.
  destruct (pod_retry_vector svc pod_id st c t e rest Ht Hr)
    as (st1 & Hst1 & Hout1 & Hc1 & Ho1).
  destruct (IH embs st1) as (st' & Hst' & Hout & Hc & Ho).
  { simpl in Hlen. lia. }
  { intros j t' e' Hj He'. rewrite Hc1, length_app. simpl.
    replace (length (calls st) + 1 + j) with (length (calls st) + S j) by lia.
    by apply Hsvc. }
  exists st'. cbn [for_each]. rewrite Hst1. cbn [result_bind].
  split; [exact Hst'|]. split; [|split].
  - rewrite Hout. cbn [embed_zip]. by apply pod_embed_zip_output.
  - rewrite Hc, Hc1, length_app. simpl. lia.
  - by rewrite Ho, Ho1.
Qed.

Lemma output_finish st1 st2 :
  output st1 = output st2 →
  output (finish pod_id st1) = output (finish pod_id st2).
Proof.
  destruct st1 as [p1 fb1 n1 d1 c1 o1], st2 as [p2 fb2 n2 d2 c2 o2].
  unfold output, finish, print_summary, save_remaining, save_batch.
  cbn [processed file_batch file_batch_num disk].
  intros [= -> -> -> ->]. by destruct fb2.
Qed.

End PodFallback.

Lemma same_run_disk pod_id sp sh :
  same_run pod_id sp sh →
  EmbedViaHttp.disk sh
  = (λ f : (Z * nat) * list chunk, (f.1.2, f.2)) <$> EmbedChunks.disk sp.
Proof.
  intros (_ & _ & _ & Hd & _). rewrite Hd, <- list_fmap_compose.
  symmetry. etrans; [|apply list_fmap_id].
  apply list_fmap_ext. by intros j [n f] _.
Qed.

Lemma skip_lines_finish pod_id st :
  skip_lines (EmbedChunks.stdout (EmbedChunks.finish pod_id st))
  = skip_lines (EmbedChunks.stdout st).
Proof. rewrite stdout_finish, skip_lines_snoc. simpl. apply app_nil_r. Qed.

(** C5. Take a run A in which the call for the group at offset [i]
    returns at least one vector per chunk, and a run B on the same input
    whose endpoint answers as in A before that call, fails that call,
    answers the single call for each chunk of the group with the vector A
    got for it, and from then on answers as in A.  Both runs end, with the
    same files in the same order, the same processed counter and file
    count, and no more skipped chunks in one than in the other; the same
    holds of [embed_via_http.py], failed counter included. *)
Theorem fallback_matches_group_success
    (svcA svcB : service) (chunks : list chunk) (pod_id : Z) (g i : nat)
    (stg : EmbedChunks.state) (texts embeddings : list json) :
  let offsets := range_step (length chunks) EMBED_BATCH_SIZE in
  let batch_chunks := take EMBED_BATCH_SIZE (drop i chunks) in
  let k := length (EmbedChunks.calls stg) in
  Forall well_formed chunks →
  offsets !! g = Some i →
  for_each (EmbedChunks.process_batch svcA pod_id chunks) EmbedChunks.init
    (take g offsets) = Return stg →
  texts_of batch_chunks = Return texts →
  svcA k texts = Embeddings embeddings →
  length batch_chunks ≤ length embeddings →
  (∀ n req, n < k → svcB n req = svcA n req) →
  svcB k texts = CallFailed →
  (∀ j t e, texts !! j = Some t → embeddings !! j = Some e →
            ∃ rest, svcB (k + 1 + j) [t] = Embeddings (e :: rest)) →
  (∀ n req, k + 1 ≤ n → svcB (n + length batch_chunks) req = svcA n req) →
  (∃ stA stB,
      EmbedChunks.process_chunks svcA chunks pod_id = Return stA
      ∧ EmbedChunks.process_chunks svcB chunks pod_id = Return stB
      ∧ EmbedChunks.disk stA = EmbedChunks.disk stB
      ∧ EmbedChunks.processed stA = EmbedChunks.processed stB
      ∧ EmbedChunks.file_batch_num stA = EmbedChunks.file_batch_num stB
      ∧ skip_lines (EmbedChunks.stdout stA)
        = skip_lines (EmbedChunks.stdout stB))
  ∧ (∃ shA shB,
      EmbedViaHttp.process_chunks svcA chunks = Return shA
      ∧ EmbedViaHttp.process_chunks svcB chunks = Return shB
      ∧ EmbedViaHttp.disk shA = EmbedViaHttp.disk shB
      ∧ EmbedViaHttp.processed shA = EmbedViaHttp.processed shB
      ∧ EmbedViaHttp.file_batch_num shA = EmbedViaHttp.file_batch_num shB
      ∧ EmbedViaHttp.failed shA = EmbedViaHttp.failed shB).
Proof.
  intros offsets batch_chunks k Hwf Hg Hpre Htexts HA Hlen Hbefore HBfail
    HBsingle Hafter.
  pose proof (take_drop_middle offsets g i Hg) as Hsplit.
  (* run A: the group, then the rest *)
  destruct (pod_process_batch_reply svcA pod_id chunks stg i texts embeddings
              Htexts HA) as (stA1 & HstA1 & _ & _ & HcA1 & HoA1 & HoutA1).
  destruct (pod_loop_ind svcA pod_id chunks (λ _, True)
              ltac:(done) ltac:(done) ltac:(done) stA1 (drop (S g) offsets)
              Hwf I) as (stA2 & HstA2 & _).
  assert (EmbedChunks.process_chunks svcA chunks pod_id
          = Return (EmbedChunks.finish pod_id stA2)) as HrunA.
  { unfold EmbedChunks.process_chunks. fold offsets.
    rewrite <- Hsplit, for_each_app, Hpre. cbn [result_bind for_each].
    rewrite HstA1. cbn [result_bind]. by rewrite HstA2. }
  (* run B: the groups before *)
  assert (∀ n req, 0 ≤ n < k → svcA n req = svcB (n + 0) req) as Hagree0.
  { intros n req [_ Hn]. rewrite Nat.add_0_r. symmetry. by apply Hbefore. }
  assert (related 0 0 EmbedChunks.init EmbedChunks.init) as Hrel0.
  { repeat split; simpl; lia. }
  destruct (related_loop svcA svcB pod_id 0 0 k Hagree0 chunks (take g offsets)
              EmbedChunks.init EmbedChunks.init stg Hrel0 Hpre (Nat.le_refl _))
    as (stBg & HstBg & HoutBg & HskipBg & HcBg & _).
  rewrite Nat.add_0_r in HcBg. fold k in HcBg.
  (* run B: the group, by fallback *)
  set (sB0 := EmbedChunks.print (ErrorAtBatch i)
                (EmbedChunks.get_embeddings_batch svcB texts stBg).2).
  destruct (pod_fallback_all_vectors svcB pod_id batch_chunks texts embeddings
              sB0) as (stB1 & HstB1 & HoutB1 & HcB1 & HoB1).
  { by apply texts_of_inv. }
  { exact Hlen. }
  { intros j t e Hj He. subst sB0.
    cbn [EmbedChunks.print EmbedChunks.get_embeddings_batch snd
         EmbedChunks.calls].
    rewrite length_app, HcBg. simpl. by apply HBsingle. }
  assert (EmbedChunks.process_batch svcB pod_id chunks stBg i = Return stB1)
    as HgroupB.
  { unfold EmbedChunks.process_batch. fold batch_chunks.
    rewrite Htexts. cbn [result_bind].
    unfold EmbedChunks.get_embeddings_batch at 1. rewrite HcBg, HBfail.
    exact HstB1. }
  assert (related (length batch_chunks) (k + 1) stA1 stB1) as Hrel1.
  { split; [|split; [|split]].
    - rewrite HoutA1, HoutB1. apply pod_embed_zip_output. exact HoutBg.
    - rewrite HoA1, HoB1. subst sB0.
      cbn [EmbedChunks.print EmbedChunks.stdout
           EmbedChunks.get_embeddings_batch snd].
      rewrite skip_lines_snoc. simpl. by rewrite app_nil_r.
    - rewrite HcB1, HcA1. subst sB0.
      cbn [EmbedChunks.print EmbedChunks.get_embeddings_batch snd
           EmbedChunks.calls].
      rewrite !length_app, HcBg. simpl. fold k. lia.
    - rewrite HcA1, length_app. simpl. fold k. lia. }
  (* run B: the groups after *)
  assert (∀ n req, k + 1 ≤ n < length (EmbedChunks.calls stA2) →
            svcA n req = svcB (n + length batch_chunks) req) as Hagree1.
  { intros n req [Hn _]. symmetry. by apply Hafter. }
  destruct (related_loop svcA svcB pod_id (length batch_chunks) (k + 1)
              (length (EmbedChunks.calls stA2)) Hagree1 chunks
              (drop (S g) offsets) stA1 stB1 stA2 Hrel1 HstA2 (Nat.le_refl _))
    as (stB2 & HstB2 & HoutB2 & HskipB2 & _).
  assert (EmbedChunks.process_chunks svcB chunks pod_id
          = Return (EmbedChunks.finish pod_id stB2)) as HrunB.
  { unfold EmbedChunks.process_chunks. fold offsets.
    rewrite <- Hsplit, for_each_app, HstBg. cbn [result_bind for_each].
    rewrite HgroupB. cbn [result_bind]. by rewrite HstB2. }
  pose proof (output_finish pod_id stA2 stB2 HoutB2) as Hfin.
  assert (EmbedChunks.disk (EmbedChunks.finish pod_id stA2)
          = EmbedChunks.disk (EmbedChunks.finish pod_id stB2)) as Hd
    by (by injection Hfin).
  assert (EmbedChunks.processed (EmbedChunks.finish pod_id stA2)
          = EmbedChunks.processed (EmbedChunks.finish pod_id stB2)) as Hp
    by (by injection Hfin).
  assert (EmbedChunks.file_batch_num (EmbedChunks.finish pod_id stA2)
          = EmbedChunks.file_batch_num (EmbedChunks.finish pod_id stB2)) as Hn
    by (by injection Hfin).
  assert (skip_lines (EmbedChunks.stdout (EmbedChunks.finish pod_id stA2))
          = skip_lines (EmbedChunks.stdout (EmbedChunks.finish pod_id stB2)))
    as Hskip by (by rewrite !skip_lines_finish).
  split.
  { by exists (EmbedChunks.finish pod_id stA2), (EmbedChunks.finish pod_id stB2). }
  pose proof (same_run_process_chunks svcA pod_id chunks) as HsimA.
  pose proof (same_run_process_chunks svcB pod_id chunks) as HsimB.
  rewrite HrunA in HsimA. rewrite HrunB in HsimB.
  destruct (EmbedViaHttp.process_chunks svcA chunks) as [shA|eA] eqn:HhA;
    [|done].
  destruct (EmbedViaHttp.process_chunks svcB chunks) as [shB|eB] eqn:HhB;
    [|done].
  cbn [result_rel] in HsimA, HsimB. exists shA, shB.
  split; [reflexivity|]. split; [reflexivity|].
  pose proof (same_run_disk _ _ _ HsimA) as HdA.
  pose proof (same_run_disk _ _ _ HsimB) as HdB.
  pose proof (counted_process_chunks _ _ _ HhA) as HfA.
  pose proof (counted_process_chunks _ _ _ HhB) as HfB.
  destruct HsimA as (HpA & _ & HnA & _ & _ & HoA).
  destruct HsimB as (HpB & _ & HnB & _ & _ & HoB).
  split; [by rewrite HdA, HdB, Hd|].
  split; [by rewrite <- HpA, <- HpB|].
  split; [by rewrite <- HnA, <- HnB|].
  unfold counted in HfA, HfB. by rewrite HfA, HfB, <- HoA, <- HoB, Hskip.
Qed.

Lemma fallback_matches_group_success_witness :
  let chunks := [sample_chunk "a" "alpha"; sample_chunk "b" "beta"] in
  ∃ stA stB,
    EmbedChunks.process_chunks sample_service chunks 0 = Return stA
    ∧ EmbedChunks.process_chunks retry_service chunks 0 = Return stB
    ∧ EmbedChunks.disk stA = EmbedChunks.disk stB
    ∧ EmbedChunks.processed stA = EmbedChunks.processed stB.
Proof.
  intros chunks.
  assert (Forall well_formed chunks) as Hwf
    by (repeat constructor; apply sample_chunk_well_formed).
  assert (∀ j t e,
            [JStr "alpha"; JStr "beta"] !! j = Some t →
            [sample_vector; sample_vector] !! j = Some e →
            ∃ rest, retry_service (0 + 1 + j) [t] = Embeddings (e :: rest))
    as Hsingle.
  { intros [|[|j]] t e Ht He; simpl in Ht, He; try discriminate;
      injection He as <-; by exists []. }
  assert (∀ n req, 0 + 1 ≤ n →
            retry_service (n + length (take EMBED_BATCH_SIZE (drop 0 chunks)))
              req = sample_service n req) as Hafter.
  { intros [|n] req Hn; [lia|]. reflexivity. }
  destruct (fallback_matches_group_success sample_service retry_service chunks
              0 0 0 EmbedChunks.init [JStr "alpha"; JStr "beta"]
              [sample_vector; sample_vector]
              Hwf eq_refl eq_refl eq_refl eq_refl (Nat.le_refl _)
              ltac:(intros n req Hn; simpl in Hn; lia) eq_refl Hsingle Hafter)
    as [(stA & stB & HA & HB & Hd & Hp & _) _].
  by exists stA, stB.
Defined.

(** * Further properties *)

(** ** Loading *)

Lemma parse_all_records (records : list chunk) :
  parse_all (Record <$> records) = Return records.
Proof.
  induction records as [|r records IH]; [reflexivity|].
  cbn [fmap list_fmap parse_all json_loads result_bind].
  change (list_fmap chunk line Record records) with (Record <$> records).
  by rewrite IH.
Qed.

Lemma parse_all_inv lines records :
  parse_all lines = Return records → lines = Record <$> records.
Proof.
  revert records. induction lines as [|l lines IH]; intros records; simpl.
  { by intros [= <-]. }
  destruct l as [raw|c]; simpl; [done|].
  destruct (parse_all lines) as [cs|e]; simpl; [|done].
  intros [= <-]. by rewrite (IH cs eq_refl).
Qed.

Lemma parse_all_garbled lines :
  Exists (λ l, is_garbled l = true) lines ↔ parse_all lines = Raise JSONDecodeError.
Proof.
  induction lines as [|l lines IH]; simpl.
  { split; [by intros H; apply Exists_nil in H|done]. }
  destruct l as [raw|c]; simpl.
  { split; [done|]. intros _. by apply Exists_cons_hd. }
  rewrite Exists_cons. destruct (parse_all lines) as [cs|e]; simpl.
  - split; [|done]. intros [H|H]; [done|]. by apply IH in H.
  - split; intros H.
    + destruct H as [H|H]; [done|]. by apply IH in H.
    + right. apply IH. by injection H as ->.
Qed.

Lemma take_count_cons {A} count have (x : A) (l : list A) :
  (∀ n, count = Some n → have < Z.to_nat n) →
  take_count count have (x :: l) = x :: take_count count (have + 1) l.
Proof.
  destruct count as [n|]; simpl; [|done].
  intros Hc. specialize (Hc n eq_refl).
  replace (Z.to_nat n - have) with (S (Z.to_nat n - (have + 1))) by lia.
  reflexivity.
Qed.

Lemma count_not_reached count (chunks : list chunk) :
  count_reached count chunks = false →
  ∀ n, count = Some n → length chunks < Z.to_nat n.
Proof. intros Hc n ->. simpl in Hc. apply Z.leb_gt in Hc. lia. Qed.

Lemma v1_load_loop_exact offset count i lines chunks :
  (∀ n, count = Some n → length chunks ≤ Z.to_nat n) →
  EmbedChunks.load_loop offset count i lines chunks
  = do rest <- parse_all (take_count count (length chunks)
                            (drop (Z.to_nat offset - i) lines));
    Return (chunks ++ rest).
Proof.
  revert i chunks.
  induction lines as [|l lines IH]; intros i chunks Hhave.
  { cbn [EmbedChunks.load_loop]. rewrite drop_nil.
    assert (take_count count (length chunks) (@nil line) = []) as ->
      by (destruct count; simpl; by rewrite ?take_nil).
    simpl. by rewrite app_nil_r. }
  cbn [EmbedChunks.load_loop].
  destruct (Z.of_nat i <? offset)%Z eqn:Hlt.
  - apply Z.ltb_lt in Hlt. rewrite IH by done.
    replace (Z.to_nat offset - i) with (S (Z.to_nat offset - S i)) by lia.
    reflexivity.
  - apply Z.ltb_ge in Hlt.
    replace (Z.to_nat offset - i) with 0 by lia. rewrite drop_0.
    destruct (count_reached count chunks) eqn:Hc.
    + apply count_reached_spec in Hc as (n & -> & Hn).
      specialize (Hhave n eq_refl). simpl.
      replace (Z.to_nat n - length chunks) with 0 by lia.
      rewrite take_0. simpl. by rewrite app_nil_r.
    + rewrite take_count_cons by (by apply count_not_reached).
      destruct l as [raw|c]; [reflexivity|].
      cbn [json_loads result_bind parse_all]. rewrite IH.
      * replace (Z.to_nat offset - S i) with 0 by lia.
        rewrite drop_0, length_app. simpl.
        destruct (parse_all _) as [cs|e]; simpl; [|done].
        by rewrite <- app_assoc.
      * intros n Hn. apply (count_not_reached _ _ Hc) in Hn.
        rewrite length_app. simpl. lia.
Qed.

(** X1. [load_chunks] parses exactly the lines of the raw window, the
    [count] lines from position [offset] on, and nothing else: it returns
    them in order, or raises on the first of them that is not JSON.  A
    negative offset starts at the first line, a count below one loads
    nothing, and an offset past the end loads nothing. *)
Theorem load_chunks_parses_raw_window
    (lines : list line) (offset : Z) (count : option Z) :
  EmbedChunks.load_chunks lines offset count
  = parse_all (take_count count 0 (drop (Z.to_nat offset) lines))
  ∧ ((offset ≤ 0)%Z →
     EmbedChunks.load_chunks lines offset count
     = EmbedChunks.load_chunks lines 0 count)
  ∧ (∀ n, count = Some n → (n ≤ 0)%Z →
          EmbedChunks.load_chunks lines offset count = Return [])
  ∧ ((Z.of_nat (length lines) ≤ offset)%Z →
     EmbedChunks.load_chunks lines offset count = Return []).
Proof.
  assert (∀ o, EmbedChunks.load_chunks lines o count
               = parse_all (take_count count 0 (drop (Z.to_nat o) lines)))
    as Hexact.
  { intros o. unfold EmbedChunks.load_chunks.
    rewrite v1_load_loop_exact by (intros n _; simpl; lia).
    rewrite Nat.sub_0_r. simpl. by destruct (parse_all _). }
  split; [apply Hexact|]. split; [|split].
  - intros Ho. rewrite !Hexact. by replace (Z.to_nat offset) with 0 by lia.
  - intros n -> Hn. rewrite Hexact. simpl.
    by replace (Z.to_nat n - 0) with 0 by lia.
  - intros Ho. rewrite Hexact, drop_ge by lia.
    destruct count; simpl; by rewrite ?take_nil.
Qed.

Lemma load_chunks_parses_raw_window_witness :
  let a := sample_chunk "a" "alpha" in
  let b := sample_chunk "b" "beta" in
  EmbedChunks.load_chunks [Record a; Garbled "{oops"; Record b] (-3) (Some 1%Z)
  = EmbedChunks.load_chunks [Record a; Garbled "{oops"; Record b] 0 (Some 1%Z)
  ∧ EmbedChunks.load_chunks [Record a; Record b] 5 None = Return [].
Proof.
  intros a b. split.
  - apply (load_chunks_parses_raw_window
             [Record a; Garbled "{oops"; Record b] (-3) (Some 1%Z)). lia.
  - apply (load_chunks_parses_raw_window [Record a; Record b] 5 None).
    simpl. lia.
Defined.

Lemma usable_unusable_length (records : list chunk) :
  length (filter (λ c, is_indexable c = true) records)
  + length (unusable records) = length records.
Proof.
  unfold unusable. induction records as [|r records IH]; [reflexivity|].
  destruct (is_indexable r) eqn:Hr.
  - rewrite filter_cons_True, filter_cons_False by (by rewrite ?Hr).
    simpl. lia.
  - rewrite filter_cons_False, filter_cons_True by (by rewrite ?Hr).
    simpl. lia.
Qed.

Lemma http_load_loop_exact lines chunks skipped :
  EmbedViaHttp.load_loop lines chunks skipped
  = do records <- parse_all lines;
    Return (chunks ++ filter (λ c, is_indexable c = true) records,
            skipped + length (unusable records)).
Proof.
  revert chunks skipped.
  induction lines as [|l lines IH]; intros chunks skipped.
  { simpl. by rewrite app_nil_r, Nat.add_0_r. }
  destruct l as [raw|c]; [reflexivity|].
  cbn [EmbedViaHttp.load_loop json_loads result_bind parse_all].
  unfold unusable in *.
  destruct (is_indexable c) eqn:Hc; rewrite IH;
    destruct (parse_all lines) as [records|e]; simpl; try done.
  - rewrite filter_cons_True, filter_cons_False by (by rewrite ?Hc).
    by rewrite <- app_assoc.
  - rewrite filter_cons_False, filter_cons_True by (by rewrite ?Hc).
    simpl. do 2 f_equal. lia.
Qed.

(** X2. [load_indexable_chunks] of [embed_via_http.py] reads every line of
    the store.  When every line holds a JSON object it returns the usable
    records in store order, together with the number of records flagged as
    not usable, so that the two counts add up to the number of lines.
    Otherwise it raises at the first line that holds no JSON object: a
    parse error when that line is not JSON, an attribute error, from
    [chunk.get], when it holds another JSON value. *)
Theorem http_load_splits_store (lines : list any_line) :
  EmbedViaHttpFull.load_indexable_chunks lines
  = (do records <- dicts_all lines;
     Return (filter (λ c, is_indexable c = true) records,
             length (unusable records)))
  ∧ (∀ chunks skipped,
       EmbedViaHttpFull.load_indexable_chunks lines = Return (chunks, skipped) →
       length chunks + skipped = length lines
       ∧ Forall (λ c, is_indexable c = true) chunks
       ∧ Forall (λ l, is_object l = true) lines)
  ∧ (∀ e,
       EmbedViaHttpFull.load_indexable_chunks lines = Raise e →
       ∃ (records : list chunk) l rest,
         lines = (Object <$> records) ++ l :: rest
         ∧ is_object l = false ∧ e = error_of l).
Proof.
  assert (EmbedViaHttpFull.load_indexable_chunks lines
          = (do records <- dicts_all lines;
             Return (filter (λ c, is_indexable c = true) records,
                     length (unusable records)))) as Hexact.
  { unfold EmbedViaHttpFull.load_indexable_chunks.
    by rewrite full_http_load_loop_exact. }
  split; [exact Hexact|]. rewrite Hexact. split.
  - intros chunks skipped.
    destruct (dicts_all lines) as [records|e] eqn:Hp; simpl; [|done].
    intros [= <- <-]. apply dicts_all_inv in Hp as ->.
    rewrite length_fmap, usable_unusable_length. split; [done|]. split.
    + apply Forall_forall. intros c Hc.
      by apply list_elem_of_filter in Hc as [? _].
    + apply Forall_fmap, Forall_forall. by intros.
  - intros e. destruct (dicts_all lines) as [records|e'] eqn:Hp; simpl; [done|].
    intros [= <-]. by apply dicts_all_raise.
Qed.

Lemma http_load_splits_store_witness :
  let lines := [Object (sample_chunk "a" "alpha");
                Object (sample_unusable "b" "beta");
                Object (sample_chunk "c" "gamma")] in
  EmbedViaHttpFull.load_indexable_chunks lines
  = Return ([sample_chunk "a" "alpha"; sample_chunk "c" "gamma"], 1)
  ∧ 2 + 1 = length lines.
Proof.
  intros lines.
  assert (EmbedViaHttpFull.load_indexable_chunks lines
          = Return ([sample_chunk "a" "alpha"; sample_chunk "c" "gamma"], 1))
    as Hload by (by vm_compute).
  split; [exact Hload|].
  exact (proj1 (proj1 (proj2 (http_load_splits_store lines)) _ _ Hload)).
Defined.

Lemma v2_count_loop_exact lines total indexable :
  EmbedChunksV2.count_loop lines total indexable
  = do records <- parse_all lines;
    Return (total + length records,
            indexable + length (filter (λ c, is_indexable c = true) records)).
Proof.
  revert total indexable.
  induction lines as [|l lines IH]; intros total indexable.
  { simpl. by rewrite !Nat.add_0_r. }
  destruct l as [raw|c]; [reflexivity|].
  cbn [EmbedChunksV2.count_loop json_loads result_bind parse_all].
  rewrite IH. destruct (parse_all lines) as [records|e]; simpl; [|done].
  destruct (is_indexable c) eqn:Hc.
  - rewrite filter_cons_True by done. simpl. do 2 f_equal; lia.
  - rewrite filter_cons_False by (by rewrite Hc). do 2 f_equal; lia.
Qed.

Lemma v2_count_chunks_counts_aux (records : list chunk) :
  EmbedChunksV2.count_chunks (Record <$> records)
  = Return (length records,
            length (filter (λ c, is_indexable c = true) records)).
Proof.
  unfold EmbedChunksV2.count_chunks.
  by rewrite v2_count_loop_exact, parse_all_records.
Qed.

(** X3. [count_chunks] of [embed_chunks_v2.py] returns the number of lines
    and the number of usable records when every line holds a JSON object,
    its second count never above the first.  Otherwise it raises at the
    first line that holds no JSON object: a parse error when that line is
    not JSON, an attribute error when it holds another JSON value. *)
Theorem v2_count_chunks_counts (lines : list any_line) :
  EmbedChunksV2Full.count_chunks lines
  = (do records <- dicts_all lines;
     Return (length records,
             length (filter (λ c, is_indexable c = true) records)))
  ∧ (∀ total indexable,
       EmbedChunksV2Full.count_chunks lines = Return (total, indexable) →
       total = length lines ∧ indexable ≤ total
       ∧ Forall (λ l, is_object l = true) lines)
  ∧ (∀ (records : list chunk) l rest,
       lines = (Object <$> records) ++ l :: rest →
       is_object l = false →
       EmbedChunksV2Full.count_chunks lines = Raise (error_of l)).
Proof.
  assert (EmbedChunksV2Full.count_chunks lines
          = (do records <- dicts_all lines;
             Return (length records,
                     length (filter (λ c, is_indexable c = true) records))))
    as Hexact.
  { unfold EmbedChunksV2Full.count_chunks.
    by rewrite full_v2_count_loop_exact. }
  split; [exact Hexact|]. rewrite Hexact. split.
  - intros total indexable.
    destruct (dicts_all lines) as [records|e] eqn:Hp; simpl; [|done].
    intros [= <- <-]. apply dicts_all_inv in Hp as ->.
    rewrite length_fmap. split; [done|]. split.
    + pose proof (usable_unusable_length records). lia.
    + apply Forall_fmap, Forall_forall. by intros.
  - intros records l rest -> Hl. by rewrite dicts_all_first_bad.
Qed.

Lemma v2_count_chunks_counts_witness :
  let lines := [Object (sample_chunk "a" "alpha");
                Object (sample_unusable "b" "beta")] in
  EmbedChunksV2Full.count_chunks lines = Return (2, 1)
  ∧ 2 = length lines ∧ 1 ≤ 2
  ∧ EmbedChunksV2Full.count_chunks (lines ++ [Other (JStr "x")])
    = Raise AttributeError.
Proof.
  intros lines.
  assert (EmbedChunksV2Full.count_chunks lines = Return (2, 1)) as Hcount
    by (by vm_compute).
  split; [exact Hcount|].
  destruct (proj1 (proj2 (v2_count_chunks_counts lines)) _ _ Hcount)
    as (Ht & Hi & _).
  split; [exact Ht|]. split; [exact Hi|].
  exact (proj2 (proj2 (v2_count_chunks_counts (lines ++ [Other (JStr "x")])))
           [sample_chunk "a" "alpha"; sample_unusable "b" "beta"]
           (Other (JStr "x")) [] eq_refl eq_refl).
Defined.

Lemma after_unusable_zero (records : list chunk) :
  after_unusable 0 records = records.
Proof. by destruct records. Qed.

Lemma v2_load_loop_skipped offset (records : list chunk) chunks skipped cs sk :
  EmbedChunksV2.load_loop offset None (Record <$> records) chunks skipped
  = Return (cs, sk) →
  sk = skipped + length (unusable records).
Proof.
  unfold unusable. revert chunks skipped.
  induction records as [|r records IH]; intros chunks skipped.
  { simpl. intros [= _ <-]. by rewrite Nat.add_0_r. }
  cbn [fmap list_fmap EmbedChunksV2.load_loop json_loads result_bind
       count_reached].
  destruct (is_indexable r) eqn:Hr; cbn [negb].
  - rewrite filter_cons_False by (by rewrite Hr).
    destruct (_ <? _)%Z; apply IH.
  - rewrite filter_cons_True by done. intros H. apply IH in H. simpl. lia.
Qed.

Lemma v2_load_loop_drop offset count (records : list chunk) skipped :
  ∃ skipped',
    EmbedChunksV2.load_loop offset count (Record <$> records) [] skipped
    = Return (take_count count 0
                (filter (λ c, is_indexable c = true)
                   (after_unusable (Z.to_nat offset - skipped) records)),
              skipped').
Proof.
  revert skipped. induction records as [|r records IH]; intros skipped.
  { exists skipped. cbn [fmap list_fmap EmbedChunksV2.load_loop].
    assert (after_unusable (Z.to_nat offset - skipped) (@nil chunk) = [])
      as -> by (by destruct (Z.to_nat offset - skipped)).
    rewrite filter_nil. destruct count; simpl; by rewrite ?take_nil. }
  destruct (decide (Z.to_nat offset - skipped = 0)) as [Hz|Hnz].
  { rewrite Hz, after_unusable_zero.
    destruct (v2_load_loop_no_offset offset count (r :: records) [] skipped)
      as (skipped' & H); [simpl; lia|intros n _; simpl; lia|].
    exists skipped'. exact H. }
  destruct (Z.to_nat offset - skipped) as [|k] eqn:Hk; [done|].
  cbn [fmap list_fmap EmbedChunksV2.load_loop json_loads result_bind
       after_unusable].
  destruct (is_indexable r) eqn:Hr; cbn [negb].
  - replace (Z.of_nat (length (@nil chunk) + skipped) <? offset)%Z with true
      by (symmetry; apply Z.ltb_lt; simpl; lia).
    destruct (IH skipped) as (skipped' & H). rewrite Hk in H.
    by exists skipped'.
  - destruct (IH (S skipped)) as (skipped' & H).
    replace (Z.to_nat offset - S skipped) with k in H by lia.
    by exists skipped'.
Qed.

(** X5. What the offset of [load_indexable_chunks] in [embed_chunks_v2.py]
    does on a store of records: it is used up by the records flagged as
    not usable, not by the usable ones.  The function returns the usable
    records that follow the [offset]-th non-usable record, cut to [count];
    with a null count the second component is the number of non-usable
    records of the whole store. *)
Theorem v2_load_offset_counts_unusable
    (records : list chunk) (offset : Z) (count : option Z) :
  (∃ skipped,
     EmbedChunksV2.load_indexable_chunks (Record <$> records) offset count
     = Return (take_count count 0
                 (filter (λ c, is_indexable c = true)
                    (after_unusable (Z.to_nat offset) records)),
               skipped))
  ∧ EmbedChunksV2.load_indexable_chunks (Record <$> records) offset None
    = Return (filter (λ c, is_indexable c = true)
                (after_unusable (Z.to_nat offset) records),
              length (unusable records)).
Proof.
  unfold EmbedChunksV2.load_indexable_chunks. split.
  - destruct (v2_load_loop_drop offset count records 0) as (skipped & H).
    rewrite Nat.sub_0_r in H. by exists skipped.
  - destruct (v2_load_loop_drop offset None records 0) as (skipped & H).
    rewrite Nat.sub_0_r in H. rewrite H.
    apply v2_load_loop_skipped in H. by rewrite H.
Qed.

(** X4. On a store of records the counts agree across the scripts:
    [count_chunks] of [embed_chunks_v2.py] reports the number of records
    and of usable records; [load_indexable_chunks] of [embed_via_http.py],
    and that of [embed_chunks_v2.py] with offset 0 and a null count, return
    exactly the usable records and, as skipped, the difference of the two
    counts; and whatever the offset, a load to the end reports that same
    number of skipped records. *)
Theorem counts_agree_across_scripts (records : list chunk) (offset : Z) :
  let store := Record <$> records in
  let usable := filter (λ c, is_indexable c = true) records in
  EmbedChunks.count_chunks store = length records
  ∧ EmbedChunksV2.count_chunks store = Return (length records, length usable)
  ∧ EmbedViaHttp.load_indexable_chunks store
    = Return (usable, length records - length usable)
  ∧ EmbedChunksV2.load_indexable_chunks store 0 None
    = Return (usable, length records - length usable)
  ∧ ∃ chunks,
      EmbedChunksV2.load_indexable_chunks store offset None
      = Return (chunks, length records - length usable).
Proof.
  intros store usable. subst store usable.
  pose proof (usable_unusable_length records) as Hlen.
  assert (length (unusable records)
          = length records
            - length (filter (λ c, is_indexable c = true) records)) as Hskip
    by lia.
  split; [by unfold EmbedChunks.count_chunks; rewrite length_fmap|].
  split.
  { apply v2_count_chunks_counts_aux. }
  split.
  { unfold EmbedViaHttp.load_indexable_chunks.
    rewrite http_load_loop_exact, parse_all_records. simpl.
    by rewrite Hskip. }
  split.
  { unfold EmbedChunksV2.load_indexable_chunks.
    destruct (v2_load_loop_drop 0 None records 0) as (skipped & H).
    rewrite H. apply v2_load_loop_skipped in H. simpl in H.
    by rewrite H, after_unusable_zero, Hskip. }
  unfold EmbedChunksV2.load_indexable_chunks.
  destruct (v2_load_loop_drop offset None records 0) as (skipped & H).
  eexists. rewrite H. apply v2_load_loop_skipped in H. simpl in H.
  by rewrite H, Hskip.
Qed.

(** ** Plan and load together *)

Lemma equal_windows_take {A} (l : list A) n k :
  k ≤ n - 1 →
  concat ((λ w : nat * nat, take w.2 (drop w.1 l))
            <$> (EmbedChunks.pod_window (length l) n <$> seq 0 k))
  = take (k * (length l / n)) l.
Proof.
  induction k as [|k IH]; intros Hk; [reflexivity|].
  rewrite seq_S, !fmap_app, concat_app, IH by lia.
  cbn [fmap list_fmap concat].
  unfold EmbedChunks.pod_window. cbn [fst snd]. rewrite Nat.add_0_l.
  replace (k <? n - 1) with true by (symmetry; apply Nat.ltb_lt; lia).
  rewrite app_nil_r, take_take_drop. f_equal. lia.
Qed.

Lemma plan_windows_take {A} (l : list A) n :
  1 ≤ n →
  concat ((λ w : nat * nat, take w.2 (drop w.1 l))
            <$> EmbedChunks.plan (length l) n) = l.
Proof.
  intros Hn. unfold EmbedChunks.plan.
  replace n with (S (n - 1)) at 2 by lia.
  rewrite seq_S, !fmap_app, concat_app, equal_windows_take by lia.
  cbn [fmap list_fmap concat]. unfold EmbedChunks.pod_window. cbn [fst snd].
  rewrite Nat.add_0_l, Nat.ltb_irrefl, app_nil_r, take_take_drop.
  pose proof (per_pod_bound (length l) n (n - 1) Hn (Nat.le_refl _)).
  apply take_ge. lia.
Qed.

(** X6. The plan printed under [--stats] and [load_chunks] fit together: on
    a store of records and for any number of pods [n >= 1], loading the
    store with the offset and count of a window returns the records of
    that window, and the loads of the [n] windows of the plan, put end to
    end in pod order, give back the whole store, every record once. *)
Theorem plan_windows_partition_store (records : list chunk) (n : nat) :
  1 ≤ n →
  let store := Record <$> records in
  let windows := EmbedChunks.plan (EmbedChunks.count_chunks store) n in
  (∀ offset count : nat,
     EmbedChunks.load_chunks store (Z.of_nat offset) (Some (Z.of_nat count))
     = Return (take count (drop offset records)))
  ∧ length windows = n
  ∧ concat ((λ w : nat * nat, take w.2 (drop w.1 records)) <$> windows)
    = records.
Proof.
  intros Hn store windows. subst store windows.
  unfold EmbedChunks.count_chunks. rewrite length_fmap.
  split; [|split; [apply plan_length|by apply plan_windows_take]].
  intros offset count. rewrite v1_load_window. simpl.
  by rewrite !Nat2Z.id, Nat.sub_0_r.
Qed.

Lemma plan_windows_partition_store_witness :
  let a := sample_chunk "a" "alpha" in
  let b := sample_chunk "b" "beta" in
  let c := sample_chunk "c" "gamma" in
  EmbedChunks.plan 3 2 = [(0, 1); (1, 2)]
  ∧ EmbedChunks.load_chunks [Record a; Record b; Record c] 1 (Some 2%Z)
    = Return [b; c]
  ∧ concat ((λ w : nat * nat, take w.2 (drop w.1 [a; b; c]))
              <$> EmbedChunks.plan 3 2) = [a; b; c].
Proof.
  intros a b c.
  destruct (plan_windows_partition_store [a; b; c] 2 ltac:(lia))
    as (Hload & _ & Hcat).
  split; [reflexivity|]. split; [exact (Hload 1 2)|exact Hcat].
Defined.

(** ** Requests *)

Lemma range_step_lt total :
  Forall (λ i, i < total) (range_step total EMBED_BATCH_SIZE).
Proof.
  unfold range_step. apply Forall_fmap, Forall_forall. intros k Hk.
  apply elem_of_seq in Hk as [_ Hk]. rewrite Nat.add_0_l in Hk.
  unfold EMBED_BATCH_SIZE in *.
  pose proof (Nat.Div0.mul_div_le (total + 25 - 1) 25) as Hq.
  revert Hk Hq. generalize ((total + 25 - 1) / 25). intros q Hk Hq.
  unfold compose. lia.
Qed.

Lemma range_step_lookup total g :
  g * EMBED_BATCH_SIZE < total →
  range_step total EMBED_BATCH_SIZE !! g = Some (g * EMBED_BATCH_SIZE).
Proof.
  intros Hg. unfold range_step. rewrite list_lookup_fmap.
  rewrite lookup_seq_lt; [reflexivity|].
  unfold EMBED_BATCH_SIZE in *.
  apply Nat.div_le_lower_bound; lia.
Qed.

Lemma batch_length (chunks : list chunk) i :
  i < length chunks →
  1 ≤ length (take EMBED_BATCH_SIZE (drop i chunks)) ≤ EMBED_BATCH_SIZE.
Proof.
  intros Hi. rewrite length_take, length_drop. unfold EMBED_BATCH_SIZE. lia.
Qed.

Lemma texts_of_length batch texts :
  texts_of batch = Return texts → length texts = length batch.
Proof. intros H. apply texts_of_inv, Forall2_length in H. done. Qed.

Section PodRequests.
Import EmbedChunks.
Variables (svc : service) (pod_id : Z) (chunks : list chunk).

Lemma requests_retry_chunk st c st' :
  retry_chunk svc pod_id st c = Return st' →
  requests_bounded (calls st) → requests_bounded (calls st').
Proof.
  unfold requests_bounded, retry_chunk, get_embeddings_batch, skip_chunk,
    getitem.
  intros Hrun Hb.
  assert (Forall (λ texts : list json, 1 ≤ length texts ≤ EMBED_BATCH_SIZE)
            (calls st ++ [[default JNull (c !! "text")]])) as Hb'.
  { apply Forall_app. split; [done|]. constructor; [|constructor].
    simpl. unfold EMBED_BATCH_SIZE. lia. }
  destruct (c !! "text") as [t|].
  - simpl in Hb'.
    destruct (svc (length (calls st)) [t]) as [[|emb embs]|];
      try (destruct (c !! "chunk_id"); simpl in Hrun; [|done]);
      injection Hrun as <-; rewrite ?calls_embed_chunk; exact Hb'.
  - destruct (c !! "chunk_id"); simpl in Hrun; [|done].
    by injection Hrun as <-.
Qed.

Lemma requests_fallback batch st st' :
  for_each (retry_chunk svc pod_id) st batch = Return st' →
  requests_bounded (calls st) → requests_bounded (calls st').
Proof.
  revert st. induction batch as [|c rest IH]; intros st; simpl.
  { by intros [= <-]. }
  destruct (retry_chunk svc pod_id st c) as [st1|e] eqn:E; simpl; [|done].
  intros Hrest Hb. apply (IH st1 Hrest). by eapply requests_retry_chunk.
Qed.

Lemma requests_process_batch st i st' :
  i < length chunks →
  process_batch svc pod_id chunks st i = Return st' →
  requests_bounded (calls st) → requests_bounded (calls st').
Proof.
  intros Hi Hrun Hb. unfold process_batch in Hrun.
  destruct (texts_of _) as [texts|e] eqn:Ht; [|done].
  cbn [result_bind] in Hrun.
  pose proof (batch_length chunks i Hi) as Hlen.
  rewrite <- (texts_of_length _ _ Ht) in Hlen.
  assert (requests_bounded (calls (get_embeddings_batch svc texts st).2))
    as Hb'.
  { unfold requests_bounded. simpl. apply Forall_app. split; [done|].
    by constructor. }
  unfold get_embeddings_batch in *. cbn [snd] in Hb'.
  destruct (svc (length (calls st)) texts) as [embeddings|].
  - injection Hrun as <-. cbn [print calls].
    match goal with
    | |- context [embed_zip ?p ?s ?b ?e] =>
        destruct (pod_embed_zip_spec p b e s) as (_ & _ & -> & _)
    end.
    exact Hb'.
  - eapply requests_fallback; [exact Hrun|]. exact Hb'.
Qed.

Lemma requests_loop offsets st st' :
  Forall (λ i, i < length chunks) offsets →
  for_each (process_batch svc pod_id chunks) st offsets = Return st' →
  requests_bounded (calls st) → requests_bounded (calls st').
Proof.
  intros Hoff. revert st.
  induction Hoff as [|i rest Hi _ IH]; intros st; simpl.
  { by intros [= <-]. }
  destruct (process_batch svc pod_id chunks st i) as [st1|e] eqn:E; simpl;
    [|done].
  intros Hrest Hb. apply (IH st1 Hrest). by eapply requests_process_batch.
Qed.

End PodRequests.

Lemma pod_run_has_http svc pod_id chunks sp :
  EmbedChunks.process_chunks svc chunks pod_id = Return sp →
  ∃ sh, EmbedViaHttp.process_chunks svc chunks = Return sh
        ∧ same_run pod_id sp sh.
Proof.
  intros Hrun.
  pose proof (same_run_process_chunks svc pod_id chunks) as Hsim.
  rewrite Hrun in Hsim.
  destruct (EmbedViaHttp.process_chunks svc chunks) as [sh|e]; [|done].
  by exists sh.
Qed.

Lemma pod_ended_run_requests svc pod_id chunks sp :
  EmbedChunks.process_chunks svc chunks pod_id = Return sp →
  requests_bounded (EmbedChunks.calls sp).
Proof.
  intros Hrun.
  destruct (pod_process_chunks_inv _ _ _ _ Hrun) as (st0 & Hloop & ->).
  rewrite calls_finish.
  eapply requests_loop; [apply range_step_lt|exact Hloop|].
  apply Forall_nil_2.
Qed.

(** X7. Every request that a run sends to the endpoint carries at least
    one and at most 25 texts, whatever the endpoint answers. *)
Theorem requests_within_batch_size
    (svc : service) (chunks : list chunk) (pod_id : Z) :
  (∀ sp,
     EmbedChunks.process_chunks svc chunks pod_id = Return sp →
     Forall (λ texts : list json, 1 ≤ length texts ≤ 25)
            (EmbedChunks.calls sp))
  ∧ (∀ sh,
     EmbedViaHttp.process_chunks svc chunks = Return sh →
     Forall (λ texts : list json, 1 ≤ length texts ≤ 25)
            (EmbedViaHttp.calls sh)).
Proof.
  split.
  - intros sp Hrun. by apply (pod_ended_run_requests svc pod_id chunks).
  - intros sh Hrun.
    destruct (http_ended_run svc pod_id chunks sh Hrun) as (sp & Hpod & Hsim).
    destruct Hsim as (_ & _ & _ & _ & <- & _).
    by apply (pod_ended_run_requests svc pod_id chunks).
Qed.

Lemma requests_within_batch_size_witness :
  let chunks := (λ k, sample_chunk "c" "text") <$> seq 0 30 in
  ∃ sh,
    EmbedViaHttp.process_chunks retry_service chunks = Return sh
    ∧ length (EmbedViaHttp.calls sh) = 27
    ∧ Forall (λ texts : list json, 1 ≤ length texts ≤ 25)
             (EmbedViaHttp.calls sh).
Proof.
  intros chunks.
  destruct (requests_within_batch_size retry_service chunks 0) as [_ H].
  eexists. split; [vm_compute; reflexivity|]. split; [reflexivity|].
  apply H. vm_compute. reflexivity.
Defined.

(** ** Accounting *)

Section HttpAccounting.
Import EmbedViaHttp.
Variables (svc : service) (chunks : list chunk).

Lemma account_retry_chunk st c st' :
  retry_chunk svc st c = Return st' →
  processed st' + failed st' = S (processed st + failed st).
Proof.
  unfold retry_chunk, get_embeddings_batch, skip_chunk, getitem.
  intros Hrun.
  destruct (c !! "text") as [t|].
  - destruct (svc (length (calls st)) [t]) as [[|emb embs]|];
      try (destruct (c !! "chunk_id"); simpl in Hrun; [|done]);
      injection Hrun as <-; try (simpl; lia).
    match goal with
    | |- context [embed_chunk ?s ?c ?e] =>
        destruct (http_frame_embed_chunk s c e) as (-> & -> & _)
    end.
    simpl. lia.
  - destruct (c !! "chunk_id"); simpl in Hrun; [|done].
    injection Hrun as <-. simpl. lia.
Qed.

Lemma account_fallback batch st st' :
  for_each (retry_chunk svc) st batch = Return st' →
  processed st' + failed st' = processed st + failed st + length batch.
Proof.
  revert st. induction batch as [|c rest IH]; intros st; simpl.
  { intros [= <-]. lia. }
  destruct (retry_chunk svc st c) as [st1|e] eqn:E; simpl; [|done].
  intros Hrest. apply IH in Hrest. apply account_retry_chunk in E. lia.
Qed.

Lemma account_process_batch st i st' :
  process_batch svc chunks st i = Return st' →
  let n := length (take EMBED_BATCH_SIZE (drop i chunks)) in
  processed st' + failed st' ≤ processed st + failed st + n
  ∧ (aligned svc → processed st' + failed st' = processed st + failed st + n).
Proof.
  intros Hrun n. subst n. unfold process_batch in Hrun.
  destruct (texts_of _) as [texts|e] eqn:Ht; [|done].
  cbn [result_bind] in Hrun. apply texts_of_length in Ht.
  unfold get_embeddings_batch in *.
  destruct (svc (length (calls st)) texts) as [embeddings|] eqn:Hr.
  - injection Hrun as <-. cbn [print processed failed].
    match goal with
    | |- context [embed_zip ?s ?b ?e] =>
        destruct (http_embed_zip_spec b e s) as (_ & -> & -> & _)
    end.
    cbn [processed failed]. rewrite length_zip_with. split; [lia|].
    intros Hal. specialize (Hal _ _ _ Hr). lia.
  - apply account_fallback in Hrun. cbn [print processed failed] in Hrun.
    split; [|intros _]; lia.
Qed.

Lemma account_loop m a st st' :
  for_each (process_batch svc chunks) st
    ((λ k, k * EMBED_BATCH_SIZE) <$> seq a m) = Return st' →
  let n := length (take (m * EMBED_BATCH_SIZE)
                     (drop (a * EMBED_BATCH_SIZE) chunks)) in
  processed st' + failed st' ≤ processed st + failed st + n
  ∧ (aligned svc → processed st' + failed st' = processed st + failed st + n).
Proof.
  revert a st. induction m as [|m IH]; intros a st.
  { simpl. intros [= <-]. split; [|intros _]; lia. }
  cbn [seq fmap list_fmap for_each].
  destruct (process_batch svc chunks st (a * EMBED_BATCH_SIZE))
    as [st1|e] eqn:E; cbn [result_bind]; [|done].
  intros Hrest. apply IH in Hrest. apply account_process_batch in E.
  cbn zeta in *.
  assert (length (take (S m * EMBED_BATCH_SIZE)
                    (drop (a * EMBED_BATCH_SIZE) chunks))
          = length (take EMBED_BATCH_SIZE (drop (a * EMBED_BATCH_SIZE) chunks))
            + length (take (m * EMBED_BATCH_SIZE)
                        (drop (S a * EMBED_BATCH_SIZE) chunks))) as ->.
  { rewrite (Nat.mul_succ_l m), (Nat.mul_succ_l a), (Nat.add_comm (m * _)),
      <- take_take_drop, drop_drop, length_app. reflexivity. }
  destruct Hrest as [Hle Heq], E as [Hle1 Heq1].
  split; [lia|]. intros Hal. specialize (Heq Hal). specialize (Heq1 Hal). lia.
Qed.

Lemma account_run sh :
  process_chunks svc chunks = Return sh →
  processed sh + failed sh ≤ length chunks
  ∧ (aligned svc → processed sh + failed sh = length chunks).
Proof.
  intros Hrun.
  destruct (http_process_chunks_inv _ _ _ Hrun) as (sh0 & Hloop & ->).
  unfold range_step in Hloop. apply account_loop in Hloop.
  cbn zeta in Hloop. rewrite drop_0, take_ge in Hloop.
  - rewrite http_failed_finish.
    assert (processed (finish sh0) = processed sh0) as ->
      by (unfold finish, print_summary, save_remaining;
          destruct (file_batch sh0); cbn zeta; by destruct (0 <? _)).
    exact Hloop.
  - unfold EMBED_BATCH_SIZE.
    pose proof (Nat.div_mod_eq (length chunks + 25 - 1) 25) as Hdm.
    pose proof (Nat.mod_upper_bound (length chunks + 25 - 1) 25) as Hmod.
    lia.
Qed.

End HttpAccounting.

(** X8. In a run whose file writes succeed no chunk is counted twice: at
    the end of the run the processed counter plus the failed counter (for
    [embed_chunks.py], plus the number of skip lines) is at most the number
    of input chunks; and when every successful call returns at least one
    vector per text the sum is exactly that number, each chunk being
    either embedded or skipped.  The last part says it of the run of
    [embed_chunks.py] with a disk, all of whose writes succeed. *)
Theorem chunks_accounted_once
    (svc : service) (chunks : list chunk) (pod_id : Z) :
  (∀ sh,
     EmbedViaHttp.process_chunks svc chunks = Return sh →
     EmbedViaHttp.processed sh + EmbedViaHttp.failed sh ≤ length chunks
     ∧ (aligned svc →
        EmbedViaHttp.processed sh + EmbedViaHttp.failed sh = length chunks))
  ∧ (∀ sp,
     EmbedChunks.process_chunks svc chunks pod_id = Return sp →
     EmbedChunks.processed sp + length (skip_lines (EmbedChunks.stdout sp))
     ≤ length chunks
     ∧ (aligned svc →
        EmbedChunks.processed sp + length (skip_lines (EmbedChunks.stdout sp))
        = length chunks))
  ∧ (∀ fs g,
     writes_succeed fs →
     EmbedChunksFull.process_chunks fs svc chunks pod_id = Return g →
     EmbedChunksFull.processed g
     + length (skip_lines (EmbedChunksFull.stdout g))
     ≤ length chunks
     ∧ (aligned svc →
        EmbedChunksFull.processed g
        + length (skip_lines (EmbedChunksFull.stdout g))
        = length chunks)).
Proof.
  assert (∀ sp,
            EmbedChunks.process_chunks svc chunks pod_id = Return sp →
            EmbedChunks.processed sp
            + length (skip_lines (EmbedChunks.stdout sp))
            ≤ length chunks
            ∧ (aligned svc →
               EmbedChunks.processed sp
               + length (skip_lines (EmbedChunks.stdout sp))
               = length chunks)) as Hpod.
  { intros sp Hrun.
    destruct (pod_run_has_http _ _ _ _ Hrun) as (sh & Hhttp & Hsim).
    pose proof (counted_process_chunks _ _ _ Hhttp) as Hcount.
    pose proof (account_run _ _ _ Hhttp) as Hacc.
    destruct Hsim as (-> & _ & _ & _ & _ & ->).
    unfold counted in Hcount. by rewrite <- Hcount. }
  split; [|split; [exact Hpod|]].
  - intros sh Hrun. by apply account_run.
  - intros fs g Hfs Hrun.
    destruct (disk_run_has_pod _ _ _ _ _ Hfs Hrun)
      as (sp & Hrun' & Hp & _ & _ & _ & _ & Ho).
    rewrite Hp, Ho. by apply Hpod.
Qed.

Lemma chunks_accounted_once_witness :
  let chunks := [sample_chunk "a" "alpha"; sample_chunk "b" "beta"] in
  ∃ sh,
    EmbedViaHttp.process_chunks short_service chunks = Return sh
    ∧ EmbedViaHttp.processed sh = 1
    ∧ EmbedViaHttp.failed sh = 0
    ∧ EmbedViaHttp.processed sh + EmbedViaHttp.failed sh ≤ length chunks.
Proof.
  intros chunks.
  destruct (chunks_accounted_once short_service chunks 0) as [H _].
  eexists. split; [vm_compute; reflexivity|].
  split; [reflexivity|]. split; [reflexivity|].
  apply H. vm_compute. reflexivity.
Defined.

(** ** Order of the output *)

Lemma enriched_sublist_nil inputs : enriched_sublist inputs [].
Proof. exists []. split; [apply sublist_nil_l|reflexivity]. Qed.

Lemma enriched_sublist_app inputs1 inputs2 outs1 outs2 :
  enriched_sublist inputs1 outs1 → enriched_sublist inputs2 outs2 →
  enriched_sublist (inputs1 ++ inputs2) (outs1 ++ outs2).
Proof.
  intros (sel1 & Hs1 & ->) (sel2 & Hs2 & ->). exists (sel1 ++ sel2).
  rewrite !fmap_app. split; [by apply sublist_app|reflexivity].
Qed.

Lemma enriched_sublist_weaken inputs inputs' outs :
  inputs `sublist_of` inputs' →
  enriched_sublist inputs outs → enriched_sublist inputs' outs.
Proof.
  intros Hsub (sel & Hs & ->). exists sel. split; [by etrans|reflexivity].
Qed.

Lemma enriched_sublist_zip batch embeddings :
  enriched_sublist batch (zip_with set_embedding batch embeddings).
Proof.
  revert embeddings. induction batch as [|c rest IH]; intros embeddings.
  { apply enriched_sublist_nil. }
  destruct embeddings as [|emb embs]; [apply enriched_sublist_nil|].
  apply (enriched_sublist_app [c] rest [set_embedding c emb]); [|apply IH].
  by exists [(c, emb)].
Qed.

Section PodOrder.
Import EmbedChunks PodView.
Variables (svc : service) (pod_id : Z) (chunks : list chunk).

Lemma order_retry_chunk st c st' :
  retry_chunk svc pod_id st c = Return st' →
  ∃ outs, enriched_sublist [c] outs ∧ emitted st' = emitted st ++ outs.
Proof.
  unfold retry_chunk, get_embeddings_batch, skip_chunk, getitem.
  intros Hrun.
  assert (∃ outs, enriched_sublist [c] outs
                  ∧ emitted st = emitted st ++ outs) as Hnone.
  { exists []. split; [apply enriched_sublist_nil|by rewrite app_nil_r]. }
  destruct (c !! "text") as [t|].
  - destruct (svc (length (calls st)) [t]) as [[|emb embs]|];
      try (destruct (c !! "chunk_id"); simpl in Hrun; [|done]);
      injection Hrun as <-; try exact Hnone.
    exists [set_embedding c emb]. split; [by exists [(c, emb)]|].
    by rewrite emitted_embed_chunk.
  - destruct (c !! "chunk_id"); simpl in Hrun; [|done].
    injection Hrun as <-. exact Hnone.
Qed.

Lemma order_fallback batch st st' :
  for_each (retry_chunk svc pod_id) st batch = Return st' →
  ∃ outs, enriched_sublist batch outs ∧ emitted st' = emitted st ++ outs.
Proof.
  revert st. induction batch as [|c rest IH]; intros st; simpl.
  { intros [= <-]. exists []. split; [apply enriched_sublist_nil|].
    by rewrite app_nil_r. }
  destruct (retry_chunk svc pod_id st c) as [st1|e] eqn:E; simpl; [|done].
  intros Hrest. apply IH in Hrest as (outs2 & H2 & He2).
  apply order_retry_chunk in E as (outs1 & H1 & He1).
  exists (outs1 ++ outs2). split.
  - by apply (enriched_sublist_app [c] rest).
  - by rewrite He2, He1, app_assoc.
Qed.

Lemma order_process_batch st i st' :
  process_batch svc pod_id chunks st i = Return st' →
  ∃ outs,
    enriched_sublist (take EMBED_BATCH_SIZE (drop i chunks)) outs
    ∧ emitted st' = emitted st ++ outs.
Proof.
  intros Hrun. unfold process_batch in Hrun.
  destruct (texts_of _) as [texts|e]; [|done]. cbn [result_bind] in Hrun.
  unfold get_embeddings_batch in *.
  destruct (svc (length (calls st)) texts) as [embeddings|].
  - injection Hrun as <-.
    match goal with
    | |- context [embed_zip ?p ?s ?b ?e] =>
        destruct (pod_embed_zip_spec p b e s) as (He & _)
    end.
    eexists. split; [apply enriched_sublist_zip|exact He].
  - by apply order_fallback in Hrun.
Qed.

Lemma order_loop m a st st' :
  for_each (process_batch svc pod_id chunks) st
    ((λ k, k * EMBED_BATCH_SIZE) <$> seq a m) = Return st' →
  ∃ outs,
    enriched_sublist
      (take (m * EMBED_BATCH_SIZE) (drop (a * EMBED_BATCH_SIZE) chunks)) outs
    ∧ emitted st' = emitted st ++ outs.
Proof.
  revert a st. induction m as [|m IH]; intros a st.
  { simpl. intros [= <-]. exists []. split; [apply enriched_sublist_nil|].
    by rewrite app_nil_r. }
  cbn [seq fmap list_fmap for_each].
  destruct (process_batch svc pod_id chunks st (a * EMBED_BATCH_SIZE))
    as [st1|e] eqn:E; cbn [result_bind]; [|done].
  intros Hrest. apply IH in Hrest as (outs2 & H2 & He2).
  apply order_process_batch in E as (outs1 & H1 & He1).
  exists (outs1 ++ outs2). split.
  - rewrite (Nat.mul_succ_l m), (Nat.add_comm (m * _)), <- take_take_drop,
      drop_drop.
    replace (a * EMBED_BATCH_SIZE + EMBED_BATCH_SIZE)
      with (S a * EMBED_BATCH_SIZE) by lia.
    by apply enriched_sublist_app.
  - by rewrite He2, He1, app_assoc.
Qed.

Lemma order_run sp :
  process_chunks svc chunks pod_id = Return sp →
  enriched_sublist chunks (concat (snd <$> disk sp)).
Proof.
  intros Hrun.
  destruct (pod_process_chunks_inv _ _ _ _ Hrun) as (st0 & Hloop & ->).
  unfold range_step in Hloop. apply order_loop in Hloop as (outs & H & He).
  rewrite disk_finish, contents_save_remaining, He.
  eapply enriched_sublist_weaken; [|exact H].
  etrans; [apply sublist_take|apply sublist_drop].
Qed.

End PodOrder.

(** X9. In a run whose file writes succeed the output keeps the input
    order: at the end of the run the chunks of the output files, read file
    after file, are the records of a subsequence of the input, in input
    order and each taken once, with a vector attached.  The last part says
    it of the run of [embed_chunks.py] with a disk, all of whose writes
    succeed. *)
Theorem output_keeps_input_order
    (svc : service) (chunks : list chunk) (pod_id : Z) :
  (∀ sp,
     EmbedChunks.process_chunks svc chunks pod_id = Return sp →
     ∃ sel : list (chunk * json),
       (fst <$> sel) `sublist_of` chunks
       ∧ concat (snd <$> EmbedChunks.disk sp)
         = (λ p : chunk * json, <["embedding" := p.2]> p.1) <$> sel)
  ∧ (∀ sh,
     EmbedViaHttp.process_chunks svc chunks = Return sh →
     ∃ sel : list (chunk * json),
       (fst <$> sel) `sublist_of` chunks
       ∧ concat (snd <$> EmbedViaHttp.disk sh)
         = (λ p : chunk * json, <["embedding" := p.2]> p.1) <$> sel)
  ∧ (∀ fs g,
     writes_succeed fs →
     EmbedChunksFull.process_chunks fs svc chunks pod_id = Return g →
     ∃ sel : list (chunk * json),
       (fst <$> sel) `sublist_of` chunks
       ∧ concat (snd <$> EmbedChunksFull.disk g)
         = (λ p : chunk * json, <["embedding" := p.2]> p.1) <$> sel).
Proof.
  split; [|split].
  - intros sp Hrun. by apply (order_run svc pod_id chunks).
  - intros sh Hrun.
    destruct (http_ended_run svc pod_id chunks sh Hrun) as (sp & Hpod & Hsim).
    rewrite <- (same_run_contents _ _ _ Hsim).
    by apply (order_run svc pod_id chunks).
  - intros fs g Hfs Hrun.
    destruct (disk_run_has_pod _ _ _ _ _ Hfs Hrun)
      as (sp & Hrun' & _ & _ & _ & Hd & _).
    rewrite Hd. by apply (order_run svc pod_id chunks).
Qed.

Lemma output_keeps_input_order_witness :
  let a := sample_chunk "a" "alpha" in
  let b := sample_chunk "b" "beta" in
  ∃ sp sel,
    EmbedChunks.process_chunks short_service [a; b] 0 = Return sp
    ∧ (fst <$> sel) `sublist_of` [a; b]
    ∧ concat (snd <$> EmbedChunks.disk sp)
      = (λ p : chunk * json, <["embedding" := p.2]> p.1) <$> sel.
Proof.
  intros a b.
  destruct (output_keeps_input_order short_service [a; b] 0) as [H _].
  assert (∃ sp, EmbedChunks.process_chunks short_service [a; b] 0 = Return sp)
    as (sp & Hrun) by (eexists; vm_compute; reflexivity).
  destruct (H sp Hrun) as (sel & Hsub & Hout).
  by exists sp, sel.
Defined.

(** ** Aborted runs *)

Lemma texts_of_raise batch e :
  texts_of batch = Raise e →
  e = KeyError "text" ∧ ∃ c, c ∈ batch ∧ c !! "text" = None.
Proof.
  induction batch as [|c rest IH]; simpl; [done|].
  unfold getitem. destruct (c !! "text") as [t|] eqn:Ht; simpl.
  - destruct (texts_of rest) as [ts|e'] eqn:Hrest; simpl; [done|].
    intros [= <-]. destruct (IH eq_refl) as (-> & c' & Hc' & Hnone).
    split; [done|]. exists c'. split; [by right|done].
  - intros [= <-]. split; [done|]. exists c. split; [by left|done].
Qed.

Lemma texts_of_missing batch c :
  c ∈ batch → c !! "text" = None → texts_of batch = Raise (KeyError "text").
Proof.
  intros Hin Hnone.
  destruct (texts_of batch) as [texts|e] eqn:Ht.
  - apply texts_of_inv in Ht.
    apply list_elem_of_lookup in Hin as (j & Hj).
    destruct (Forall2_lookup_l _ _ _ _ _ Ht Hj) as (t & _ & Hsome).
    congruence.
  - by apply texts_of_raise in Ht as (-> & _).
Qed.

Section PodAborts.
Import EmbedChunks.
Variables (svc : service) (pod_id : Z) (chunks : list chunk).

Lemma abort_retry_chunk st c e :
  retry_chunk svc pod_id st c = Raise e →
  e = KeyError "chunk_id" ∧ c !! "chunk_id" = None.
Proof.
  unfold retry_chunk, get_embeddings_batch, skip_chunk, getitem.
  destruct (c !! "text") as [t|].
  - destruct (svc (length (calls st)) [t]) as [[|emb embs]|];
      try done; destruct (c !! "chunk_id"); simpl; try done;
      by intros [= <-].
  - destruct (c !! "chunk_id"); simpl; [done|]. by intros [= <-].
Qed.

Lemma abort_fallback batch st e :
  for_each (retry_chunk svc pod_id) st batch = Raise e →
  e = KeyError "chunk_id" ∧ ∃ c, c ∈ batch ∧ c !! "chunk_id" = None.
Proof.
  revert st. induction batch as [|c rest IH]; intros st; simpl; [done|].
  destruct (retry_chunk svc pod_id st c) as [st1|e'] eqn:E; simpl.
  - intros H. apply IH in H as (-> & c' & Hc' & Hnone).
    split; [done|]. exists c'. split; [by right|done].
  - intros [= <-]. apply abort_retry_chunk in E as (-> & Hnone).
    split; [done|]. exists c. split; [by left|done].
Qed.

Lemma abort_process_batch st i e :
  process_batch svc pod_id chunks st i = Raise e → missing_field chunks e.
Proof.
  unfold process_batch.
  destruct (texts_of _) as [texts|e'] eqn:Ht; cbn [result_bind].
  - unfold get_embeddings_batch.
    destruct (svc (length (calls st)) texts) as [embeddings|]; [done|].
    intros H. apply abort_fallback in H as (-> & c & Hc & Hnone).
    right. split; [done|]. exists c. split; [|done].
    by apply (batch_subseteq chunks i EMBED_BATCH_SIZE).
  - intros [= <-]. apply texts_of_raise in Ht as (-> & c & Hc & Hnone).
    left. split; [done|]. exists c. split; [|done].
    by apply (batch_subseteq chunks i EMBED_BATCH_SIZE).
Qed.

Lemma abort_loop offsets st e :
  for_each (process_batch svc pod_id chunks) st offsets = Raise e →
  missing_field chunks e.
Proof.
  revert st. induction offsets as [|i rest IH]; intros st; simpl; [done|].
  destruct (process_batch svc pod_id chunks st i) as [st1|e'] eqn:E; simpl.
  - apply IH.
  - intros [= <-]. by eapply abort_process_batch.
Qed.

Lemma abort_run e :
  process_chunks svc chunks pod_id = Raise e → missing_field chunks e.
Proof.
  unfold process_chunks.
  destruct (for_each _ _ _) as [st|e'] eqn:E; simpl; [done|].
  intros [= <-]. by eapply abort_loop.
Qed.

(** A group holding a record without text aborts the run when reached. *)
Lemma loop_reaches offsets i st :
  i ∈ offsets →
  (∀ st', ∃ e, process_batch svc pod_id chunks st' i = Raise e) →
  ∃ e, for_each (process_batch svc pod_id chunks) st offsets = Raise e.
Proof.
  intros Hin Hbad. revert st.
  induction offsets as [|i' rest IH]; intros st; [by apply elem_of_nil in Hin|].
  simpl. apply elem_of_cons in Hin as [<-|Hin].
  - destruct (Hbad st) as (e & ->). by exists e.
  - destruct (process_batch svc pod_id chunks st i') as [st1|e]; simpl.
    + by apply IH.
    + by exists e.
Qed.

Lemma no_text_aborts c :
  c ∈ chunks → c !! "text" = None →
  ∃ e, process_chunks svc chunks pod_id = Raise e.
Proof.
  intros Hin Hnone.
  apply list_elem_of_lookup in Hin as (j & Hj).
  pose proof (lookup_lt_Some _ _ _ Hj) as Hlt.
  set (g := j / EMBED_BATCH_SIZE).
  assert (g * EMBED_BATCH_SIZE ≤ j < g * EMBED_BATCH_SIZE + EMBED_BATCH_SIZE)
    as Hg.
  { subst g. unfold EMBED_BATCH_SIZE.
    pose proof (Nat.div_mod_eq j 25). pose proof (Nat.mod_upper_bound j 25).
    lia. }
  destruct (loop_reaches (range_step (length chunks) EMBED_BATCH_SIZE)
              (g * EMBED_BATCH_SIZE) init) as (e & He).
  - apply list_elem_of_lookup. exists g. apply range_step_lookup. lia.
  - intros st'. exists (KeyError "text"). unfold process_batch.
    rewrite (texts_of_missing _ c); [reflexivity| |done].
    apply list_elem_of_lookup. exists (j - g * EMBED_BATCH_SIZE).
    rewrite lookup_take_lt by lia. rewrite lookup_drop.
    by replace (g * EMBED_BATCH_SIZE + (j - g * EMBED_BATCH_SIZE)) with j
      by lia.
  - exists e. unfold process_chunks. by rewrite He.
Qed.

End PodAborts.

(** X10. On a list of dictionaries, and with every file write succeeding,
    a run aborts only on a record that lacks a field it reads: the
    exception is [KeyError] on [text], with some input record lacking
    [text], or [KeyError] on [chunk_id], with some input record lacking
    [chunk_id]; an input record without [text] always aborts the run; and
    the two processors abort on the same inputs with the same exception.
    The last part says the first of the run of [embed_chunks.py] with a
    disk, all of whose writes succeed. *)
Theorem run_aborts_on_missing_field
    (svc : service) (chunks : list chunk) (pod_id : Z) :
  (∀ e,
     EmbedChunks.process_chunks svc chunks pod_id = Raise e →
     (e = KeyError "text" ∧ ∃ c, c ∈ chunks ∧ c !! "text" = None)
     ∨ (e = KeyError "chunk_id" ∧ ∃ c, c ∈ chunks ∧ c !! "chunk_id" = None))
  ∧ (∀ c, c ∈ chunks → c !! "text" = None →
          ∃ e, EmbedChunks.process_chunks svc chunks pod_id = Raise e)
  ∧ (∀ e,
       EmbedViaHttp.process_chunks svc chunks = Raise e
       ↔ EmbedChunks.process_chunks svc chunks pod_id = Raise e)
  ∧ (∀ fs e,
       writes_succeed fs →
       EmbedChunksFull.process_chunks fs svc chunks pod_id = Raise e →
       (e = KeyError "text" ∧ ∃ c, c ∈ chunks ∧ c !! "text" = None)
       ∨ (e = KeyError "chunk_id"
          ∧ ∃ c, c ∈ chunks ∧ c !! "chunk_id" = None)).
Proof.
  split; [intros e; apply abort_run|]. split; [apply no_text_aborts|].
  split;
    [|intros fs e Hfs Hrun; apply (abort_run svc pod_id chunks);
      by apply (disk_run_raises fs)].
  intros e. pose proof (same_run_process_chunks svc pod_id chunks) as Hsim.
  destruct (EmbedChunks.process_chunks svc chunks pod_id) as [sp|e1],
           (EmbedViaHttp.process_chunks svc chunks) as [sh|e2];
    simpl in Hsim; try done.
  rewrite Hsim. split; intros [= <-]; reflexivity.
Qed.

Lemma run_aborts_on_missing_field_witness :
  let a := sample_chunk "a" "alpha" in
  let bad : chunk := {[ "chunk_id" := JStr "b" ]} in
  EmbedChunks.process_chunks sample_service [a; bad] 0
  = Raise (KeyError "text")
  ∧ ∃ e, EmbedViaHttp.process_chunks sample_service [a; bad] = Raise e.
Proof.
  intros a bad.
  destruct (run_aborts_on_missing_field sample_service [a; bad] 0)
    as (_ & Hbad & Hsame & _).
  destruct (Hbad bad ltac:(right; left) eq_refl) as (e & He).
  split; [vm_compute; reflexivity|].
  exists e. by apply Hsame.
Defined.

(** ** Runs in which every call succeeds, any number of chunks *)

Lemma texts_of_Forall2 batch texts :
  Forall2 (λ (c : chunk) t, c !! "text" = Some t) batch texts →
  texts_of batch = Return texts.
Proof.
  induction 1 as [|c t batch texts Ht _ IH]; [reflexivity|].
  simpl. unfold getitem. rewrite Ht. simpl. by rewrite IH.
Qed.

Lemma slices_concat {A} (l : list A) m a :
  concat ((λ k, take EMBED_BATCH_SIZE (drop (k * EMBED_BATCH_SIZE) l))
            <$> seq a m)
  = take (m * EMBED_BATCH_SIZE) (drop (a * EMBED_BATCH_SIZE) l).
Proof.
  revert a. induction m as [|m IH]; intros a; [reflexivity|].
  cbn [seq fmap list_fmap concat]. rewrite IH.
  rewrite (Nat.mul_succ_l m), (Nat.add_comm (m * _)), <- take_take_drop,
    drop_drop.
  by replace (a * EMBED_BATCH_SIZE + EMBED_BATCH_SIZE)
    with (S a * EMBED_BATCH_SIZE) by lia.
Qed.

Lemma groups_cover total :
  total ≤ (total + EMBED_BATCH_SIZE - 1) / EMBED_BATCH_SIZE * EMBED_BATCH_SIZE.
Proof.
  unfold EMBED_BATCH_SIZE.
  pose proof (Nat.div_mod_eq (total + 25 - 1) 25).
  pose proof (Nat.mod_upper_bound (total + 25 - 1) 25). lia.
Qed.

Section PodSuccessTexts.
Import EmbedChunks PodView.
Variables (svc : service) (pod_id : Z) (chunks : list chunk) (ts : list json).
Hypothesis Htexts : Forall2 (λ (c : chunk) t, c !! "text" = Some t) chunks ts.
Hypothesis Hsucc : always_succeeds svc.

Lemma pod_success_loop_texts m a st :
  ∃ st' vectors,
    for_each (process_batch svc pod_id chunks) st
      ((λ k, k * EMBED_BATCH_SIZE) <$> seq a m) = Return st'
    ∧ emitted st'
      = emitted st
        ++ zip_with set_embedding
             (take (m * EMBED_BATCH_SIZE) (drop (a * EMBED_BATCH_SIZE) chunks))
             vectors
    ∧ length vectors
      = length (take (m * EMBED_BATCH_SIZE) (drop (a * EMBED_BATCH_SIZE) chunks))
    ∧ processed st' = processed st + length vectors
    ∧ calls st'
      = calls st
        ++ ((λ k, take EMBED_BATCH_SIZE (drop (k * EMBED_BATCH_SIZE) ts))
              <$> seq a m)
    ∧ skip_lines (stdout st') = skip_lines (stdout st).
Proof.
  revert a st. induction m as [|m IH]; intros a st.
  { exists st, []. simpl. by rewrite !app_nil_r, Nat.add_0_r. }
  cbn [seq fmap list_fmap for_each].
  set (batch := take EMBED_BATCH_SIZE (drop (a * EMBED_BATCH_SIZE) chunks)).
  set (texts := take EMBED_BATCH_SIZE (drop (a * EMBED_BATCH_SIZE) ts)).
  assert (Forall2 (λ (c : chunk) t, c !! "text" = Some t) batch texts) as Hall
    by (by apply Forall2_take, Forall2_drop).
  pose proof (texts_of_Forall2 _ _ Hall) as Hbatch.
  destruct (Hsucc (length (calls st)) texts) as (embs & Hr & Hlen).
  apply Forall2_length in Hall.
  destruct (pod_process_batch_reply svc pod_id chunks st
              (a * EMBED_BATCH_SIZE) texts embs Hbatch Hr)
    as (st1 & Hst1 & He1 & Hp1 & Hc1 & Ho1 & _).
  fold batch in He1, Hp1.
  rewrite Hst1. cbn [result_bind].
  destruct (IH (S a) st1) as (st' & vectors & Hst' & He & Hv & Hp & Hc & Ho).
  exists st', (embs ++ vectors).
  assert (take (S m * EMBED_BATCH_SIZE) (drop (a * EMBED_BATCH_SIZE) chunks)
          = batch ++ take (m * EMBED_BATCH_SIZE)
                       (drop (S a * EMBED_BATCH_SIZE) chunks)) as Hsplit.
  { subst batch. rewrite (Nat.mul_succ_l m), (Nat.mul_succ_l a),
      (Nat.add_comm (m * _)), <- take_take_drop, drop_drop. reflexivity. }
  split; [exact Hst'|]. rewrite Hsplit.
  rewrite length_zip_with_l in Hp1 by lia.
  split; [|split; [|split; [|split]]].
  - rewrite He, He1, zip_with_app, app_assoc by lia. reflexivity.
  - rewrite !length_app, Hv. lia.
  - rewrite Hp, Hp1, length_app. lia.
  - rewrite Hc, Hc1, <- app_assoc. reflexivity.
  - by rewrite Ho.
Qed.

End PodSuccessTexts.

(** X11. When every record has a text and every call returns one vector
    per text, a run on any number of chunks ends without needing any
    identifier; its requests are the consecutive slices of 25 of the
    sequence of texts, so that every text is sent exactly once and in
    input order; every chunk comes out, in input order, with a vector;
    the processed counter equals the number of chunks and none is
    skipped. *)
Theorem all_calls_succeed_run
    (svc : service) (chunks : list chunk) (texts : list json) (pod_id : Z) :
  texts_of chunks = Return texts →
  always_succeeds svc →
  ∃ sp vectors,
    EmbedChunks.process_chunks svc chunks pod_id = Return sp
    ∧ EmbedChunks.calls sp
      = (λ k, take 25 (drop (k * 25) texts))
          <$> seq 0 ((length chunks + 24) / 25)
    ∧ concat (EmbedChunks.calls sp) = texts
    ∧ length vectors = length chunks
    ∧ concat (snd <$> EmbedChunks.disk sp)
      = zip_with set_embedding chunks vectors
    ∧ EmbedChunks.processed sp = length chunks
    ∧ skip_lines (EmbedChunks.stdout sp) = []
    ∧ ∃ sh,
        EmbedViaHttp.process_chunks svc chunks = Return sh
        ∧ EmbedViaHttp.calls sh = EmbedChunks.calls sp
        ∧ snd <$> EmbedViaHttp.disk sh = snd <$> EmbedChunks.disk sp
        ∧ EmbedViaHttp.processed sh = length chunks
        ∧ EmbedViaHttp.failed sh = 0.
Proof.
  intros Htexts Hsucc. apply texts_of_inv in Htexts.
  pose proof (Forall2_length _ _ _ Htexts) as Hlen.
  destruct (pod_success_loop_texts svc pod_id chunks texts Htexts Hsucc
              ((length chunks + EMBED_BATCH_SIZE - 1) / EMBED_BATCH_SIZE) 0
              EmbedChunks.init)
    as (st0 & vectors & Hloop & He & Hv & Hp & Hc & Ho).
  pose proof (groups_cover (length chunks)) as Hcover.
  rewrite drop_0, take_ge in He, Hv by lia.
  change (PodView.emitted EmbedChunks.init) with (@nil chunk) in He.
  rewrite app_nil_l in He.
  change (EmbedChunks.calls EmbedChunks.init) with (@nil (list json)) in Hc.
  rewrite app_nil_l in Hc.
  assert (EmbedChunks.process_chunks svc chunks pod_id
          = Return (EmbedChunks.finish pod_id st0)) as Hrun.
  { unfold EmbedChunks.process_chunks, range_step. by rewrite Hloop. }
  assert (skip_lines (EmbedChunks.stdout (EmbedChunks.finish pod_id st0)) = [])
    as Hskip by (by rewrite skip_lines_finish, Ho).
  exists (EmbedChunks.finish pod_id st0), vectors.
  split; [exact Hrun|]. rewrite calls_finish, Hc.
  replace (length chunks + 24) with (length chunks + EMBED_BATCH_SIZE - 1)
    by (unfold EMBED_BATCH_SIZE; lia).
  split; [reflexivity|]. split.
  { rewrite slices_concat, drop_0, take_ge by lia. reflexivity. }
  split; [exact Hv|]. split.
  { by rewrite disk_finish, contents_save_remaining. }
  split; [by rewrite processed_finish, Hp, Hv|]. split; [exact Hskip|].
  destruct (pod_run_has_http _ _ _ _ Hrun) as (sh & Hhttp & Hsim).
  exists sh. split; [exact Hhttp|].
  pose proof (same_run_contents _ _ _ Hsim) as Hcont.
  pose proof (counted_process_chunks _ _ _ Hhttp) as Hcount.
  destruct Hsim as (Hp' & _ & _ & _ & Hc' & Ho').
  split; [by rewrite <- Hc', calls_finish, Hc|]. split; [by rewrite Hcont|].
  split; [by rewrite <- Hp', processed_finish, Hp, Hv|].
  unfold counted in Hcount. by rewrite Hcount, <- Ho', Hskip.
Qed.

Lemma all_calls_succeed_run_witness :
  let nameless : chunk := {[ "text" := JStr "alpha" ]} in
  ∃ sp,
    EmbedChunks.process_chunks sample_service [nameless; nameless] 0
    = Return sp
    ∧ EmbedChunks.calls sp = [[JStr "alpha"; JStr "alpha"]]
    ∧ EmbedChunks.processed sp = 2.
Proof.
  intros nameless.
  assert (always_succeeds sample_service) as Hsucc.
  { intros n texts. eexists. split; [reflexivity|]. by rewrite length_fmap. }
  destruct (all_calls_succeed_run sample_service [nameless; nameless]
              [JStr "alpha"; JStr "alpha"] 0 eq_refl Hsucc)
    as (sp & vectors & Hrun & Hcalls & _ & _ & _ & Hp & _).
  exists sp. split; [exact Hrun|]. split; [exact Hcalls|exact Hp].
Defined.

(** ** The fallback loop of a group, chunk by chunk *)



Section HttpFallbackExact.
Import EmbedViaHttp HttpView.
Variable svc : service.


End HttpFallbackExact.

Section PodFallbackExact.
Import EmbedChunks PodView.
Variables (svc : service) (pod_id : Z).


End PodFallbackExact.



(** ** Whole runs of [main] *)

Lemma pod_success_contents svc pod_id chunks texts :
  Forall2 (λ (c : chunk) t, c !! "text" = Some t) chunks texts →
  always_succeeds svc →
  ∃ sp vectors,
    EmbedChunks.process_chunks svc chunks pod_id = Return sp
    ∧ length vectors = length chunks
    ∧ concat (snd <$> EmbedChunks.disk sp)
      = zip_with set_embedding chunks vectors.
Proof.
  intros Htexts Hsucc.
  destruct (pod_success_loop_texts svc pod_id chunks texts Htexts Hsucc
              ((length chunks + EMBED_BATCH_SIZE - 1) / EMBED_BATCH_SIZE) 0
              EmbedChunks.init)
    as (st0 & vectors & Hloop & He & Hv & _).
  pose proof (groups_cover (length chunks)) as Hcover.
  rewrite drop_0, take_ge in He, Hv by lia.
  change (PodView.emitted EmbedChunks.init) with (@nil chunk) in He.
  rewrite app_nil_l in He.
  exists (EmbedChunks.finish pod_id st0), vectors. split.
  { unfold EmbedChunks.process_chunks, range_step. by rewrite Hloop. }
  split; [exact Hv|]. by rewrite disk_finish, contents_save_remaining.
Qed.

Lemma main_window_success svc (records : list chunk) texts p offset count :
  Forall2 (λ (c : chunk) t, c !! "text" = Some t) records texts →
  always_succeeds svc →
  ∃ out vectors,
    EmbedChunks.main svc (Record <$> records) p (Z.of_nat offset)
      (Some (Z.of_nat count)) false = Return out
    ∧ length vectors = length (take count (drop offset records))
    ∧ pod_written out
      = zip_with set_embedding (take count (drop offset records)) vectors
    ∧ Forall (λ name : Z * nat, name.1 = p) (pod_files out).
Proof.
  intros Htexts Hsucc. unfold EmbedChunks.main.
  rewrite v1_load_window. cbn [result_bind].
  rewrite Nat2Z.id.
  replace (take_count (Some (Z.of_nat count)) 0 (drop offset records))
    with (take count (drop offset records))
    by (unfold take_count; by rewrite Nat2Z.id, Nat.sub_0_r).
  remember (take count (drop offset records)) as window eqn:Hw.
  assert (Forall2 (λ (c : chunk) t, c !! "text" = Some t) window
            (take count (drop offset texts))) as Hwin
    by (subst window; by apply Forall2_take, Forall2_drop).
  destruct (pod_success_contents svc p window _ Hwin Hsucc)
    as (sp & vectors & Hrun & Hv & Hcont).
  destruct window as [|c rest].
  { exists EmbedChunks.NoChunks, []. by repeat split. }
  rewrite Hrun. cbn [result_bind].
  exists (EmbedChunks.Processed sp), vectors.
  split; [done|]. split; [exact Hv|]. split; [exact Hcont|].
  destruct (pod_ended_run_files _ _ _ _ Hrun) as (_ & _ & _ & Hnames & _).
  cbn [pod_files]. rewrite Hnames. apply Forall_fmap, Forall_forall. by intros.
Qed.

Lemma pod_runs_cover svcs (records : list chunk) texts n ps :
  Forall2 (λ (c : chunk) t, c !! "text" = Some t) records texts →
  (∀ p, always_succeeds (svcs p)) →
  let window := EmbedChunks.pod_window (length records) n in
  ∃ outs vectors,
    (λ p, EmbedChunks.main (svcs p) (Record <$> records) (Z.of_nat p)
            (Z.of_nat (window p).1) (Some (Z.of_nat (window p).2)) false)
      <$> ps = Return <$> outs
    ∧ length vectors
      = length (concat ((λ p, take (window p).2 (drop (window p).1 records))
                          <$> ps))
    ∧ concat (pod_written <$> outs)
      = zip_with set_embedding
          (concat ((λ p, take (window p).2 (drop (window p).1 records))
                     <$> ps))
          vectors
    ∧ Forall2 (λ p o, Forall (λ name : Z * nat, name.1 = Z.of_nat p)
                        (pod_files o)) ps outs.
Proof.
  intros Htexts Hsucc window. induction ps as [|p ps IH].
  { exists [], []. by repeat split. }
  destruct IH as (outs & vectors & Hruns & Hlen & Hcat & Hnames).
  destruct (main_window_success (svcs p) records texts (Z.of_nat p)
              (window p).1 (window p).2 Htexts (Hsucc p))
    as (out & vs & Hrun & Hv & Hout & Hname).
  exists (out :: outs), (vs ++ vectors).
  cbn [fmap list_fmap concat]. rewrite Hrun, Hruns.
  split; [reflexivity|]. split; [by rewrite !length_app, Hv, Hlen|].
  split; [by rewrite zip_with_app, Hout, Hcat by done|].
  by constructor.
Qed.

(** X13. Pods started as the plan of [--stats] says embed the whole
    store between them: on a store of records that all carry a text,
    split over any number [n >= 1] of pods whose endpoints answer every
    call, every run of [main] ends, the chunks the pods write, put end to
    end in pod order, are the records of the store in store order, each
    once and each with a vector, and no file name is used by two pods. *)
Theorem pods_embed_whole_store
    (svcs : nat → service) (records : list chunk) (texts : list json)
    (n : nat) :
  1 ≤ n →
  texts_of records = Return texts →
  (∀ p, always_succeeds (svcs p)) →
  ∃ outs vectors,
    pod_runs svcs (Record <$> records) n = Return <$> outs
    ∧ length vectors = length records
    ∧ concat (pod_written <$> outs) = zip_with set_embedding records vectors
    ∧ ∀ p q o o' name,
        outs !! p = Some o → outs !! q = Some o' →
        name ∈ pod_files o → name ∈ pod_files o' → p = q.
Proof.
  intros Hn Htexts Hsucc. apply texts_of_inv in Htexts.
  destruct (pod_runs_cover svcs records texts n (seq 0 n) Htexts Hsucc)
    as (outs & vectors & Hruns & Hlen & Hcat & Hnames).
  assert (concat ((λ p, take (EmbedChunks.pod_window (length records) n p).2
                          (drop (EmbedChunks.pod_window (length records) n p).1
                             records)) <$> seq 0 n) = records) as Hcover.
  { etrans; [|exact (plan_windows_take records n Hn)].
    unfold EmbedChunks.plan. by rewrite <- list_fmap_compose. }
  rewrite Hcover in Hlen, Hcat.
  exists outs, vectors. split.
  { unfold pod_runs, EmbedChunks.count_chunks. rewrite length_fmap.
    exact Hruns. }
  split; [exact Hlen|]. split; [exact Hcat|].
  intros p q o o' name Hp Hq Ho Ho'.
  destruct (Forall2_lookup_r _ _ _ _ _ Hnames Hp) as (p' & Hp' & Hfp).
  destruct (Forall2_lookup_r _ _ _ _ _ Hnames Hq) as (q' & Hq' & Hfq).
  apply lookup_seq in Hp' as [-> _]. apply lookup_seq in Hq' as [-> _].
  rewrite Forall_forall in Hfp, Hfq.
  specialize (Hfp name Ho). specialize (Hfq name Ho'). simpl in *. lia.
Qed.

Lemma pods_embed_whole_store_witness :
  let a := sample_chunk "a" "alpha" in
  let b := sample_chunk "b" "beta" in
  let c := sample_chunk "c" "gamma" in
  ∃ outs vectors,
    pod_runs (λ _, sample_service) [Record a; Record b; Record c] 2
    = Return <$> outs
    ∧ length vectors = 3
    ∧ concat (pod_written <$> outs)
      = zip_with set_embedding [a; b; c] vectors.
Proof.
  intros a b c.
  assert (∀ p : nat, always_succeeds ((λ _, sample_service) p)) as Hsucc.
  { intros _ k texts. eexists. split; [reflexivity|]. by rewrite length_fmap. }
  destruct (pods_embed_whole_store (λ _, sample_service) [a; b; c]
              [JStr "alpha"; JStr "beta"; JStr "gamma"] 2 ltac:(lia)
              eq_refl Hsucc)
    as (outs & vectors & Hruns & Hlen & Hcat & _).
  exists outs, vectors. split; [exact Hruns|]. split; [exact Hlen|exact Hcat].
Defined.

Lemma parse_all_raise lines e : parse_all lines = Raise e → e = JSONDecodeError.
Proof.
  induction lines as [|[raw|c] lines IH]; simpl; [done|by intros [= <-]|].
  destruct (parse_all lines) as [records|e']; simpl; [done|].
  intros [= <-]. by apply IH.
Qed.

(** X14. [main] of [embed_chunks_v2.py] checks the whole store before it
    looks at its window.  It ends in a division by zero exactly when the
    store is empty, whatever the flags, [--stats] included.  On a store
    with a line that holds no JSON object it ends in the exception of the
    first such line, a parse error when that line is not JSON and an
    attribute error when it holds another JSON value, wherever the line
    is with respect to the offset and the count; and it ends in one of
    these two exceptions in no other case.  [main] of [embed_chunks.py],
    which only counts the lines, reports an empty store as nothing to
    process. *)
Theorem v2_main_checks_whole_store
    (svc : service) (lines : list any_line) (pod_id offset : Z)
    (count : option Z) (stats : bool) :
  (EmbedChunksV2Full.main svc lines pod_id offset count stats
   = EmbedChunksV2.ZeroDivisionError ↔ lines = [])
  ∧ (∀ (records : list chunk) l rest,
       lines = (Object <$> records) ++ l :: rest →
       is_object l = false →
       EmbedChunksV2Full.main svc lines pod_id offset count stats
       = EmbedChunksV2.Uncaught (error_of l))
  ∧ (∀ e,
       EmbedChunksV2Full.main svc lines pod_id offset count stats
       = EmbedChunksV2.Uncaught e →
       e = JSONDecodeError ∨ e = AttributeError →
       ∃ (records : list chunk) l rest,
         lines = (Object <$> records) ++ l :: rest
         ∧ is_object l = false ∧ e = error_of l)
  ∧ EmbedChunks.main svc [] pod_id offset count false
    = Return EmbedChunks.NoChunks.
Proof.
  assert (EmbedChunksV2Full.count_chunks lines
          = (do records <- dicts_all lines;
             Return (length records,
                     length (filter (λ c, is_indexable c = true) records))))
    as Hcount.
  { unfold EmbedChunksV2Full.count_chunks.
    by rewrite full_v2_count_loop_exact. }
  unfold EmbedChunksV2Full.main. rewrite Hcount.
  split; [|split; [|split; [|reflexivity]]].
  - destruct (dicts_all lines) as [records|e] eqn:Hp; cbn [result_bind].
    + apply dicts_all_inv in Hp as ->.
      destruct records as [|r records]; [done|].
      cbn [length Nat.eqb]. split; [|done].
      destruct stats; [done|].
      destruct (EmbedChunksV2Full.load_indexable_chunks _ _ _)
        as [[[|c cs] sk]|e]; try done.
      by destruct (EmbedChunksV2.process_chunks _ _ _).
    + split; [done|]. intros ->. done.
  - intros records l rest -> Hl. by rewrite dicts_all_first_bad.
  - intros e.
    destruct (dicts_all lines) as [records|e'] eqn:Hp; cbn [result_bind].
    + apply dicts_all_inv in Hp as ->.
      destruct (length records =? 0); [done|].
      destruct stats; [done|].
      unfold EmbedChunksV2Full.load_indexable_chunks.
      destruct (full_v2_load_loop_objects offset count records [] 0)
        as (chunks & sk & ->).
      destruct chunks as [|c cs]; [done|].
      destruct (EmbedChunksV2.process_chunks svc (c :: cs) pod_id)
        as [st|e'] eqn:Hrun; [done|].
      intros [= <-] He.
      apply abort_run in Hrun as [[-> _]|[-> _]]; by destruct He.
    + intros [= <-] _. by apply dicts_all_raise.
Qed.

Lemma v2_main_checks_whole_store_witness :
  EmbedChunksV2Full.main sample_service
    [Object (sample_chunk "a" "alpha"); Other JNull; Unparsable "{oops"]
    0 0 (Some 1%Z) true
  = EmbedChunksV2.Uncaught AttributeError.
Proof.
  exact (proj1 (proj2 (v2_main_checks_whole_store sample_service
                         [Object (sample_chunk "a" "alpha"); Other JNull;
                          Unparsable "{oops"] 0 0 (Some 1%Z) true))
           [sample_chunk "a" "alpha"] (Other JNull) [Unparsable "{oops"]
           eq_refl eq_refl).
Defined.

(** X15. The two scripts that filter, run from [main] on the whole of a
    non-empty store of records (offset 0 and no count for
    [embed_chunks_v2.py], a reachable endpoint for [embed_via_http.py]),
    embed exactly the usable records: when these all carry a text and
    every call is answered, both runs end having written the usable
    records, in store order, each once and each with a vector, in the same
    files, and report the number of records flagged as not usable, which
    need not even carry a text; when no record is usable both stop before
    any processing. *)
Theorem filtered_runs_embed_usable
    (svc : service) (records : list chunk) (texts : list json) (pod_id : Z) :
  let store := Record <$> records in
  let usable := filter (λ c, is_indexable c = true) records in
  records ≠ [] →
  texts_of usable = Return texts →
  always_succeeds svc →
  (usable = [] →
   EmbedChunksV2.main svc store pod_id 0 None false
   = EmbedChunksV2.NoChunks (length records)
   ∧ EmbedViaHttp.main true svc store = EmbedViaHttp.NoChunks (length records))
  ∧ (usable ≠ [] →
     ∃ sp sh vectors,
       EmbedChunksV2.main svc store pod_id 0 None false
       = EmbedChunksV2.Processed (length (unusable records)) sp
       ∧ EmbedViaHttp.main true svc store
         = EmbedViaHttp.Processed (length (unusable records)) sh
       ∧ length vectors = length usable
       ∧ concat (snd <$> EmbedChunks.disk sp)
         = zip_with set_embedding usable vectors
       ∧ snd <$> EmbedViaHttp.disk sh = snd <$> EmbedChunks.disk sp).
Proof.
  intros store usable Hne Htexts Hsucc.
  pose proof (usable_unusable_length records) as Hlen. fold usable in Hlen.
  assert (EmbedChunksV2.main svc store pod_id 0 None false
          = match usable with
            | [] => EmbedChunksV2.NoChunks (length (unusable records))
            | _ :: _ =>
                match EmbedChunksV2.process_chunks svc usable pod_id with
                | Raise e => EmbedChunksV2.Uncaught e
                | Return st =>
                    EmbedChunksV2.Processed (length (unusable records)) st
                end
            end) as Hv2.
  { unfold EmbedChunksV2.main. subst store.
    rewrite v2_count_chunks_counts_aux.
    destruct records as [|r records]; [done|]. cbn [length Nat.eqb].
    unfold EmbedChunksV2.load_indexable_chunks.
    destruct (v2_load_loop_drop 0 None (r :: records) 0) as (skipped & H).
    rewrite H. apply v2_load_loop_skipped in H. rewrite Nat.add_0_l in H.
    rewrite H. change (Z.to_nat 0 - 0) with 0.
    rewrite after_unusable_zero. reflexivity. }
  assert (EmbedViaHttp.main true svc store
          = match usable with
            | [] => EmbedViaHttp.NoChunks (length (unusable records))
            | _ :: _ =>
                match EmbedViaHttp.process_chunks svc usable with
                | Raise e => EmbedViaHttp.Uncaught e
                | Return st =>
                    EmbedViaHttp.Processed (length (unusable records)) st
                end
            end) as Hhttp.
  { unfold EmbedViaHttp.main, EmbedViaHttp.load_indexable_chunks. subst store.
    rewrite http_load_loop_exact, parse_all_records. reflexivity. }
  rewrite Hv2, Hhttp. split.
  - intros Hnil. rewrite Hnil in Hlen |- *. simpl in Hlen.
    by rewrite Hlen.
  - intros Hsome. apply texts_of_inv in Htexts.
    destruct (pod_success_contents svc pod_id usable texts Htexts Hsucc)
      as (sp & vectors & Hrun & Hv & Hcont).
    destruct (pod_run_has_http _ _ _ _ Hrun) as (sh & Hrun' & Hsim).
    exists sp, sh, vectors.
    unfold EmbedChunksV2.process_chunks. rewrite Hrun, Hrun'.
    destruct usable as [|c cs]; [done|].
    split; [done|]. split; [done|]. split; [exact Hv|]. split; [exact Hcont|].
    by apply same_run_contents in Hsim.
Qed.

Lemma filtered_runs_embed_usable_witness :
  let a := sample_chunk "a" "alpha" in
  let hidden : chunk := {[ "is_indexable" := JBool false ]} in
  ∃ sp sh,
    EmbedChunksV2.main sample_service [Record a; Record hidden] 7 0 None false
    = EmbedChunksV2.Processed 1 sp
    ∧ EmbedViaHttp.main true sample_service [Record a; Record hidden]
      = EmbedViaHttp.Processed 1 sh
    ∧ snd <$> EmbedViaHttp.disk sh = snd <$> EmbedChunks.disk sp.
Proof.
  intros a hidden.
  assert (always_succeeds sample_service) as Hsucc.
  { intros n texts. eexists. split; [reflexivity|]. by rewrite length_fmap. }
  destruct (filtered_runs_embed_usable sample_service [a; hidden]
              [JStr "alpha"] 7 ltac:(done) eq_refl Hsucc) as [_ Hrun].
  destruct (Hrun ltac:(done)) as (sp & sh & vectors & Hv2 & Hhttp & _ & _ & Hd).
  exists sp, sh. split; [exact Hv2|]. split; [exact Hhttp|exact Hd].
Defined.

(** ** File names *)

Lemma split_at (a : ascii) s1 s2 r1 r2 :
  ¬ occurs a s1 → ¬ occurs a s2 →
  String.append s1 (String a r1) = String.append s2 (String a r2) →
  s1 = s2 ∧ r1 = r2.
Proof.
  revert s2. induction s1 as [|b s1 IH]; intros [|b' s2] H1 H2; simpl in *.
  - by intros [= ->].
  - intros [= -> _]. destruct H2. by left.
  - intros [= -> _]. destruct H1. by left.
  - intros [= -> H]. destruct (IH s2) as [-> ->]; [tauto|tauto|done|done].
Qed.

Lemma occurs_app a s1 s2 :
  occurs a (String.append s1 s2) ↔ occurs a s1 ∨ occurs a s2.
Proof. induction s1 as [|b s1 IH]; simpl; [tauto|]. rewrite IH. tauto. Qed.

Lemma occurs_zeros a k : occurs a (zeros k) → a = "0"%char.
Proof.
  induction k as [|k IH]; simpl; [done|]. intros [->|H]; [done|by apply IH].
Qed.

Lemma digits_uint d a :
  occurs a (NilEmpty.string_of_uint d) → 48 ≤ nat_of_ascii a ≤ 57.
Proof.
  induction d; simpl; try done; intros [->|H]; try (by apply IHd);
    vm_compute; lia.
Qed.

Lemma to_uint_nonnil n : Nat.to_uint n ≠ Decimal.Nil.
Proof.
  intros H. pose proof (DecimalNat.Unsigned.of_to n) as Hn.
  rewrite H in Hn. simpl in Hn. subst n. discriminate H.
Qed.

Lemma str_nat_digits n a : occurs a (str_nat n) → 48 ≤ nat_of_ascii a ≤ 57.
Proof.
  unfold str_nat, NilZero.string_of_uint.
  destruct (Nat.to_uint n) eqn:E; try apply digits_uint.
  by apply to_uint_nonnil in E.
Qed.

Lemma format_06d_digits n a :
  occurs a (format_06d n) → 48 ≤ nat_of_ascii a ≤ 57.
Proof.
  unfold format_06d. rewrite occurs_app. intros [H|H].
  - apply occurs_zeros in H as ->. vm_compute. lia.
  - by apply str_nat_digits in H.
Qed.

Lemma str_int_numeral z a :
  occurs a (str_int z) → a = "-"%char ∨ 48 ≤ nat_of_ascii a ≤ 57.
Proof.
  unfold str_int, NilZero.string_of_int, NilZero.string_of_uint.
  destruct (Z.to_int z) as [d|d]; simpl.
  - destruct d; simpl;
      try (intros [->|H]; right;
           [vm_compute; lia|by apply digits_uint in H]).
    intros [->|[]]. right. vm_compute; lia.
  - intros [->|H]; [by left|]. right.
    destruct d; simpl in H;
      try (destruct H as [->|H];
           [vm_compute; lia|by apply digits_uint in H]).
    destruct H as [->|[]]. vm_compute; lia.
Qed.

Lemma uint_of_zeros k s :
  NilEmpty.uint_of_string (String.append (zeros k) s)
  = Nat.iter k (option_map Decimal.D0) (NilEmpty.uint_of_string s).
Proof. induction k as [|k IH]; simpl; [done|]. by rewrite IH. Qed.

(** Reading a padded number back gives the number. *)
Lemma format_06d_value n :
  option_map Nat.of_uint (NilEmpty.uint_of_string (format_06d n)) = Some n.
Proof.
  unfold format_06d. rewrite uint_of_zeros.
  assert (NilEmpty.uint_of_string (str_nat n) = Some (Nat.to_uint n)) as ->.
  { unfold str_nat, NilZero.string_of_uint.
    destruct (Nat.to_uint n) eqn:E; rewrite <- ?E; try apply NilEmpty.usu.
    by apply to_uint_nonnil in E. }
  generalize (6 - String.length (str_nat n)). intros k.
  assert (∀ d, option_map Nat.of_uint
                 (Nat.iter k (option_map Decimal.D0) (Some d))
               = Some (Nat.of_uint d)) as H.
  { induction k as [|k IH]; intros d; simpl; [done|].
    specialize (IH d). destruct (Nat.iter k _ _); simpl in *; [|done].
    injection IH as <-. f_equal. }
  by rewrite H, DecimalNat.Unsigned.of_to.
Qed.

Lemma format_06d_inj n n' : format_06d n = format_06d n' → n = n'.
Proof.
  intros H. pose proof (format_06d_value n) as H1.
  rewrite H, format_06d_value in H1. by injection H1.
Qed.

Lemma str_int_inj z z' : str_int z = str_int z' → z = z'.
Proof.
  unfold str_int. intros H. apply DecimalZ.to_int_inj.
  assert (∀ z, Z.to_int z ≠ Decimal.Pos Decimal.Nil
               ∧ Z.to_int z ≠ Decimal.Neg Decimal.Nil) as Hnn.
  { intros [|p|p]; simpl; split; try done; intros [= E];
      by apply DecimalPos.Unsigned.to_uint_nonnil in E. }
  pose proof (NilZero.isi (Z.to_int z) (proj1 (Hnn z)) (proj2 (Hnn z))) as H1.
  pose proof (NilZero.isi (Z.to_int z') (proj1 (Hnn z')) (proj2 (Hnn z')))
    as H2.
  rewrite H in H1. congruence.
Qed.

Lemma tail_inj n n' :
  String.append (format_06d n) ".json" = String.append (format_06d n') ".json" →
  n = n'.
Proof.
  intros H. apply format_06d_inj.
  apply (split_at "."%char _ _ "json" "json"); [| |exact H];
    intros Ho; apply format_06d_digits in Ho; vm_compute in Ho; lia.
Qed.

Lemma pod_tail_inj p n p' n' :
  String.append (str_int p)
    (String.append "_batch_" (String.append (format_06d n) ".json"))
  = String.append (str_int p')
      (String.append "_batch_" (String.append (format_06d n') ".json")) →
  p = p' ∧ n = n'.
Proof.
  intros H.
  apply (split_at "_"%char) in H as [Hp H].
  - split; [by apply str_int_inj|]. apply tail_inj. by injection H.
  - intros Ho. apply str_int_numeral in Ho as [Ho|Ho]; [done|].
    vm_compute in Ho. lia.
  - intros Ho. apply str_int_numeral in Ho as [Ho|Ho]; [done|].
    vm_compute in Ho. lia.
Qed.

Lemma pod_file_name_inj p n p' n' :
  EmbedChunks.file_name p n = EmbedChunks.file_name p' n' → p = p' ∧ n = n'.
Proof. intros [= H]. by apply pod_tail_inj. Qed.

Lemma http_file_name_inj n n' :
  EmbedViaHttp.file_name n = EmbedViaHttp.file_name n' → n = n'.
Proof. intros [= H]. by apply tail_inj. Qed.

(** X16. The file names of [save_batch] never clash.  In each script the
    name determines the pod id and the sequence number it was built from,
    also past six digits, where the padding stops; the three scripts use
    three disjoint families of names, so that [embed_chunks_v2.py] and
    [embed_via_http.py], which share their default output directory,
    never write to the same file; and the files a run writes all have
    different names: a run never overwrites a file of its own. *)
Theorem file_names_never_clash
    (svc : service) (chunks : list chunk) (pod_id : Z) :
  (∀ p n p' n',
     EmbedChunks.file_name p n = EmbedChunks.file_name p' n' →
     p = p' ∧ n = n')
  ∧ (∀ p n p' n',
       EmbedChunksV2.file_name p n = EmbedChunksV2.file_name p' n' →
       p = p' ∧ n = n')
  ∧ (∀ n n', EmbedViaHttp.file_name n = EmbedViaHttp.file_name n' → n = n')
  ∧ (∀ p n n', EmbedChunksV2.file_name p n ≠ EmbedViaHttp.file_name n')
  ∧ (∀ p n p' n', EmbedChunks.file_name p n ≠ EmbedChunksV2.file_name p' n')
  ∧ (∀ p n n', EmbedChunks.file_name p n ≠ EmbedViaHttp.file_name n')
  ∧ (∀ sp,
       EmbedChunks.process_chunks svc chunks pod_id = Return sp →
       NoDup ((λ key : Z * nat, EmbedChunks.file_name key.1 key.2)
                <$> (fst <$> EmbedChunks.disk sp))
       ∧ NoDup ((λ key : Z * nat, EmbedChunksV2.file_name key.1 key.2)
                  <$> (fst <$> EmbedChunks.disk sp)))
  ∧ (∀ sh,
       EmbedViaHttp.process_chunks svc chunks = Return sh →
       NoDup (EmbedViaHttp.file_name <$> (fst <$> EmbedViaHttp.disk sh))).
Proof.
  assert (∀ p n p' n',
            EmbedChunksV2.file_name p n = EmbedChunksV2.file_name p' n' →
            p = p' ∧ n = n') as Hv2.
  { intros p n p' n' [= H]. by apply pod_tail_inj. }
  split; [exact pod_file_name_inj|]. split; [exact Hv2|].
  split; [exact http_file_name_inj|].
  split; [by intros p n n' [= H]|]. split; [by intros p n p' n' [= H]|].
  split; [by intros p n n' [= H]|]. split.
  - intros sp Hrun.
    destruct (pod_ended_run_files _ _ _ _ Hrun) as (_ & _ & _ & Hnames & _).
    rewrite Hnames, <- !list_fmap_compose. split.
    + apply NoDup_fmap_2; [|apply NoDup_seq].
      intros k k' H. unfold compose in H. simpl in H.
      by apply pod_file_name_inj in H as [_ ?].
    + apply NoDup_fmap_2; [|apply NoDup_seq].
      intros k k' H. unfold compose in H. simpl in H.
      by apply Hv2 in H as [_ ?].
  - intros sh Hrun.
    destruct (http_ended_run_files _ _ _ Hrun) as (_ & _ & _ & Hnames & _).
    rewrite Hnames. apply NoDup_fmap_2; [|apply NoDup_seq].
    intros k k' H. by apply http_file_name_inj in H.
Qed.

Lemma file_names_never_clash_witness :
  EmbedChunks.file_name 3 12 = "chunks_pod3_batch_000012.json"
  ∧ EmbedViaHttp.file_name 42 = "chunks_v2_batch_000042.json"
  ∧ EmbedChunksV2.file_name (-1) 0 ≠ EmbedViaHttp.file_name 0
  ∧ ∃ sh,
      EmbedViaHttp.process_chunks sample_service [sample_chunk "a" "alpha"]
      = Return sh
      ∧ NoDup (EmbedViaHttp.file_name <$> (fst <$> EmbedViaHttp.disk sh)).
Proof.
  split; [reflexivity|]. split; [by vm_compute|].
  destruct (file_names_never_clash sample_service [sample_chunk "a" "alpha"] 0)
    as (_ & _ & _ & Hclash & _ & _ & _ & Hhttp).
  split; [exact (Hclash (-1)%Z 0 0)|].
  eexists. split; [reflexivity|]. by apply Hhttp.
Defined.

(** ** Load put on the endpoint *)


Section PodBudget.
Import EmbedChunks.
Variables (svc : service) (pod_id : Z) (chunks : list chunk).






End PodBudget.



(** ** Layout of the files *)

Lemma blocks_layout {A} (N : nat) (ls : list (list A)) :
  0 < N →
  Forall (λ f, 1 ≤ length f ≤ N) ls →
  (∀ j f, ls !! j = Some f → S j < length ls → length f = N) →
  (∀ j f, ls !! j = Some f → f = take N (drop (N * j) (concat ls)))
  ∧ length ls = (length (concat ls) + N - 1) / N.
Proof.
  intros HN. induction ls as [|f ls IH]; intros Hsize Hfull.
  { split; [done|]. simpl. symmetry. apply Nat.div_small. lia. }
  apply Forall_cons in Hsize as [Hf Hsize].
  destruct IH as [IHblock IHcount]; [done| |].
  { intros j g Hj Hlt. apply (Hfull (S j) g Hj). simpl. lia. }
  destruct ls as [|g ls].
  - split.
    + intros [|j] f' Hj; [|done]. injection Hj as <-. simpl.
      rewrite app_nil_r, Nat.mul_0_r, drop_0, take_ge; [done|lia].
    + simpl. rewrite app_nil_r.
      apply (Nat.div_unique _ _ 1 (length f - 1)); lia.
  - assert (length f = N) as Hlen by (apply (Hfull 0 f eq_refl); simpl; lia).
    remember (g :: ls) as rest eqn:Hrest. clear Hrest Hfull Hsize.
    split.
    + intros [|j] f' Hj.
      * injection Hj as <-. rewrite Nat.mul_0_r, drop_0.
        cbn [concat]. rewrite take_app_length'; done.
      * cbn [concat]. rewrite drop_app_ge by lia.
        replace (N * S j - length f) with (N * j) by lia.
        by apply IHblock.
    + cbn [concat length]. rewrite length_app, Hlen, IHcount.
      replace (N + length (concat rest) + N - 1)
        with (1 * N + (length (concat rest) + N - 1)) by lia.
      rewrite Nat.div_add_l by lia. reflexivity.
Qed.

(** X18. The files of a run that ends, and whose file writes succeed, are
    the stream of embedded chunks cut into consecutive blocks of 100: file
    number [j] holds the chunks from position [100 j] on, up to 100 of
    them; the number of files is the processed counter divided by 100,
    rounded up, and it is the number the final line of [embed_chunks.py]
    reports.  The last part says it of the run of [embed_chunks.py] with a
    disk, all of whose writes succeed. *)
Theorem files_are_consecutive_blocks
    (svc : service) (chunks : list chunk) (pod_id : Z) :
  (∀ sp,
     EmbedChunks.process_chunks svc chunks pod_id = Return sp →
     let files := snd <$> EmbedChunks.disk sp in
     (∀ j f, files !! j = Some f →
             f = take 100 (drop (100 * j) (concat files)))
     ∧ length files = (EmbedChunks.processed sp + 99) / 100
     ∧ last (EmbedChunks.stdout sp)
       = Some (Done (EmbedChunks.processed sp)
                    ((EmbedChunks.processed sp + 99) / 100)))
  ∧ (∀ sh,
       EmbedViaHttp.process_chunks svc chunks = Return sh →
       let files := snd <$> EmbedViaHttp.disk sh in
       (∀ j f, files !! j = Some f →
               f = take 100 (drop (100 * j) (concat files)))
       ∧ length files = (EmbedViaHttp.processed sh + 99) / 100)
  ∧ (∀ fs g,
       writes_succeed fs →
       EmbedChunksFull.process_chunks fs svc chunks pod_id = Return g →
       let files := snd <$> EmbedChunksFull.disk g in
       (∀ j f, files !! j = Some f →
               f = take 100 (drop (100 * j) (concat files)))
       ∧ length files = (EmbedChunksFull.processed g + 99) / 100
       ∧ last (EmbedChunksFull.stdout g)
         = Some (Done (EmbedChunksFull.processed g)
                      ((EmbedChunksFull.processed g + 99) / 100))).
Proof.
  assert (∀ sp,
            EmbedChunks.process_chunks svc chunks pod_id = Return sp →
            let files := snd <$> EmbedChunks.disk sp in
            (∀ j f, files !! j = Some f →
                    f = take 100 (drop (100 * j) (concat files)))
            ∧ length files = (EmbedChunks.processed sp + 99) / 100
            ∧ last (EmbedChunks.stdout sp)
              = Some (Done (EmbedChunks.processed sp)
                           ((EmbedChunks.processed sp + 99) / 100)))
    as Hpod; [|split; [exact Hpod|split]].
  - intros sp Hrun files. subst files.
    destruct (pod_ended_run_files _ _ _ _ Hrun)
      as (Hle & Hfull & Hsum & _ & _ & _ & out & _ & Hout).
    destruct (blocks_layout FILE_BATCH_SIZE (snd <$> EmbedChunks.disk sp))
      as [Hblock Hcount]; [unfold FILE_BATCH_SIZE; lia|done|done|].
    rewrite <- length_concat_sum in Hsum. rewrite Hsum in Hcount.
    change (EmbedChunks.processed sp + FILE_BATCH_SIZE - 1)
      with (EmbedChunks.processed sp + 100 - 1) in Hcount.
    replace (EmbedChunks.processed sp + 100 - 1)
      with (EmbedChunks.processed sp + 99) in Hcount by lia.
    split; [exact Hblock|]. split; [exact Hcount|].
    rewrite Hout, last_snoc. rewrite length_fmap in Hcount.
    by rewrite Hcount.
  - intros sh Hrun files. subst files.
    destruct (http_ended_run_files _ _ _ Hrun) as (Hle & Hfull & Hsum & _).
    destruct (blocks_layout FILE_BATCH_SIZE (snd <$> EmbedViaHttp.disk sh))
      as [Hblock Hcount]; [unfold FILE_BATCH_SIZE; lia|done|done|].
    rewrite <- length_concat_sum in Hsum. rewrite Hsum in Hcount.
    change (EmbedViaHttp.processed sh + FILE_BATCH_SIZE - 1)
      with (EmbedViaHttp.processed sh + 100 - 1) in Hcount.
    replace (EmbedViaHttp.processed sh + 100 - 1)
      with (EmbedViaHttp.processed sh + 99) in Hcount by lia.
    split; [exact Hblock|exact Hcount].
  - intros fs g Hfs Hrun.
    destruct (disk_run_has_pod _ _ _ _ _ Hfs Hrun)
      as (sp & Hrun' & Hp & _ & _ & Hd & _ & Ho).
    rewrite Hp, Hd, Ho. by apply Hpod.
Qed.

Lemma files_are_consecutive_blocks_witness :
  let chunks := [sample_chunk "a" "alpha"; sample_chunk "b" "beta"] in
  ∃ sp,
    EmbedChunks.process_chunks sample_service chunks 0 = Return sp
    ∧ length (snd <$> EmbedChunks.disk sp)
      = (EmbedChunks.processed sp + 99) / 100.
Proof.
  intros chunks. eexists. split; [reflexivity|].
  exact (proj1 (proj2 (proj1 (files_are_consecutive_blocks sample_service
                                chunks 0) _ eq_refl))).
Defined.

(** ** The processors side by side *)

(** X19. [process_chunks] of [embed_chunks.py] and of [embed_via_http.py]
    are the same loop: on any input and against any endpoint either both
    abort with the same exception or both end, with the same processed
    counter, the same requests in the same order, the same skip lines and
    the same files up to the pod id in their names; the failed counter
    that only [embed_via_http.py] keeps is the number of skip lines.  In
    particular the pod id changes nothing but the file names. *)
Theorem processors_agree
    (svc : service) (chunks : list chunk) (pod_id pod_id' : Z) :
  result_rel
    (λ sp sh,
       EmbedChunks.processed sp = EmbedViaHttp.processed sh
       ∧ EmbedChunks.calls sp = EmbedViaHttp.calls sh
       ∧ EmbedChunks.disk sp
         = (λ f : nat * list chunk, ((pod_id, f.1), f.2))
             <$> EmbedViaHttp.disk sh
       ∧ skip_lines (EmbedChunks.stdout sp)
         = skip_lines (EmbedViaHttp.stdout sh)
       ∧ EmbedViaHttp.failed sh
         = length (skip_lines (EmbedChunks.stdout sp)))
    (EmbedChunks.process_chunks svc chunks pod_id)
    (EmbedViaHttp.process_chunks svc chunks)
  ∧ result_rel
      (λ sp sp',
         EmbedChunks.processed sp = EmbedChunks.processed sp'
         ∧ EmbedChunks.calls sp = EmbedChunks.calls sp'
         ∧ snd <$> EmbedChunks.disk sp = snd <$> EmbedChunks.disk sp'
         ∧ snd <$> (fst <$> EmbedChunks.disk sp)
           = snd <$> (fst <$> EmbedChunks.disk sp')
         ∧ skip_lines (EmbedChunks.stdout sp)
           = skip_lines (EmbedChunks.stdout sp'))
      (EmbedChunks.process_chunks svc chunks pod_id)
      (EmbedChunks.process_chunks svc chunks pod_id').
Proof.
  pose proof (same_run_process_chunks svc pod_id chunks) as Hsim.
  pose proof (same_run_process_chunks svc pod_id' chunks) as Hsim'.
  pose proof (counted_process_chunks svc chunks) as Hcount.
  destruct (EmbedChunks.process_chunks svc chunks pod_id) as [sp|e];
    destruct (EmbedViaHttp.process_chunks svc chunks) as [sh|e1];
    destruct (EmbedChunks.process_chunks svc chunks pod_id') as [sp'|e2];
    simpl in *; try done; [|by subst].
  specialize (Hcount sh eq_refl). unfold counted in Hcount.
  pose proof (same_run_contents _ _ _ Hsim) as Hc.
  pose proof (same_run_contents _ _ _ Hsim') as Hc'.
  pose proof (same_run_numbers _ _ _ Hsim) as Hn.
  pose proof (same_run_numbers _ _ _ Hsim') as Hn'.
  destruct Hsim as (Hp & _ & _ & Hd & Hcalls & Ho).
  destruct Hsim' as (Hp' & _ & _ & _ & Hcalls' & Ho').
  split.
  - split; [exact Hp|]. split; [exact Hcalls|]. split; [exact Hd|].
    split; [exact Ho|]. by rewrite Ho.
  - split; [by rewrite Hp, Hp'|]. split; [by rewrite Hcalls, Hcalls'|].
    split; [by rewrite Hc, Hc'|]. split; [by rewrite <- Hn, <- Hn'|].
    by rewrite Ho, Ho'.
Qed.

(** * Whole runs, chunk by chunk *)

(** ** The reference description *)

Lemma zip_fates_length texts embeddings :
  length (zip_fates texts embeddings) = length texts.
Proof.
  revert embeddings. induction texts as [|t texts IH]; intros [|emb embs];
    simpl; by rewrite ?IH.
Qed.

Lemma retry_fates_length svc n texts :
  length (retry_fates svc n texts) = length texts.
Proof.
  revert n. induction texts as [|t texts IH]; intros n; simpl; by rewrite ?IH.
Qed.

Lemma group_fates_length svc n texts :
  length (group_fates svc n texts) = length texts.
Proof.
  unfold group_fates. destruct (svc n texts);
    [apply zip_fates_length|apply retry_fates_length].
Qed.

Lemma outputs_app b1 b2 f1 f2 :
  length b1 = length f1 →
  outputs (b1 ++ b2) (f1 ++ f2) = outputs b1 f1 ++ outputs b2 f2.
Proof.
  revert f1. induction b1 as [|c b1 IH]; intros [|f f1] Hlen; simpl in *;
    try done.
  destruct f; simpl; rewrite IH by lia; done.
Qed.

Lemma skipped_chunks_app b1 b2 f1 f2 :
  length b1 = length f1 →
  skipped_chunks (b1 ++ b2) (f1 ++ f2)
  = skipped_chunks b1 f1 ++ skipped_chunks b2 f2.
Proof.
  revert f1. induction b1 as [|c b1 IH]; intros [|f f1] Hlen; simpl in *;
    try done.
  destruct f; simpl; rewrite IH by lia; done.
Qed.

Lemma outputs_zip batch texts embeddings :
  length texts = length batch →
  outputs batch (zip_fates texts embeddings)
  = zip_with set_embedding batch embeddings.
Proof.
  revert texts embeddings.
  induction batch as [|c batch IH]; intros [|t texts] embeddings Hlen;
    simpl in *; try done.
  destruct embeddings as [|emb embs]; simpl.
  - rewrite (IH texts []) by lia. by destruct batch.
  - by rewrite IH by lia.
Qed.

Lemma skipped_chunks_zip batch texts embeddings :
  skipped_chunks batch (zip_fates texts embeddings) = [].
Proof.
  revert texts embeddings.
  induction batch as [|c batch IH]; intros [|t texts] embeddings; simpl;
    try done.
  destruct embeddings as [|emb embs]; simpl; apply IH.
Qed.

(** ** The loop of [embed_chunks.py] against the reference description *)

Section PodFates.
Import EmbedChunks PodView.
Variables (svc : service) (pod_id : Z) (chunks : list chunk)
  (texts : list json).
Hypothesis Htexts : Forall2 (λ (c : chunk) t, c !! "text" = Some t) chunks texts.

Lemma fates_retry_chunk st c t st1 :
  c !! "text" = Some t →
  retry_chunk svc pod_id st c = Return st1 →
  calls st1 = calls st ++ [[t]]
  ∧ match single_reply svc (length (calls st)) t with
    | Some emb =>
        emitted st1 = emitted st ++ [set_embedding c emb]
        ∧ processed st1 = S (processed st)
        ∧ skip_lines (stdout st1) = skip_lines (stdout st)
    | None =>
        emitted st1 = emitted st
        ∧ processed st1 = processed st
        ∧ ∃ id, c !! "chunk_id" = Some id
                ∧ skip_lines (stdout st1) = skip_lines (stdout st) ++ [id]
    end.
Proof.
  intros Ht. unfold retry_chunk, get_embeddings_batch, single_reply.
  rewrite Ht. unfold skip_chunk, getitem.
  destruct (svc (length (calls st)) [t]) as [[|emb embs]|].
  - destruct (c !! "chunk_id") as [id|]; cbn [result_bind]; [|done].
    intros [= <-]. split; [done|].
    cbn [emitted processed stdout print disk file_batch].
    split; [done|]. split; [done|]. exists id. by rewrite skip_lines_snoc.
  - intros [= <-].
    rewrite emitted_embed_chunk, processed_embed_chunk, calls_embed_chunk,
      stdout_embed_chunk. by repeat split.
  - destruct (c !! "chunk_id") as [id|]; cbn [result_bind]; [|done].
    intros [= <-]. split; [done|].
    cbn [emitted processed stdout print disk file_batch].
    split; [done|]. split; [done|]. exists id. by rewrite skip_lines_snoc.
Qed.

Lemma fates_fallback batch tg :
  Forall2 (λ (c : chunk) t, c !! "text" = Some t) batch tg →
  ∀ st st',
    for_each (retry_chunk svc pod_id) st batch = Return st' →
    calls st' = calls st ++ ((λ t, [t]) <$> tg)
    ∧ emitted st'
      = emitted st ++ outputs batch (retry_fates svc (length (calls st)) tg)
    ∧ processed st'
      = processed st
        + length (outputs batch (retry_fates svc (length (calls st)) tg))
    ∧ ∃ ids,
        skip_lines (stdout st') = skip_lines (stdout st) ++ ids
        ∧ Forall2 (λ (c : chunk) id, c !! "chunk_id" = Some id)
            (skipped_chunks batch (retry_fates svc (length (calls st)) tg))
            ids.
Proof.
  induction 1 as [|c t batch tg Ht _ IH]; intros st st'.
  { simpl. intros [= <-]. rewrite !app_nil_r, Nat.add_0_r.
    repeat split; try done. exists []. by rewrite app_nil_r. }
  cbn [for_each].
  destruct (retry_chunk svc pod_id st c) as [st1|e] eqn:Hstep;
    cbn [result_bind]; [|done].
  intros Hrest.
  destruct (fates_retry_chunk st c t st1 Ht Hstep) as [Hc1 Hcase].
  destruct (IH st1 st' Hrest) as (Hc & He & Hp & ids & Ho & Hids).
  assert (length (calls st1) = S (length (calls st))) as Hn
    by (rewrite Hc1, length_app; simpl; lia).
  rewrite Hn in He, Hp, Hids.
  cbn [retry_fates outputs skipped_chunks fmap list_fmap].
  split; [by rewrite Hc, Hc1, <- app_assoc|].
  destruct (single_reply svc (length (calls st)) t) as [emb|].
  - destruct Hcase as (He1 & Hp1 & Ho1).
    cbn [outputs skipped_chunks length].
    split; [by rewrite He, He1, <- app_assoc|]. split; [lia|].
    exists ids. by rewrite Ho, Ho1.
  - destruct Hcase as (He1 & Hp1 & id & Hid & Ho1).
    cbn [outputs skipped_chunks].
    split; [by rewrite He, He1|]. split; [lia|].
    exists (id :: ids). split; [by rewrite Ho, Ho1, <- app_assoc|].
    by constructor.
Qed.

Lemma fates_process_batch st i st' tg :
  let batch := take EMBED_BATCH_SIZE (drop i chunks) in
  Forall2 (λ (c : chunk) t, c !! "text" = Some t) batch tg →
  process_batch svc pod_id chunks st i = Return st' →
  let n := length (calls st) in
  calls st' = calls st ++ group_requests svc n tg
  ∧ emitted st' = emitted st ++ outputs batch (group_fates svc n tg)
  ∧ processed st'
    = processed st + length (outputs batch (group_fates svc n tg))
  ∧ ∃ ids,
      skip_lines (stdout st') = skip_lines (stdout st) ++ ids
      ∧ Forall2 (λ (c : chunk) id, c !! "chunk_id" = Some id)
          (skipped_chunks batch (group_fates svc n tg)) ids.
Proof.
  intros batch Hall Hrun n. subst n.
  pose proof (Forall2_length _ _ _ Hall) as Hlen.
  unfold process_batch in Hrun. fold batch in Hrun.
  rewrite (texts_of_Forall2 _ _ Hall) in Hrun. cbn [result_bind] in Hrun.
  unfold get_embeddings_batch in Hrun.
  unfold group_requests, group_fates.
  destruct (svc (length (calls st)) tg) as [embeddings|].
  - injection Hrun as <-.
    match goal with
    | |- context [embed_zip ?p ?s ?b ?e] =>
        destruct (pod_embed_zip_spec p b e s) as (He & Hp & Hc & Ho)
    end.
    rewrite outputs_zip, skipped_chunks_zip by done.
    cbn [print calls processed stdout emitted disk file_batch] in *.
    unfold emitted in *. cbn [disk file_batch] in *.
    split; [by rewrite Hc|]. split; [exact He|]. split; [exact Hp|].
    exists []. rewrite app_nil_r. split; [|constructor].
    rewrite Ho, skip_lines_snoc. simpl. by rewrite app_nil_r.
  - destruct (fates_fallback batch tg Hall _ _ Hrun)
      as (Hc & He & Hp & ids & Ho & Hids).
    cbn [print calls processed stdout] in *.
    rewrite length_app in He, Hp, Hids. cbn [length] in He, Hp, Hids.
    rewrite Nat.add_1_r in He, Hp, Hids.
    split; [by rewrite Hc, <- app_assoc|]. split; [exact He|].
    split; [exact Hp|]. exists ids. split; [|exact Hids].
    rewrite Ho, skip_lines_snoc. simpl. by rewrite app_nil_r.
Qed.

Lemma fates_loop m :
  ∀ a st st',
    for_each (process_batch svc pod_id chunks) st
      ((λ k, k * EMBED_BATCH_SIZE) <$> seq a m) = Return st' →
    let plan :=
      numbered svc (length (calls st))
        ((λ k, take EMBED_BATCH_SIZE (drop (k * EMBED_BATCH_SIZE) texts))
           <$> seq a m) in
    let fs := concat ((λ g : nat * list json, group_fates svc g.1 g.2)
                        <$> plan) in
    let batch :=
      take (m * EMBED_BATCH_SIZE) (drop (a * EMBED_BATCH_SIZE) chunks) in
    calls st'
    = calls st
      ++ concat ((λ g : nat * list json, group_requests svc g.1 g.2) <$> plan)
    ∧ emitted st' = emitted st ++ outputs batch fs
    ∧ processed st' = processed st + length (outputs batch fs)
    ∧ ∃ ids,
        skip_lines (stdout st') = skip_lines (stdout st) ++ ids
        ∧ Forall2 (λ (c : chunk) id, c !! "chunk_id" = Some id)
            (skipped_chunks batch fs) ids.
Proof.
  induction m as [|m IH]; intros a st st'.
  { simpl. intros [= <-]. rewrite !app_nil_r, Nat.add_0_r.
    repeat split; try done. exists []. by rewrite app_nil_r. }
  cbn [seq fmap list_fmap for_each numbered concat].
  destruct (process_batch svc pod_id chunks st (a * EMBED_BATCH_SIZE))
    as [st1|e] eqn:Hstep; cbn [result_bind]; [|done].
  intros Hrest. cbn zeta.
  set (tg := take EMBED_BATCH_SIZE (drop (a * EMBED_BATCH_SIZE) texts)).
  set (b0 := take EMBED_BATCH_SIZE (drop (a * EMBED_BATCH_SIZE) chunks)).
  assert (Forall2 (λ (c : chunk) t, c !! "text" = Some t) b0 tg) as Hall
    by (by apply Forall2_take, Forall2_drop).
  destruct (fates_process_batch st _ st1 tg Hall Hstep)
    as (Hc1 & He1 & Hp1 & ids1 & Ho1 & Hids1).
  fold b0 in He1, Hp1, Hids1.
  specialize (IH (S a) st1 st' Hrest). cbn zeta in IH.
  destruct IH as (Hc & He & Hp & ids & Ho & Hids).
  assert (length (calls st1)
          = length (calls st)
            + length (group_requests svc (length (calls st)) tg)) as Hn
    by (by rewrite Hc1, length_app).
  rewrite Hn in Hc, He, Hp, Hids.
  assert (take (S m * EMBED_BATCH_SIZE) (drop (a * EMBED_BATCH_SIZE) chunks)
          = b0 ++ take (m * EMBED_BATCH_SIZE)
                    (drop (S a * EMBED_BATCH_SIZE) chunks)) as ->.
  { subst b0. rewrite (Nat.mul_succ_l m), (Nat.mul_succ_l a),
      (Nat.add_comm (m * _)), <- take_take_drop, drop_drop. reflexivity. }
  assert (length b0 = length (group_fates svc (length (calls st)) tg))
    as Hlen.
  { rewrite group_fates_length. by apply Forall2_length in Hall. }
  cbn [fst snd]. rewrite outputs_app, skipped_chunks_app by done.
  split; [by rewrite Hc, Hc1, <- app_assoc|].
  split; [by rewrite He, He1, <- app_assoc|].
  split; [rewrite Hp, Hp1, length_app; lia|].
  exists (ids1 ++ ids). split; [by rewrite Ho, Ho1, <- app_assoc|].
  by apply Forall2_app.
Qed.

(** A run that ends, in terms of the fates. *)
Lemma fates_run sp :
  process_chunks svc chunks pod_id = Return sp →
  calls sp = requests svc texts
  ∧ concat (snd <$> disk sp) = outputs chunks (fates svc texts)
  ∧ processed sp = length (outputs chunks (fates svc texts))
  ∧ Forall2 (λ (c : chunk) id, c !! "chunk_id" = Some id)
      (skipped_chunks chunks (fates svc texts)) (skip_lines (stdout sp)).
Proof.
  intros Hrun.
  destruct (pod_process_chunks_inv _ _ _ _ Hrun) as (st0 & Hloop & ->).
  unfold range_step in Hloop. apply fates_loop in Hloop. cbn zeta in Hloop.
  pose proof (groups_cover (length chunks)) as Hcover.
  rewrite drop_0, take_ge in Hloop by lia.
  change (calls init) with (@nil (list json)) in Hloop.
  change (emitted init) with (@nil chunk) in Hloop.
  change (processed init) with 0 in Hloop.
  change (stdout init) with (@nil event) in Hloop.
  cbn [length app skip_lines omap list_omap] in Hloop.
  destruct Hloop as (Hc & He & Hp & ids & Ho & Hids).
  assert (length texts = length chunks) as Hlen
    by (symmetry; by eapply Forall2_length).
  unfold requests, fates, run_groups, groups_of. rewrite Hlen.
  rewrite calls_finish, disk_finish, contents_save_remaining,
    processed_finish, skip_lines_finish.
  split; [exact Hc|]. split; [exact He|]. split; [exact Hp|].
  by rewrite Ho.
Qed.

End PodFates.

(** ** Positions *)

Lemma embedded_from_app s f1 f2 :
  embedded_from s (f1 ++ f2)
  = embedded_from s f1 ++ embedded_from (s + length f1) f2.
Proof.
  revert s. induction f1 as [|f f1 IH]; intros s; simpl.
  { by rewrite Nat.add_0_r. }
  replace (s + S (length f1)) with (S s + length f1) by lia.
  destruct f; simpl; by rewrite IH.
Qed.

Lemma skipped_from_app s f1 f2 :
  skipped_from s (f1 ++ f2)
  = skipped_from s f1 ++ skipped_from (s + length f1) f2.
Proof.
  revert s. induction f1 as [|f f1 IH]; intros s; simpl.
  { by rewrite Nat.add_0_r. }
  replace (s + S (length f1)) with (S s + length f1) by lia.
  destruct f; simpl; by rewrite IH.
Qed.

Lemma embedded_from_bounds s fs :
  Forall (λ e : nat * json, s ≤ e.1 < s + length fs) (embedded_from s fs).
Proof.
  revert s. induction fs as [|f fs IH]; intros s; simpl; [constructor|].
  assert (Forall (λ e : nat * json, s ≤ e.1 < s + S (length fs))
            (embedded_from (S s) fs)) as Hrest.
  { eapply Forall_impl; [apply IH|]. simpl. lia. }
  destruct f; [constructor; [simpl; lia|]|..]; exact Hrest.
Qed.

Lemma skipped_from_bounds s fs :
  Forall (λ j, s ≤ j < s + length fs) (skipped_from s fs).
Proof.
  revert s. induction fs as [|f fs IH]; intros s; simpl; [constructor|].
  assert (Forall (λ j, s ≤ j < s + S (length fs)) (skipped_from (S s) fs))
    as Hrest.
  { eapply Forall_impl; [apply IH|]. simpl. lia. }
  destruct f; [| |constructor; [lia|]]; exact Hrest.
Qed.



Lemma retry_fates_lookup svc n texts p t :
  texts !! p = Some t →
  retry_fates svc n texts !! p
  = Some match single_reply svc (n + p) t with
         | Some emb => Embedded emb
         | None => Skipped
         end.
Proof.
  revert n p. induction texts as [|t' texts IH]; intros n [|p]; simpl;
    try done.
  - intros [= ->]. by rewrite Nat.add_0_r.
  - intros Hp. rewrite (IH (S n) p Hp).
    by replace (S n + p) with (n + S p) by lia.
Qed.

Lemma zip_fates_lookup texts embeddings p t :
  texts !! p = Some t →
  zip_fates texts embeddings !! p
  = Some match embeddings !! p with
         | Some emb => Embedded emb
         | None => Dropped
         end.
Proof.
  revert embeddings p.
  induction texts as [|t' texts IH]; intros [|emb embs] [|p]; simpl;
    try done.
  - intros Hp. by rewrite (IH [] p Hp).
  - intros Hp. by rewrite (IH embs p Hp).
Qed.

Lemma single_reply_none svc n t :
  no_vector (svc n [t]) → single_reply svc n t = None.
Proof. unfold single_reply. by intros [->| ->]. Qed.

(** A position whose fate is [Skipped] is listed once among the skipped
    positions and not at all among the embedded ones. *)
Lemma skipped_position s fs p :
  fs !! p = Some Skipped →
  (s + p ∉ (embedded_from s fs).*1)
  ∧ ∃ before after,
      skipped_from s fs = before ++ (s + p) :: after
      ∧ (s + p ∉ before) ∧ (s + p ∉ after).
Proof.
  intros Hp. pose proof (lookup_lt_Some _ _ _ Hp) as Hlt.
  rewrite <- (take_drop_middle fs p Skipped Hp).
  rewrite embedded_from_app, skipped_from_app. cbn [embedded_from skipped_from].
  rewrite length_take_le by lia.
  pose proof (embedded_from_bounds s (take p fs)) as Hb1.
  pose proof (embedded_from_bounds (S (s + p)) (drop (S p) fs)) as Hb2.
  pose proof (skipped_from_bounds s (take p fs)) as Hs1.
  pose proof (skipped_from_bounds (S (s + p)) (drop (S p) fs)) as Hs2.
  rewrite length_take_le in Hb1, Hs1 by lia.
  split.
  - rewrite fmap_app. intros Hin. apply elem_of_app in Hin as [Hin|Hin];
      apply list_elem_of_fmap in Hin as (e & He & Hin).
    + rewrite Forall_forall in Hb1. specialize (Hb1 e Hin). lia.
    + rewrite Forall_forall in Hb2. specialize (Hb2 e Hin). lia.
  - eexists _, _. split; [reflexivity|]. split; intros Hin.
    + rewrite Forall_forall in Hs1. specialize (Hs1 _ Hin). lia.
    + rewrite Forall_forall in Hs2. specialize (Hs2 _ Hin). lia.
Qed.

(** The chunks written and the chunks skipped, by position. *)
Lemma outputs_written chunks batch fs : ∀ s,
  length batch = length fs →
  (∀ i c, batch !! i = Some c → chunks !! (s + i) = Some c) →
  written_from chunks (embedded_from s fs) (outputs batch fs).
Proof.
  unfold written_from. revert fs.
  induction batch as [|c batch IH]; intros [|f fs] s Hlen Hat; simpl in *;
    try done.
  assert (Forall2
            (λ (p : nat * json) out,
               ∃ c0, chunks !! p.1 = Some c0 ∧ adds_only_embedding c0 p.2 out)
            (embedded_from (S s) fs) (outputs batch fs)) as Hrest.
  { apply IH; [lia|]. intros i c' Hi.
    replace (S s + i) with (s + S i) by lia. by apply Hat. }
  destruct f; [|done..].
  constructor; [|done]. exists c. split.
  - specialize (Hat 0 c eq_refl). by rewrite Nat.add_0_r in Hat.
  - apply set_embedding_adds_only.
Qed.

Lemma skipped_names chunks batch fs : ∀ s ids,
  length batch = length fs →
  (∀ i c, batch !! i = Some c → chunks !! (s + i) = Some c) →
  Forall2 (λ (c : chunk) id, c !! "chunk_id" = Some id)
    (skipped_chunks batch fs) ids →
  names_of chunks (skipped_from s fs) ids.
Proof.
  unfold names_of. revert fs.
  induction batch as [|c batch IH]; intros [|f fs] s ids Hlen Hat; simpl in *;
    try done.
  { intros H. inversion H. constructor. }
  assert (∀ ids',
            Forall2 (λ (c : chunk) id, c !! "chunk_id" = Some id)
              (skipped_chunks batch fs) ids' →
            Forall2
              (λ j id, ∃ c0, chunks !! j = Some c0
                             ∧ c0 !! "chunk_id" = Some id)
              (skipped_from (S s) fs) ids') as Hrest.
  { intros ids'. apply IH; [lia|]. intros i c' Hi.
    replace (S s + i) with (s + S i) by lia. by apply Hat. }
  destruct f; [by apply Hrest..|].
  intros H. inversion H as [|? id ? ids' Hid Hids]; subst.
  constructor; [|by apply Hrest]. exists c. split; [|done].
  specialize (Hat 0 c eq_refl). by rewrite Nat.add_0_r in Hat.
Qed.

(** ** Groups and their call numbers *)

Lemma numbered_fates_length svc groups : ∀ n,
  length (concat ((λ x : nat * list json, group_fates svc x.1 x.2)
                    <$> numbered svc n groups))
  = length (concat groups).
Proof.
  induction groups as [|tg groups IH]; intros n; [done|].
  cbn [numbered fmap list_fmap concat fst snd].
  by rewrite !length_app, group_fates_length, IH.
Qed.

Lemma numbered_split svc groups : ∀ n0 g n tg,
  numbered svc n0 groups !! g = Some (n, tg) →
  groups !! g = Some tg
  ∧ numbered svc n0 groups
    = numbered svc n0 (take g groups)
      ++ (n, tg)
      :: numbered svc (n + length (group_requests svc n tg))
           (drop (S g) groups)
  ∧ n = n0
        + length (concat ((λ x : nat * list json, group_requests svc x.1 x.2)
                            <$> numbered svc n0 (take g groups))).
Proof.
  induction groups as [|t0 groups IH]; intros n0 g n tg; [done|].
  destruct g as [|g]; cbn [numbered lookup list_lookup].
  - intros [= <- <-]. simpl. split; [done|]. split; [done|lia].
  - intros Hg. destruct (IH _ _ _ _ Hg) as (Hl & Hsplit & Hn).
    split; [done|]. cbn [take drop numbered fmap list_fmap concat fst snd].
    split; [by rewrite Hsplit at 1|].
    rewrite length_app. lia.
Qed.

Lemma numbered_head svc groups n :
  head (concat ((λ x : nat * list json, group_requests svc x.1 x.2)
                  <$> numbered svc n groups))
  = head groups.
Proof. by destruct groups. Qed.

Lemma groups_of_lookup (texts : list json) g tg :
  groups_of texts !! g = Some tg →
  g * EMBED_BATCH_SIZE < length texts
  ∧ tg = take EMBED_BATCH_SIZE (drop (g * EMBED_BATCH_SIZE) texts)
  ∧ length (concat (take g (groups_of texts))) = g * EMBED_BATCH_SIZE.
Proof.
  unfold groups_of. intros Hg.
  rewrite list_lookup_fmap in Hg.
  destruct (seq 0 _ !! g) as [k|] eqn:Hk; [|done].
  apply lookup_seq in Hk as [-> Hk]. injection Hg as <-.
  assert (g * EMBED_BATCH_SIZE < length texts) as Hlt.
  { unfold EMBED_BATCH_SIZE in *.
    pose proof (Nat.Div0.mul_div_le (length texts + 25 - 1) 25) as Hq.
    revert Hk Hq. generalize ((length texts + 25 - 1) / 25). intros q Hk Hq.
    lia. }
  split; [exact Hlt|]. split; [reflexivity|].
  rewrite <- fmap_take, take_seq, Nat.min_l by lia.
  rewrite slices_concat, drop_0, length_take. lia.
Qed.

Section GroupOfRun.
Variables (svc : service) (texts : list json) (g n : nat) (tg : list json).
Hypothesis Hg : run_groups svc texts !! g = Some (n, tg).

Lemma run_group_texts :
  g * EMBED_BATCH_SIZE < length texts
  ∧ tg = take EMBED_BATCH_SIZE (drop (g * EMBED_BATCH_SIZE) texts)
  ∧ ∀ p t, tg !! p = Some t ↔
           p < EMBED_BATCH_SIZE ∧ texts !! (g * EMBED_BATCH_SIZE + p) = Some t.
Proof.
  destruct (numbered_split _ _ _ _ _ _ Hg) as (Hl & _ & _).
  destruct (groups_of_lookup _ _ _ Hl) as (Hlt & -> & _).
  split; [done|]. split; [done|]. intros p t.
  destruct (decide (p < EMBED_BATCH_SIZE)) as [Hp|Hp].
  - rewrite lookup_take_lt, lookup_drop by done.
    split; [by intros ?|by intros [_ ?]].
  - rewrite lookup_take_ge by lia. split; [done|by intros [? _]].
Qed.

Lemma run_group_fates :
  ∃ F1 F2,
    fates svc texts = F1 ++ group_fates svc n tg ++ F2
    ∧ length F1 = g * EMBED_BATCH_SIZE.
Proof.
  destruct (numbered_split _ _ _ _ _ _ Hg) as (Hl & Hsplit & _).
  destruct (groups_of_lookup _ _ _ Hl) as (_ & _ & Hlen).
  unfold fates, run_groups. rewrite Hsplit.
  rewrite fmap_app, concat_app. cbn [fmap list_fmap concat fst snd].
  eexists _, _. split; [reflexivity|].
  by rewrite numbered_fates_length.
Qed.

Lemma run_group_requests :
  ∃ R1 R2,
    requests svc texts = R1 ++ group_requests svc n tg ++ R2
    ∧ length R1 = n
    ∧ head R2 = groups_of texts !! S g.
Proof.
  destruct (numbered_split _ _ _ _ _ _ Hg) as (Hl & Hsplit & Hn).
  unfold requests, run_groups. rewrite Hsplit.
  rewrite fmap_app, concat_app. cbn [fmap list_fmap concat fst snd].
  eexists _, _. split; [reflexivity|]. split; [lia|].
  rewrite numbered_head, head_lookup, lookup_drop. f_equal. lia.
Qed.

End GroupOfRun.

Lemma fates_length svc texts : length (fates svc texts) = length texts.
Proof.
  unfold fates, run_groups. rewrite numbered_fates_length.
  unfold groups_of. rewrite slices_concat, drop_0, take_ge; [done|].
  apply groups_cover.
Qed.

Lemma run_groups_lookup_lt svc texts g :
  g * EMBED_BATCH_SIZE < length texts →
  ∃ n tg, run_groups svc texts !! g = Some (n, tg).
Proof.
  intros Hlt.
  assert (∀ groups n0, length (numbered svc n0 groups) = length groups)
    as Hlen.
  { induction groups as [|t0 groups IH]; intros n0; simpl; by rewrite ?IH. }
  destruct (run_groups svc texts !! g) as [[n tg]|] eqn:E; [by eauto|].
  apply lookup_ge_None in E. unfold run_groups, groups_of in E.
  rewrite Hlen, length_fmap, length_seq in E.
  exfalso. apply (Nat.lt_irrefl g). eapply Nat.lt_le_trans; [|exact E].
  unfold EMBED_BATCH_SIZE in *. apply Nat.div_le_lower_bound; lia.
Qed.

Lemma embedded_from_elem s fs e :
  e ∈ embedded_from s fs →
  ∃ i, e.1 = s + i ∧ fs !! i = Some (Embedded e.2).
Proof.
  revert s. induction fs as [|f fs IH]; intros s; simpl.
  { intros H. by apply elem_of_nil in H. }
  assert (e ∈ embedded_from (S s) fs →
          ∃ i, e.1 = s + i ∧ (f :: fs) !! i = Some (Embedded e.2)) as Hrest.
  { intros H. destruct (IH _ H) as (i & Hi & Hl). exists (S i).
    split; [lia|done]. }
  destruct f; [|done..].
  intros H. apply elem_of_cons in H as [->|H]; [|by apply Hrest].
  exists 0. split; [simpl; lia|done].
Qed.

(** ** Runs that end *)


Lemma pod_ended_run_texts svc pod_id chunks sp :
  EmbedChunks.process_chunks svc chunks pod_id = Return sp →
  ∃ texts, texts_of chunks = Return texts.
Proof.
  intros Hrun.
  destruct (texts_of chunks) as [texts|e] eqn:E; [by exists texts|].
  destruct (texts_of_raise _ _ E) as (_ & c & Hin & Hnone).
  destruct (no_text_aborts svc pod_id chunks c Hin Hnone) as (e' & He).
  congruence.
Qed.

Lemma pod_run_fates svc pod_id chunks texts sp :
  texts_of chunks = Return texts →
  EmbedChunks.process_chunks svc chunks pod_id = Return sp →
  pod_run_is svc chunks texts sp.
Proof.
  intros Ht Hrun. apply texts_of_inv in Ht.
  destruct (fates_run svc pod_id chunks texts Ht sp Hrun)
    as (Hc & He & Hp & Hs).
  assert (length chunks = length (fates svc texts)) as Hlen
    by (rewrite fates_length; by eapply Forall2_length).
  assert (written_from chunks (embedded_at (fates svc texts))
            (outputs chunks (fates svc texts))) as Hw
    by (by apply outputs_written).
  split; [done|]. split; [by rewrite He|]. split.
  - rewrite Hp. symmetry. eapply Forall2_length. exact Hw.
  - by eapply skipped_names.
Qed.

Lemma http_run_has_pod svc pod_id chunks sh :
  EmbedViaHttp.process_chunks svc chunks = Return sh →
  ∃ sp, EmbedChunks.process_chunks svc chunks pod_id = Return sp
        ∧ same_run pod_id sp sh.
Proof.
  intros Hrun.
  pose proof (same_run_process_chunks svc pod_id chunks) as Hsim.
  rewrite Hrun in Hsim.
  destruct (EmbedChunks.process_chunks svc chunks pod_id) as [sp|e]; [|done].
  by exists sp.
Qed.

Lemma http_run_fates svc chunks texts sh :
  texts_of chunks = Return texts →
  EmbedViaHttp.process_chunks svc chunks = Return sh →
  http_run_is svc chunks texts sh.
Proof.
  intros Ht Hrun.
  destruct (http_run_has_pod svc 0 chunks sh Hrun) as (sp & Hpod & Hsim).
  destruct (pod_run_fates _ _ _ _ _ Ht Hpod) as (Hc & Hw & Hp & Hs).
  pose proof (same_run_contents _ _ _ Hsim) as Hfiles.
  destruct Hsim as (Hp' & _ & _ & _ & Hc' & Hs').
  pose proof (counted_process_chunks svc chunks sh Hrun) as Hcount.
  unfold counted in Hcount.
  split; [by rewrite <- Hc'|]. split; [by rewrite <- Hfiles|].
  split; [by rewrite <- Hp'|]. split; [by rewrite <- Hs'|].
  rewrite Hcount, <- Hs'. symmetry. eapply Forall2_length. exact Hs.
Qed.

(** ** A group whose call returns too few vectors *)

Section ShortReply.
Variables (svc : service) (texts : list json) (g n : nat)
  (tg embeddings : list json).
Hypothesis Hg : run_groups svc texts !! g = Some (n, tg).
Hypothesis Hr : svc n tg = Embeddings embeddings.
Hypothesis Hk : length embeddings ≤ length tg.



End ShortReply.

(** ** A chunk whose group call and own call both fail *)

Section FailedChunk.
Variables (svc : service) (texts : list json) (g n p : nat)
  (tg : list json) (t : json).
Hypothesis Hg : run_groups svc texts !! g = Some (n, tg).
Hypothesis Hr : svc n tg = CallFailed.
Hypothesis Hp : tg !! p = Some t.

Lemma failed_group_requests :
  requests svc texts !! n = Some tg
  ∧ requests svc texts !! (S n + p) = Some [t].
Proof.
  destruct (run_group_requests _ _ _ _ _ Hg) as (R1 & R2 & HR & Hlen & _).
  unfold group_requests in HR. rewrite Hr in HR. rewrite HR. split.
  - rewrite lookup_app_r by lia. by rewrite Hlen, Nat.sub_diag.
  - rewrite lookup_app_r by lia. rewrite Hlen.
    replace (S n + p - n) with (S p) by lia.
    rewrite <- app_comm_cons, lookup_cons_ne_0 by lia.
    rewrite Nat.pred_succ, lookup_app_l
      by (rewrite length_fmap; by eapply lookup_lt_Some).
    by rewrite list_lookup_fmap, Hp.
Qed.

Lemma failed_group_fate :
  fates svc texts !! (g * EMBED_BATCH_SIZE + p)
  = Some match single_reply svc (S n + p) t with
         | Some emb => Embedded emb
         | None => Skipped
         end.
Proof.
  destruct (run_group_fates _ _ _ _ _ Hg) as (F1 & F2 & HF & Hlen).
  unfold group_fates in HF. rewrite Hr in HF. rewrite HF.
  rewrite lookup_app_r by lia. rewrite Hlen.
  replace (g * EMBED_BATCH_SIZE + p - g * EMBED_BATCH_SIZE) with p by lia.
  rewrite lookup_app_l
    by (rewrite retry_fates_length; by eapply lookup_lt_Some).
  by apply retry_fates_lookup.
Qed.

Lemma failed_chunk_positions :
  no_vector (svc (S n + p) [t]) →
  let j := g * EMBED_BATCH_SIZE + p in
  (j ∉ (embedded_at (fates svc texts)).*1)
  ∧ ∃ before after,
      skipped_at (fates svc texts) = before ++ j :: after
      ∧ (j ∉ before) ∧ (j ∉ after).
Proof.
  intros Hno j. pose proof failed_group_fate as Hf.
  rewrite (single_reply_none _ _ _ Hno) in Hf.
  exact (skipped_position 0 _ _ Hf).
Qed.

End FailedChunk.

(** ** The vector of each chunk written *)

Lemma embedded_vector_for svc texts :
  Forall (λ e : nat * json, vector_for svc texts e.1 e.2)
    (embedded_at (fates svc texts)).
Proof.
  apply Forall_forall. intros [j emb] Hin.
  apply embedded_from_elem in Hin as (j' & Hi & Hf). simpl in Hi, Hf.
  subst j'.
  pose proof (lookup_lt_Some _ _ _ Hf) as Hj. rewrite fates_length in Hj.
  set (g := j / EMBED_BATCH_SIZE). set (p := j mod EMBED_BATCH_SIZE).
  assert (j = g * EMBED_BATCH_SIZE + p ∧ p < EMBED_BATCH_SIZE) as [Hjp Hp].
  { subst g p. unfold EMBED_BATCH_SIZE.
    pose proof (Nat.div_mod_eq j 25). pose proof (Nat.mod_upper_bound j 25).
    lia. }
  destruct (run_groups_lookup_lt svc texts g ltac:(lia)) as (n & tg & Hg).
  destruct (run_group_texts _ _ _ _ _ Hg) as (_ & _ & Hat).
  destruct (texts !! j) as [t|] eqn:Ht;
    [|apply lookup_ge_None in Ht; lia].
  assert (tg !! p = Some t) as Htg by (apply Hat; by rewrite <- Hjp).
  exists g, p, n, tg, t. split; [done|]. split; [done|]. split; [done|].
  destruct (run_group_fates _ _ _ _ _ Hg) as (F1 & F2 & HF & Hlen).
  rewrite HF, Hjp in Hf. rewrite lookup_app_r in Hf by lia.
  rewrite Hlen in Hf.
  replace (g * EMBED_BATCH_SIZE + p - g * EMBED_BATCH_SIZE) with p in Hf
    by lia.
  rewrite lookup_app_l in Hf
    by (rewrite group_fates_length; by eapply lookup_lt_Some).
  unfold group_fates in Hf. cbn [fst snd].
  destruct (svc n tg) as [embeddings|] eqn:Hr.
  - rewrite (zip_fates_lookup _ _ _ _ Htg) in Hf.
    destruct (embeddings !! p); by simplify_eq.
  - rewrite (retry_fates_lookup _ _ _ _ _ Htg) in Hf.
    unfold single_reply in Hf.
    destruct (svc (S n + p) [t]) as [[|emb' rest]|]; simplify_eq.
    by exists rest.
Qed.

(** ** Failure isolation, over whole runs *)



(** C3 (as amended). Take a run on chunks that all carry a text, a group
    of it whose call (call number [n], with the texts [tg] of the group)
    fails, and the chunk of rank [p] in the group, at position
    [g * 25 + p], whose own call, call number [n + 1 + p], yields no
    vector.  If the run ends, then: these two calls are made as numbered;
    the chunks written are chunks of the input at positions other than
    this one, each with its vector, and the processed counter is their
    number; the skip lines name, in order, the chunks at a list of
    positions in which this one occurs exactly once; and in
    [embed_via_http.py] the failed counter is the length of that list.
    Every run that ends (as every run on records of the input format
    does) ends with a summary line giving the processed count and the
    file count; [embed_via_http.py] follows it with a warning line giving
    the failed count exactly when that count is positive, whereas
    [embed_chunks.py] and [embed_chunks_v2.py] keep no such counter and
    print no warning. *)
Theorem failed_chunk_is_skipped_once
    (svc : service) (chunks : list chunk) (pod_id : Z) :
  (∀ texts g n p tg t,
     texts_of chunks = Return texts →
     run_groups svc texts !! g = Some (n, tg) →
     svc n tg = CallFailed →
     tg !! p = Some t →
     no_vector (svc (S n + p) [t]) →
     let j := g * 25 + p in
     (p < 25 ∧ texts !! j = Some t)
     ∧ (∀ sh,
          EmbedViaHttp.process_chunks svc chunks = Return sh →
          EmbedViaHttp.calls sh !! n = Some tg
          ∧ EmbedViaHttp.calls sh !! (S n + p) = Some [t]
          ∧ ∃ sel before after,
              written_from chunks sel (concat (snd <$> EmbedViaHttp.disk sh))
              ∧ EmbedViaHttp.processed sh = length sel
              ∧ (j ∉ sel.*1)
              ∧ names_of chunks (before ++ j :: after)
                  (skip_lines (EmbedViaHttp.stdout sh))
              ∧ (j ∉ before) ∧ (j ∉ after)
              ∧ EmbedViaHttp.failed sh = length (before ++ j :: after))
     ∧ (∀ sp,
          EmbedChunks.process_chunks svc chunks pod_id = Return sp →
          EmbedChunks.calls sp !! n = Some tg
          ∧ EmbedChunks.calls sp !! (S n + p) = Some [t]
          ∧ ∃ sel before after,
              written_from chunks sel (concat (snd <$> EmbedChunks.disk sp))
              ∧ EmbedChunks.processed sp = length sel
              ∧ (j ∉ sel.*1)
              ∧ names_of chunks (before ++ j :: after)
                  (skip_lines (EmbedChunks.stdout sp))
              ∧ (j ∉ before) ∧ (j ∉ after)))
  ∧ (Forall well_formed chunks →
     ∃ sp sh,
       EmbedChunks.process_chunks svc chunks pod_id = Return sp
       ∧ EmbedViaHttp.process_chunks svc chunks = Return sh)
  ∧ (∀ sh,
       EmbedViaHttp.process_chunks svc chunks = Return sh →
       EmbedViaHttp.failed sh = length (skip_lines (EmbedViaHttp.stdout sh))
       ∧ ∃ out,
           Forall loop_event out
           ∧ EmbedViaHttp.stdout sh
             = out ++ Done (EmbedViaHttp.processed sh)
                           (length (EmbedViaHttp.disk sh))
                   :: (if 0 <? EmbedViaHttp.failed sh
                       then [Warning (EmbedViaHttp.failed sh)] else []))
  ∧ (∀ sp,
       EmbedChunks.process_chunks svc chunks pod_id = Return sp →
       ∃ out,
         Forall loop_event out
         ∧ EmbedChunks.stdout sp
           = out ++ [Done (EmbedChunks.processed sp)
                          (length (EmbedChunks.disk sp))]).
Proof.
  split; [|split; [|split]].
  - intros texts g n p tg t Ht Hg Hr Hp Hno j.
    destruct (run_group_texts _ _ _ _ _ Hg) as (_ & _ & Hat).
    destruct (failed_group_requests svc texts g n p tg t Hg Hr Hp)
      as [Hc1 Hc2].
    destruct (failed_chunk_positions svc texts g n p tg t Hg Hr Hp Hno)
      as (Hout & before & after & HS & Hb & Ha).
    change (g * EMBED_BATCH_SIZE + p) with j in Hout, HS, Hb, Ha.
    split; [exact (proj1 (Hat p t) Hp)|]. split.
    + intros sh Hrun.
      destruct (http_run_fates _ _ _ _ Ht Hrun) as (Hc & Hw & Hpr & Hn & Hf).
      rewrite Hc. split; [done|]. split; [done|].
      exists (embedded_at (fates svc texts)), before, after.
      rewrite <- HS. by repeat split.
    + intros sp Hrun.
      destruct (pod_run_fates _ _ _ _ _ Ht Hrun) as (Hc & Hw & Hpr & Hn).
      rewrite Hc. split; [done|]. split; [done|].
      exists (embedded_at (fates svc texts)), before, after.
      rewrite <- HS. by repeat split.
  - apply runs_end.
  - intros sh Hrun. split; [by apply (counted_process_chunks svc chunks)|].
    destruct (http_ended_run_files _ _ _ Hrun) as (_ & _ & _ & _ & Hnum & _).
    destruct (http_process_chunks_inv _ _ _ Hrun) as (sh0 & Hloop & ->).
    exists (EmbedViaHttp.stdout sh0). split.
    + apply (http_loop_events svc chunks _ _ _ Hloop). apply Forall_nil_2.
    + by rewrite http_stdout_finish, Hnum.
  - intros sp Hrun.
    destruct (pod_ended_run_files _ _ _ _ Hrun)
      as (_ & _ & _ & _ & _ & _ & out & Hev & Hout).
    by exists out.
Qed.

Lemma failed_chunk_is_skipped_once_witness :
  let a := sample_chunk "a" "alpha" in
  ∃ sh,
    EmbedViaHttp.process_chunks failing_service [a] = Return sh
    ∧ EmbedViaHttp.calls sh !! 1 = Some [JStr "alpha"]
    ∧ concat (snd <$> EmbedViaHttp.disk sh) = []
    ∧ EmbedViaHttp.processed sh = 0
    ∧ EmbedViaHttp.failed sh = 1
    ∧ skip_lines (EmbedViaHttp.stdout sh) = [JStr "a"].
Proof.
  intros a.
  destruct (failed_chunk_is_skipped_once failing_service [a] 0)
    as (Hskip & Hend & Hsum & _).
  destruct (Hend ltac:(repeat constructor; apply sample_chunk_well_formed))
    as (_ & sh & _ & Hrun).
  destruct (Hskip [JStr "alpha"] 0 0 0 [JStr "alpha"] (JStr "alpha")
              eq_refl eq_refl eq_refl eq_refl ltac:(by left))
    as (_ & Hhttp & _).
  destruct (Hhttp sh Hrun)
    as (_ & Hc2 & sel & before & after & Hw & Hp & Hout & Hn & Hb & Ha & Hf).
  exists sh. split; [exact Hrun|]. split; [exact Hc2|].
  assert (sel = []) as ->.
  { destruct sel as [|[k emb] sel]; [done|]. exfalso.
    apply Forall2_cons_inv_l in Hw as (o & os & (c & Hk & _) & _ & _).
    simpl in Hk. destruct k as [|k]; [|done].
    apply Hout. by left. }
  apply Forall2_nil_inv_l in Hw.
  assert (∀ l : list nat, 0 ∉ l →
            (∀ k, k ∈ l → k < 1) → l = []) as Hempty.
  { intros [|k l] H0 Hlt; [done|]. exfalso.
    assert (k = 0) as -> by (specialize (Hlt k ltac:(by left)); lia).
    apply H0. by left. }
  assert (∀ k, k ∈ before ++ 0 :: after → k < 1) as Hlt.
  { intros k Hk. apply list_elem_of_lookup in Hk as (i & Hi).
    destruct (Forall2_lookup_l _ _ _ _ _ Hn Hi) as (id & _ & c & Hc & _).
    by apply lookup_lt_Some in Hc. }
  change (0 * 25 + 0) with 0 in Hn, Hb, Ha, Hf.
  assert (before = []) as ->
    by (apply Hempty; [done|intros k Hk; apply Hlt, elem_of_app; by left]).
  assert (after = []) as ->
    by (apply Hempty;
        [done|intros k Hk; apply Hlt, elem_of_app; right; by right]).
  split; [exact Hw|]. split; [exact Hp|]. split; [exact Hf|].
  simpl in Hn.
  apply Forall2_cons_inv_l in Hn as (id & ids & (c & Hc & Hid) & Hn & ->).
  apply Forall2_nil_inv_l in Hn as ->. simpl in Hc. injection Hc as <-.
  by injection Hid as <-.
Defined.

(** C3, counterexample.  [embed_chunks.py] on one chunk whose group call
    and own call both fail: the chunk is skipped, and the log ends with the
    summary line alone, no warning line reporting the skipped chunk. *)
Lemma pod_prints_no_warning_for_skipped_chunk :
  let a := sample_chunk "a" "alpha" in
  ∃ st,
    EmbedChunks.process_chunks failing_service [a] 0 = Return st
    ∧ EmbedChunks.disk st = []
    ∧ EmbedChunks.processed st = 0
    ∧ EmbedChunks.stdout st = [ErrorAtBatch 0; SkipChunk (JStr "a"); Done 0 0]
    ∧ ∀ n, Warning n ∉ EmbedChunks.stdout st.
Proof.
  intros a. eexists. split; [vm_compute; reflexivity|].
  cbn [EmbedChunks.disk EmbedChunks.processed EmbedChunks.stdout].
  repeat split.
  intros n Hin. repeat (apply elem_of_cons in Hin as [Hin|Hin]; [done|]).
  by apply elem_of_nil in Hin.
Qed.

(** ** The chunks written *)

(** C7 (as amended). At the end of a run, each chunk in an output file is
    the chunk at some position of the input with the vector that the run
    obtained for that very chunk: the vector of its rank in the reply to
    the call of its group or, that call having failed, the first vector
    returned by its own call.  The field [embedding] holds that vector,
    every other field is as in the input, and the fields are those of the
    input and [embedding]: one field is added when the input chunk has no
    field [embedding], and none when it has one, whose value is then
    replaced.  On records of the input format the run does end. *)
Theorem output_chunk_is_input_with_vector
    (svc : service) (chunks : list chunk) (pod_id : Z) :
  (Forall well_formed chunks →
   ∃ sp sh,
     EmbedChunks.process_chunks svc chunks pod_id = Return sp
     ∧ EmbedViaHttp.process_chunks svc chunks = Return sh)
  ∧ (∀ sp,
       EmbedChunksV2.process_chunks svc chunks pod_id = Return sp
       ∨ EmbedChunks.process_chunks svc chunks pod_id = Return sp →
       ∃ texts sel,
         texts_of chunks = Return texts
         ∧ Forall2 (enriched_at svc chunks texts) sel
             (concat (snd <$> EmbedChunks.disk sp)))
  ∧ (∀ sh,
       EmbedViaHttp.process_chunks svc chunks = Return sh →
       ∃ texts sel,
         texts_of chunks = Return texts
         ∧ Forall2 (enriched_at svc chunks texts) sel
             (concat (snd <$> EmbedViaHttp.disk sh))).
Proof.
  assert (∀ texts outs,
            written_from chunks (embedded_at (fates svc texts)) outs →
            Forall2 (enriched_at svc chunks texts)
              (embedded_at (fates svc texts)) outs) as Hfrom.
  { intros texts outs Hw.
    pose proof (embedded_vector_for svc texts) as Hv.
    unfold written_from in Hw.
    induction Hw as [|e out sel outs (c & Hc & Hemb & Hrest & Hdom) _ IH];
      [constructor|].
    apply Forall_cons in Hv as [Hv Hvs].
    constructor; [|by apply IH].
    exists c. split; [done|]. split; [done|]. split; [done|].
    split; [done|]. split; [done|]. split.
    - intros Hnone. rewrite Hdom, size_union, size_singleton; [done|].
      apply disjoint_singleton_l. by apply not_elem_of_dom.
    - intros Hsome. rewrite Hdom. apply subseteq_union_1_L.
      apply singleton_subseteq_l. by apply elem_of_dom. }
  split; [apply runs_end|]. split.
  - intros sp Hrun.
    assert (EmbedChunks.process_chunks svc chunks pod_id = Return sp) as Hrun'
      by (by destruct Hrun).
    destruct (pod_ended_run_texts _ _ _ _ Hrun') as (texts & Ht).
    destruct (pod_run_fates _ _ _ _ _ Ht Hrun') as (_ & Hw & _).
    exists texts, (embedded_at (fates svc texts)). split; [done|].
    by apply Hfrom.
  - intros sh Hrun.
    destruct (http_run_has_pod svc pod_id chunks sh Hrun) as (sp & Hpod & _).
    destruct (pod_ended_run_texts _ _ _ _ Hpod) as (texts & Ht).
    destruct (http_run_fates _ _ _ _ Ht Hrun) as (_ & Hw & _).
    exists texts, (embedded_at (fates svc texts)). split; [done|].
    by apply Hfrom.
Qed.

Lemma output_chunk_is_input_with_vector_witness :
  let chunks := [sample_chunk "a" "alpha"; sample_chunk "b" "beta"] in
  Forall well_formed chunks
  ∧ ∃ st texts sel,
      EmbedChunks.process_chunks sample_service chunks 0 = Return st
      ∧ texts_of chunks = Return texts
      ∧ Forall2 (enriched_at sample_service chunks texts) sel
          (concat (snd <$> EmbedChunks.disk st)).
Proof.
  intros chunks.
  assert (Forall well_formed chunks) as Hwf
    by (repeat constructor; apply sample_chunk_well_formed).
  split; [exact Hwf|].
  destruct (output_chunk_is_input_with_vector sample_service chunks 0)
    as (Hend & Hpod & _).
  destruct (Hend Hwf) as (sp & _ & Hrun & _).
  destruct (Hpod sp (or_intror Hrun)) as (texts & sel & Ht & Hall).
  by exists sp, texts, sel.
Defined.

(** C7, counterexample.  An input chunk that already carries a field
    [embedding]: the chunk written has the fields of the input and no
    other, so no field is added; the field [embedding] of the input is
    replaced by the vector. *)
Lemma input_with_embedding_gains_no_field :
  let c := embedded_chunk "a" "alpha" (JStr "old") in
  ∃ sp out,
    EmbedChunks.process_chunks sample_service [c] 0 = Return sp
    ∧ concat (snd <$> EmbedChunks.disk sp) = [out]
    ∧ dom out = dom c
    ∧ c !! "embedding" = Some (JStr "old")
    ∧ out !! "embedding" = Some sample_vector.
Proof.
  intros c. eexists _, (set_embedding c sample_vector).
  split; [vm_compute; reflexivity|]. split; [vm_compute; reflexivity|].
  split; [|split; [reflexivity|apply lookup_insert_eq]].
  unfold set_embedding. rewrite dom_insert_L. apply subseteq_union_1_L.
  apply singleton_subseteq_l, elem_of_dom. by eexists.
Qed.
